(** * Tic-tac-toe matchmaking server: a shallow embedding and its properties

    The development follows the server sources: the statistics store
    wrapper ([Db], from the file exporting [normalizeName], [addWin], ...),
    the game server with persistence ([Server]) and the second, smaller
    server file without persistence ([ServerPlain]).

    Conventions of the embedding.
    - A JavaScript string is a [string]; every [ascii] stands for one code
      unit below 256, so the white space that [trim] removes is TAB, LF, VT,
      FF, CR, SPACE and NBSP.
    - [Player] objects are shared between the waiting queue, the games and
      the per-connection variable [player]; they live in a heap and are
      named by their allocation index.
    - The [Map] of games keeps insertion order (the disconnect handler
      iterates over it), so it is an association list with the [Map]
      operations [get], [set] and [delete].
    - A handler runs to its end before the next event, except [join] of
      the server with persistence, which is suspended at
      [await ensurePlayerStats]: its call and its resumption are two
      events of [step_async], with any other events between them, and the
      value the store answered is an input of the resumption. [Server.join],
      [step] and [run] are the schedule in which the store has answered
      before the next event arrives.
    - [Math.random() < 0.5] is an input of the event that starts a match. *)

From Stdlib Require Import Ascii String ZArith.
From Stdlib.Strings Require Import Byte.
From stdpp Require Import gmap strings list sorting.

Open Scope string_scope.
Open Scope list_scope.

(** ** Strings *)

Definition is_white_space (c : ascii) : bool :=
  match c with
  | "009" | "010" | "011" | "012" | "013" | " " | "160" => true
  | _ => false
  end%char.

Fixpoint trimStart (s : string) : string :=
  match s with
  | "" => ""
  | String c s' => if is_white_space c then trimStart s' else s
  end.

Definition trimEnd (s : string) : string :=
  String.rev (trimStart (String.rev s)).

(** [String.prototype.trim] *)
Definition trim (s : string) : string := trimEnd (trimStart s).

(** [s.slice(0, n)] *)
Definition slice0 (n : nat) (s : string) : string := substring 0 n s.

(** ** The statistics store *)

Module Db.

(** A row of table [players]: the three stored counters. The generated
    columns [games] and [score] are computed when a row is read. *)
Record Row := { wins : N; losses : N; draws : N }.

Record Stats := {
  st_name : string; st_wins : N; st_losses : N; st_draws : N;
  st_games : N; st_score : N }.

(** The statements the wrapper sends through [pool.execute]. *)
Inductive Stmt :=
| UpsertWin (n : string)
| UpsertLoss (n : string)
| UpsertDraw (n : string)
| UpsertZero (n : string).

Abbreviation Table := (gmap string Row).

(** [(name ?? '').trim().slice(0, 64)]; the callers pass strings. *)
Definition normalizeName (name : string) : string := slice0 64 (trim name).

Definition zero : Row := {| wins := 0; losses := 0; draws := 0 |}.

(** [INSERT ... VALUES (?, w, l, d) ON DUPLICATE KEY UPDATE c = c + VALUES(c)] *)
Definition upsert (fresh : Row) (bump : Row → Row) (n : string) (t : Table) : Table :=
  match t !! n with
  | Some r => <[n := bump r]> t
  | None => <[n := fresh]> t
  end.

Definition execute (q : Stmt) (t : Table) : Table :=
  match q with
  | UpsertWin n =>
      upsert {| wins := 1; losses := 0; draws := 0 |}
             (λ r, {| wins := wins r + 1; losses := losses r; draws := draws r |}) n t
  | UpsertLoss n =>
      upsert {| wins := 0; losses := 1; draws := 0 |}
             (λ r, {| wins := wins r; losses := losses r + 1; draws := draws r |}) n t
  | UpsertDraw n =>
      upsert {| wins := 0; losses := 0; draws := 1 |}
             (λ r, {| wins := wins r; losses := losses r; draws := draws r + 1 |}) n t
  | UpsertZero n => upsert zero (λ r, r) n t
  end.

(** Each operation returns the table and the statements it executed. *)
Definition addWin (name : string) (t : Table) : Table * list Stmt :=
  let n := normalizeName name in
  if decide (n = "") then (t, [])
  else (execute (UpsertWin n) t, [UpsertWin n]).

Definition addLoss (name : string) (t : Table) : Table * list Stmt :=
  let n := normalizeName name in
  if decide (n = "") then (t, [])
  else (execute (UpsertLoss n) t, [UpsertLoss n]).

Definition addDraw (name : string) (t : Table) : Table * list Stmt :=
  let n := normalizeName name in
  if decide (n = "") then (t, [])
  else (execute (UpsertDraw n) t, [UpsertDraw n]).

Definition stats_of (n : string) (r : Row) : Stats :=
  {| st_name := n; st_wins := wins r; st_losses := losses r; st_draws := draws r;
     st_games := wins r + losses r + draws r;
     st_score := 3 * wins r + draws r |}.

Definition getPlayerStats (name : string) (t : Table) : option Stats :=
  let n := normalizeName name in
  if decide (n = "") then None
  else stats_of n <$> t !! n.

Definition ensurePlayerStats (name : string) (t : Table)
  : Table * list Stmt * option Stats :=
  let n := normalizeName name in
  if decide (n = "") then (t, [], None)
  else
    let t' := execute (UpsertZero n) t in
    (t', [UpsertZero n], getPlayerStats n t').

(** Room for two more results in every row: the counters and the
    generated columns [games] and [score] are [INT UNSIGNED]. *)
Definition in_range (t : Table) : Prop :=
  map_Forall (λ _ r, (3 * wins r + draws r + 6 < 2 ^ 32)%N ∧
                     (wins r + losses r + draws r + 2 < 2 ^ 32)%N) t.

Global Instance in_range_dec t : Decision (in_range t).
Proof. unfold in_range. apply _. Defined.

(** The three stored counters that a read returned, zero when it returned
    [null]. *)
Definition counters (o : option Stats) : N * N * N :=
  match o with
  | Some st => (st_wins st, st_losses st, st_draws st)
  | None => (0%N, 0%N, 0%N)
  end.

(** The leaderboard:
    [SELECT ... FROM players
     ORDER BY score DESC, wins DESC, draws DESC, losses ASC, name ASC LIMIT 10].
    The order of two names is the one of the column's collation, which the
    database supplies: [name_le]. *)
Section leaderboard.
Variable name_le : string → string → Prop.
Context `{!RelDecision name_le}.

Definition ranks_before (a b : Stats) : Prop :=
  (st_score b < st_score a)%N ∨
  (st_score a = st_score b ∧
   ((st_wins b < st_wins a)%N ∨
    (st_wins a = st_wins b ∧
     ((st_draws b < st_draws a)%N ∨
      (st_draws a = st_draws b ∧
       ((st_losses a < st_losses b)%N ∨
        (st_losses a = st_losses b ∧ name_le (st_name a) (st_name b)))))))).

Global Instance ranks_before_dec : RelDecision ranks_before.
Proof. intros a b. unfold ranks_before. apply _. Defined.

Definition rows (t : Table) : list Stats :=
  (λ kr, stats_of kr.1 kr.2) <$> map_to_list t.

Definition getLeaderboard (t : Table) : list Stats :=
  take 10 (merge_sort ranks_before (rows t)).
End leaderboard.

End Db.

(** ** The board *)

Inductive Mark := MX | MO.

(** [Cell = '' | Mark] *)
Inductive Cell := Empty | Marked (m : Mark).

(** What [checkWinner] returns when it is not [null]. *)
Inductive Result := Won (m : Mark) | Draw.

Global Instance Mark_eq_dec : EqDecision Mark.
Proof. solve_decision. Defined.
Global Instance Cell_eq_dec : EqDecision Cell.
Proof. solve_decision. Defined.
Global Instance Result_eq_dec : EqDecision Result.
Proof. solve_decision. Defined.

Definition lines : list (nat * nat * nat) :=
  [ (0, 1, 2); (3, 4, 5); (6, 7, 8);
    (0, 3, 6); (1, 4, 7); (2, 5, 8);
    (0, 4, 8); (2, 4, 6) ]%nat.

(** The test of the loop body:
    [board[a] && board[a] === board[b] && board[b] === board[c]];
    a cell out of range reads [undefined], which is falsy. *)
Definition line_mark (board : list Cell) (l : nat * nat * nat) : option Mark :=
  let '(a, b, c) := l in
  match board !! a with
  | Some (Marked m) =>
      if decide (board !! a = board !! b ∧ board !! b = board !! c)
      then Some m else None
  | _ => None
  end.

(** The [for] loop with its early [return]. *)
Fixpoint first_line (board : list Cell) (ls : list (nat * nat * nat)) : option Mark :=
  match ls with
  | [] => None
  | l :: ls' =>
      match line_mark board l with
      | Some m => Some m
      | None => first_line board ls'
      end
  end.

Definition checkWinner (board : list Cell) : option Result :=
  match first_line board lines with
  | Some m => Some (Won m)
  | None =>
      if forallb (λ c, bool_decide (c ≠ Empty)) board then Some Draw else None
  end.

(** ** Players, games and the server state *)

(** A reference to a [Player] object: its index in the heap. *)
Abbreviation ref := nat.

Module Player.
(** [type Player = { id; name; mark; socket; gameId? }]. The field
    [socket] is the connection whose identifier is [id]: emitting on it
    addresses that identifier. *)
Record t := { id : string; name : string; mark : Mark; gameId : option string }.

Definition set_mark (m : Mark) (p : t) : t :=
  {| id := id p; name := name p; mark := m; gameId := gameId p |}.
Definition set_gameId (g : string) (p : t) : t :=
  {| id := id p; name := name p; mark := mark p; gameId := Some g |}.

(** Read through a reference that was never allocated; no such read
    happens from a well-formed state. *)
Definition blank : t := {| id := ""; name := ""; mark := MX; gameId := None |}.
End Player.

Module Game.
(** [type Game = { id; board; players: Record<Mark, Player>; turn; finished }] *)
Record t := {
  id : string;
  board : list Cell;
  players_X : ref;
  players_O : ref;
  turn : Mark;
  finished : bool }.

Definition players (g : t) (m : Mark) : ref :=
  match m with MX => players_X g | MO => players_O g end.

Definition set_board (b : list Cell) (g : t) : t :=
  {| id := id g; board := b; players_X := players_X g; players_O := players_O g;
     turn := turn g; finished := finished g |}.
Definition set_turn (m : Mark) (g : t) : t :=
  {| id := id g; board := board g; players_X := players_X g; players_O := players_O g;
     turn := m; finished := finished g |}.
Definition set_finished (g : t) : t :=
  {| id := id g; board := board g; players_X := players_X g; players_O := players_O g;
     turn := turn g; finished := true |}.
End Game.

Global Instance Player_eq_dec : EqDecision Player.t.
Proof. solve_decision. Defined.
Global Instance Game_eq_dec : EqDecision Game.t.
Proof. solve_decision. Defined.

(** The texts of the three [error] events. *)
Inductive ErrorMessage := NotYourTurn | InvalidPosition | CellOccupied.

(** Events the server emits, each with the connection it addresses. *)
Inductive Event :=
| EvProfile (name : string) (exists_ : bool) (stats : option Db.Stats)
| EvWaiting
| EvMatchStarted (gameId : string) (youAre : Mark) (opponent : string)
| EvState (gameId : string) (board : list Cell) (turn : Mark)
| EvGameOver (gameId : string) (result : Result)
| EvError (message : ErrorMessage).

(** Calls into the statistics store, in the order they are issued. *)
Inductive DbCall :=
| EnsurePlayerStats (name : string)
| AddWin (name : string)
| AddLoss (name : string)
| AddDraw (name : string).

(** The [Map<string, Game>] in insertion order. *)
Abbreviation GameMap := (list (string * Game.t)).

Fixpoint map_get (k : string) (m : GameMap) : option Game.t :=
  match m with
  | [] => None
  | (k', g) :: m' => if decide (k' = k) then Some g else map_get k m'
  end.

(** [Map.prototype.set]: an existing key keeps its place. *)
Fixpoint map_set (k : string) (g : Game.t) (m : GameMap) : GameMap :=
  match m with
  | [] => [(k, g)]
  | (k', g') :: m' =>
      if decide (k' = k) then (k, g) :: m' else (k', g') :: map_set k g m'
  end.

Fixpoint map_delete (k : string) (m : GameMap) : GameMap :=
  match m with
  | [] => []
  | (k', g') :: m' =>
      if decide (k' = k) then m' else (k', g') :: map_delete k m'
  end.

Record State := {
  heap : list Player.t;
  player : gmap string ref;
  waitingQueue : list ref;
  games : GameMap;
  emitted : list (string * Event);
  persisted : list DbCall }.

Definition init : State :=
  {| heap := []; player := ∅; waitingQueue := []; games := [];
     emitted := []; persisted := [] |}.

Definition deref (s : State) (r : ref) : Player.t :=
  default Player.blank (heap s !! r).

Definition with_heap (h : list Player.t) (s : State) : State :=
  {| heap := h; player := player s; waitingQueue := waitingQueue s;
     games := games s; emitted := emitted s; persisted := persisted s |}.
Definition with_player (p : gmap string ref) (s : State) : State :=
  {| heap := heap s; player := p; waitingQueue := waitingQueue s;
     games := games s; emitted := emitted s; persisted := persisted s |}.
Definition with_queue (q : list ref) (s : State) : State :=
  {| heap := heap s; player := player s; waitingQueue := q;
     games := games s; emitted := emitted s; persisted := persisted s |}.
Definition with_games (g : GameMap) (s : State) : State :=
  {| heap := heap s; player := player s; waitingQueue := waitingQueue s;
     games := g; emitted := emitted s; persisted := persisted s |}.

(** [io.to(id).emit(...)] and [socket.emit(...)] of the connection [to]. *)
Definition emit (to : string) (e : Event) (s : State) : State :=
  {| heap := heap s; player := player s; waitingQueue := waitingQueue s;
     games := games s; emitted := emitted s ++ [(to, e)]; persisted := persisted s |}.

Definition persist (c : DbCall) (s : State) : State :=
  {| heap := heap s; player := player s; waitingQueue := waitingQueue s;
     games := games s; emitted := emitted s; persisted := persisted s ++ [c] |}.

(** Assignment to a field of the object behind [r]. *)
Definition mutate (r : ref) (f : Player.t → Player.t) (s : State) : State :=
  with_heap (alter f r (heap s)) s.

Definition other (m : Mark) : Mark := match m with MX => MO | MO => MX end.

Definition new_gameId (id1 id2 : string) : string :=
  "g_" +:+ slice0 5 id1 +:+ "_" +:+ slice0 5 id2.

(** [startMatch(p1, p2)]; [coin] is [Math.random() < 0.5]. *)
Definition startMatch (coin : bool) (p1 p2 : ref) (s : State) : State :=
  let gameId := new_gameId (Player.id (deref s p1)) (Player.id (deref s p2)) in
  let X := if coin then p1 else p2 in
  let O := if decide (X = p1) then p2 else p1 in
  let s := mutate X (Player.set_mark MX) s in
  let s := mutate O (Player.set_mark MO) s in
  let game := {| Game.id := gameId; Game.board := replicate 9 Empty;
                 Game.players_X := X; Game.players_O := O;
                 Game.turn := MX; Game.finished := false |} in
  let s := with_games (map_set gameId game (games s)) s in
  let s := mutate X (Player.set_gameId gameId) s in
  let s := mutate O (Player.set_gameId gameId) s in
  let s := emit (Player.id (deref s X))
                (EvMatchStarted gameId MX (Player.name (deref s O))) s in
  let s := emit (Player.id (deref s O))
                (EvMatchStarted gameId MO (Player.name (deref s X))) s in
  let s := emit (Player.id (deref s X))
                (EvState gameId (Game.board game) (Game.turn game)) s in
  emit (Player.id (deref s O)) (EvState gameId (Game.board game) (Game.turn game)) s.

(** The pairing step of [join]:
    [if (waitingQueue.length >= 2) { shift; shift; startMatch }]. *)
Definition pair_up (coin : bool) (s : State) : State :=
  match waitingQueue s with
  | p1 :: p2 :: rest => startMatch coin p1 p2 (with_queue rest s)
  | _ => s
  end.

(** [name || socket.id] *)
Definition name_or_id (name : option string) (sid : string) : string :=
  match name with
  | Some n => if decide (n = "") then sid else n
  | None => sid
  end.

(** [player = { id: socket.id, name: (name || socket.id), mark: 'X', socket }]:
    a new object is allocated and stored in the connection's variable. *)
Definition new_player (sid : string) (name : option string) (s : State) : State :=
  let r := length (heap s) in
  let p := {| Player.id := sid; Player.name := name_or_id name sid;
              Player.mark := MX; Player.gameId := None |} in
  with_player (<[sid := r]> (player s)) (with_heap (heap s ++ [p]) s).

(** The first matching index of [waitingQueue.findIndex(p => p.id === sid)]
    and [splice(idx, 1)]. *)
Definition in_queue (s : State) (sid : string) (r : ref) : Prop :=
  Player.id (deref s r) = sid.

Global Instance in_queue_dec s sid r : Decision (in_queue s sid r).
Proof. unfold in_queue. apply _. Defined.

Definition leave_queue (sid : string) (s : State) : State :=
  match list_find (in_queue s sid) (waitingQueue s) with
  | Some (idx, _) => with_queue (delete idx (waitingQueue s)) s
  | None => s
  end.

(** The test of the disconnect loop: [isX || isO]. *)
Definition isX (s : State) (sid : string) (g : Game.t) : Prop :=
  Player.id (deref s (Game.players_X g)) = sid.
Definition isO (s : State) (sid : string) (g : Game.t) : Prop :=
  Player.id (deref s (Game.players_O g)) = sid.
Definition plays_in (s : State) (sid : string) (e : string * Game.t) : Prop :=
  isX s sid e.2 ∨ isO s sid e.2.

Global Instance isX_dec s sid g : Decision (isX s sid g).
Proof. unfold isX. apply _. Defined.
Global Instance isO_dec s sid g : Decision (isO s sid g).
Proof. unfold isO. apply _. Defined.
Global Instance plays_in_dec s sid e : Decision (plays_in s sid e).
Proof. unfold plays_in. apply _. Defined.

(** [g.finished = true] on the object stored at position [i]. *)
Definition finish_at (i : nat) (s : State) : State :=
  with_games (alter (λ e, (e.1, Game.set_finished e.2)) i (games s)) s.

(** ** The [move] handler, shared by the two server files

    The two files differ in one statement of this handler: the first calls
    [persistResultSafe(game, res)] before deleting the game, the second
    does not. [on_result] stands for that statement. *)

Section move.
Variable on_result : Game.t → Result → State → State.

(** The accepted branch up to the two [state] events:
    [game.board[index] = mark; game.turn = mark === 'X' ? 'O' : 'X'].
    The game object is the one stored under [gameId]. *)
Definition place (gameId : string) (game : Game.t) (mark : Mark) (index : Z)
    (s : State) : Game.t * State :=
  let game := Game.set_board (<[Z.to_nat index := Marked mark]> (Game.board game)) game in
  let game := Game.set_turn (if decide (mark = MX) then MO else MX) game in
  let s := with_games (map_set gameId game (games s)) s in
  let st := EvState (Game.id game) (Game.board game) (Game.turn game) in
  let s := emit (Player.id (deref s (Game.players_X game))) st s in
  let s := emit (Player.id (deref s (Game.players_O game))) st s in
  (game, s).

(** [const res = checkWinner(game.board); if (res) { ... }] *)
Definition conclude (gameId : string) (game : Game.t) (s : State) : State :=
  match checkWinner (Game.board game) with
  | Some res =>
      let game := Game.set_finished game in
      let s := with_games (map_set gameId game (games s)) s in
      let s := emit (Player.id (deref s (Game.players_X game)))
                    (EvGameOver (Game.id game) res) s in
      let s := emit (Player.id (deref s (Game.players_O game)))
                    (EvGameOver (Game.id game) res) s in
      let s := on_result game res s in
      with_games (map_delete (Game.id game) (games s)) s
  | None => s
  end.

Definition move (sid gameId : string) (index : Z) (s : State) : State :=
  match map_get gameId (games s) with
  | None => s
  | Some game =>
      if Game.finished game then s
      else
        match player s !! sid with
        | None => s
        | Some r =>
            if decide (Player.gameId (deref s r) = Some gameId) then
              let mark := Player.mark (deref s r) in
              if decide (Game.turn game = mark) then
                if decide (index < 0 ∨ index > 8)%Z then
                  emit sid (EvError InvalidPosition) s
                else if decide (Game.board game !! Z.to_nat index = Some Empty) then
                  let '(game, s) := place gameId game mark index s in
                  conclude gameId game s
                else emit sid (EvError CellOccupied) s
              else emit sid (EvError NotYourTurn) s
            else s
        end
  end.
End move.

(** What [await ensurePlayerStats(...)] produced. *)
Inductive StoreReply := Resolved (stats : option Db.Stats) | Rejected.

(** ** The server with persistence *)

Module Server.

(** [join] before the [await]: the player object is created and the
    store is asked for its statistics. *)
Definition announce (sid : string) (name : option string) (s : State) : State :=
  let s := new_player sid name s in
  persist (EnsurePlayerStats (name_or_id name sid)) s.

(** [join] after the [await], up to [socket.emit('waiting')]; it reads
    the connection's variable [player]. *)
Definition enqueue (sid : string) (stats : option Db.Stats) (s : State) : State :=
  match player s !! sid with
  | Some r =>
      let s := emit sid (EvProfile (Player.name (deref s r))
                                   (bool_decide (is_Some stats)) stats) s in
      let s := with_queue (waitingQueue s ++ [r]) s in
      emit sid EvWaiting s
  | None => s
  end.

(** The whole handler when the store answers before any other event is
    handled: the call, then the resumption. When the store call rejects,
    the handler stops at the [await]; nothing catches the rejection, so
    the server process ends there and the state is its last. (For the
    handler interrupted at the [await], see [step_async].) *)
Definition join (sid : string) (name : option string) (reply : StoreReply)
    (coin : bool) (s : State) : State :=
  let s := announce sid name s in
  match reply with
  | Resolved stats => pair_up coin (enqueue sid stats s)
  | Rejected => s
  end.

(** [name?.trim() || fallback] *)
Definition trimmed_or (name fallback : string) : string :=
  if decide (trim name = "") then fallback else trim name.

Definition persistResultSafe (game : Game.t) (result : Result) (s : State) : State :=
  let nameX := trimmed_or (Player.name (deref s (Game.players_X game))) "Jogador_X" in
  let nameO := trimmed_or (Player.name (deref s (Game.players_O game))) "Jogador_O" in
  match result with
  | Draw => persist (AddDraw nameO) (persist (AddDraw nameX) s)
  | Won MX => persist (AddLoss nameO) (persist (AddWin nameX) s)
  | Won MO => persist (AddLoss nameX) (persist (AddWin nameO) s)
  end.

Definition move : string → string → Z → State → State := move persistResultSafe.

(** The body of the disconnect loop for the game [g] found at position [i]. *)
Definition forfeit (sid : string) (i : nat) (g : Game.t) (s : State) : State :=
  let s := finish_at i s in
  let winnerMark := if decide (isX s sid g) then MO else MX in
  let winner := if decide (isX s sid g) then Game.players_O g else Game.players_X g in
  let s := emit (Player.id (deref s winner)) (EvGameOver (Game.id g) (Won winnerMark)) s in
  let nameX := Player.name (deref s (Game.players_X g)) in
  let nameO := Player.name (deref s (Game.players_O g)) in
  let s := if decide (winnerMark = MX)
           then persist (AddLoss nameO) (persist (AddWin nameX) s)
           else persist (AddLoss nameX) (persist (AddWin nameO) s) in
  with_games (map_delete (Game.id g) (games s)) s.

Definition disconnect (sid : string) (s : State) : State :=
  let s := leave_queue sid s in
  match list_find (plays_in s sid) (games s) with
  | Some (i, (_, g)) => forfeit sid i g s
  | None => s
  end.

End Server.

(** ** The server file without persistence *)

Module ServerPlain.

Definition enqueue (sid : string) (name : option string) (s : State) : State :=
  let s := new_player sid name s in
  match player s !! sid with
  | Some r => emit sid EvWaiting (with_queue (waitingQueue s ++ [r]) s)
  | None => s
  end.

Definition join (sid : string) (name : option string) (coin : bool) (s : State) : State :=
  pair_up coin (enqueue sid name s).

Definition move : string → string → Z → State → State := move (λ _ _ s, s).

Definition forfeit (sid : string) (i : nat) (g : Game.t) (s : State) : State :=
  let s := finish_at i s in
  let other := if decide (isX s sid g) then Game.players_O g else Game.players_X g in
  let s := emit (Player.id (deref s other)) (EvGameOver (Game.id g) Draw) s in
  with_games (map_delete (Game.id g) (games s)) s.

Definition disconnect (sid : string) (s : State) : State :=
  let s := leave_queue sid s in
  match list_find (plays_in s sid) (games s) with
  | Some (i, (_, g)) => forfeit sid i g s
  | None => s
  end.

End ServerPlain.

(** ** The first server's events, with [join] in two halves

    [join] is an [async] handler: it creates the player, calls the store
    and is suspended; the server handles whatever comes next, and the
    handler resumes when the store has answered. The call and the
    resumption are therefore events of their own, and [run_async] runs any
    sequence of them. A call that is never resumed stands for a [join]
    still waiting, or one whose store call was rejected. *)

Inductive Async :=
| JoinCalled (sid : string) (name : option string)
| JoinResumed (sid : string) (stats : option Db.Stats) (coin : bool)
| MoveSent (sid gameId : string) (index : Z)
| Disconnected (sid : string).

Definition step_async (s : State) (a : Async) : State :=
  match a with
  | JoinCalled sid name => Server.announce sid name s
  | JoinResumed sid stats coin => pair_up coin (Server.enqueue sid stats s)
  | MoveSent sid gameId index => Server.move sid gameId index s
  | Disconnected sid => Server.disconnect sid s
  end.

Definition run_async (tr : list Async) : State := foldl step_async init tr.

(** ** Events handled one at a time

    The schedule in which every [join] is answered by the store before
    the next event arrives: [Server.join] is the call followed at once by
    the resumption, and [run] runs such events only. What is proved of
    [run] holds of the server on that condition. *)

Inductive Input :=
| OnJoin (sid : string) (name : option string) (reply : StoreReply) (coin : bool)
| OnMove (sid gameId : string) (index : Z)
| OnDisconnect (sid : string).

Definition step (s : State) (e : Input) : State :=
  match e with
  | OnJoin sid name reply coin => Server.join sid name reply coin s
  | OnMove sid gameId index => Server.move sid gameId index s
  | OnDisconnect sid => Server.disconnect sid s
  end.

Definition run (es : list Input) : State := foldl step init es.

(** The same for the server without persistence; [reply] is not used. *)
Definition step_plain (s : State) (e : Input) : State :=
  match e with
  | OnJoin sid name _ coin => ServerPlain.join sid name coin s
  | OnMove sid gameId index => ServerPlain.move sid gameId index s
  | OnDisconnect sid => ServerPlain.disconnect sid s
  end.

Definition run_plain (es : list Input) : State := foldl step_plain init es.

(** An event handled without interruption, as events of [step_async]. *)
Definition halves (e : Input) : list Async :=
  match e with
  | OnJoin sid name (Resolved stats) coin =>
      [JoinCalled sid name; JoinResumed sid stats coin]
  | OnJoin sid name Rejected _ => [JoinCalled sid name]
  | OnMove sid gameId index => [MoveSent sid gameId index]
  | OnDisconnect sid => [Disconnected sid]
  end.

(** * The vocabulary of the properties *)

(** The game object that [startMatch coin p1 p2] builds in state [s]. *)
Definition started_game (coin : bool) (p1 p2 : ref) (s : State) : Game.t :=
  let X := if coin then p1 else p2 in
  let O := if decide (X = p1) then p2 else p1 in
  {| Game.id := new_gameId (Player.id (deref s p1)) (Player.id (deref s p2));
     Game.board := replicate 9 Empty;
     Game.players_X := X; Game.players_O := O;
     Game.turn := MX; Game.finished := false |}.

(** The line [l] holds three cells marked [m]. *)
Definition holds (board : list Cell) (m : Mark) (l : nat * nat * nat) : Prop :=
  board !! l.1.1 = Some (Marked m) ∧
  board !! l.1.2 = Some (Marked m) ∧
  board !! l.2 = Some (Marked m).

(** Some of the eight lines holds [m]. *)
Definition completed (board : list Cell) (m : Mark) : Prop :=
  Exists (holds board m) lines.

(** [m] is the mark of the first completed line, in the order of [lines]. *)
Definition first_completed (board : list Cell) (m : Mark) : Prop :=
  ∃ before l after,
    lines = before ++ l :: after ∧ holds board m l ∧
    Forall (λ l', ∀ m', ¬ holds board m' l') before.

Definition full (board : list Cell) : Prop := Forall (λ c, c ≠ Empty) board.

Global Instance holds_dec board m l : Decision (holds board m l).
Proof. unfold holds. apply _. Defined.
Global Instance completed_dec board m : Decision (completed board m).
Proof. unfold completed. apply _. Defined.

(** What holds of every registered game: it is stored under its own [id],
    is not finished, has nine cells, and its two players are distinct
    allocated objects carrying the marks of their seats, neither of them
    waiting in the queue. *)
Definition wf_entry (s : State) (e : string * Game.t) : Prop :=
  Game.id e.2 = e.1 ∧
  Game.finished e.2 = false ∧
  length (Game.board e.2) = 9 ∧
  Game.players_X e.2 < length (heap s) ∧
  Game.players_O e.2 < length (heap s) ∧
  Game.players_X e.2 ≠ Game.players_O e.2 ∧
  Player.mark (deref s (Game.players_X e.2)) = MX ∧
  Player.mark (deref s (Game.players_O e.2)) = MO ∧
  (Game.players_X e.2 ∉ waitingQueue s) ∧
  (Game.players_O e.2 ∉ waitingQueue s).

Definition wf_conn (s : State) (sid : string) (r : ref) : Prop :=
  r < length (heap s) ∧ Player.id (deref s r) = sid.

Definition wf (s : State) : Prop :=
  Forall (λ r, r < length (heap s)) (waitingQueue s) ∧
  NoDup (waitingQueue s) ∧
  NoDup (games s).*1 ∧
  Forall (wf_entry s) (games s) ∧
  map_Forall (wf_conn s) (player s).

Global Instance wf_entry_dec s e : Decision (wf_entry s e).
Proof. unfold wf_entry. apply _. Defined.
Global Instance wf_conn_dec s sid r : Decision (wf_conn s sid r).
Proof. unfold wf_conn. apply _. Defined.
Global Instance wf_dec s : Decision (wf s).
Proof. unfold wf. apply _. Defined.

(** Assignments to [mark] and [gameId] keep [id] and [name]. *)
Definition keeps_identity (f : Player.t → Player.t) : Prop :=
  ∀ p, Player.id (f p) = Player.id p ∧ Player.name (f p) = Player.name p.

(** The tests the handler makes before it writes the board: the game is
    registered and not finished, the object in the connection's variable
    [player] carries this game's id, the turn is that object's mark, the
    index is in range and the cell is empty. *)
Definition accepted (s : State) (sid gameId : string) (index : Z)
    (game : Game.t) (r : ref) : Prop :=
  map_get gameId (games s) = Some game ∧
  Game.finished game = false ∧
  player s !! sid = Some r ∧
  Player.gameId (deref s r) = Some gameId ∧
  Game.turn game = Player.mark (deref s r) ∧
  (0 ≤ index ≤ 8)%Z ∧
  Game.board game !! Z.to_nat index = Some Empty.

Definition accepts (s : State) (sid gameId : string) (index : Z) : Prop :=
  ∃ game r, accepted s sid gameId index game r.

Global Instance accepted_dec s sid gameId index game r :
  Decision (accepted s sid gameId index game r).
Proof. unfold accepted. apply _. Defined.

Global Instance accepts_dec s sid gameId index :
  Decision (accepts s sid gameId index).
Proof.
  destruct (map_get gameId (games s)) as [game |] eqn:Hg.
  - destruct (player s !! sid) as [r |] eqn:Hp.
    + destruct (decide (accepted s sid gameId index game r)) as [Ha | Hn].
      * left. by exists game, r.
      * right. intros (game' & r' & Ha). destruct Hn.
        destruct Ha as (Hg' & ? & Hp' & ?).
        rewrite Hg in Hg'. rewrite Hp in Hp'.
        injection Hg' as <-. injection Hp' as <-.
        unfold accepted. by rewrite Hg, Hp.
    + right. intros (game' & r' & _ & _ & Hp' & _). congruence.
  - right. intros (game' & r' & Hg' & _). congruence.
Defined.

(** The game after the write and the flip of [turn]. *)
Definition played (game : Game.t) (mark : Mark) (index : Z) : Game.t :=
  Game.set_turn (other mark)
    (Game.set_board (<[Z.to_nat index := Marked mark]> (Game.board game)) game).

(** The state after the write and the two [state] events. *)
Definition placed (s : State) (gameId : string) (game : Game.t) (mark : Mark)
    (index : Z) : State :=
  let game' := played game mark index in
  let st := EvState (Game.id game) (Game.board game') (Game.turn game') in
  emit (Player.id (deref s (Game.players_O game))) st
    (emit (Player.id (deref s (Game.players_X game))) st
      (with_games (map_set gameId game' (games s)) s)).

(** The conditions as the specification words them: the sender takes part
    in the registered game by its identity, and the seat whose turn it is
    belongs to the sender. *)
Definition participant (s : State) (sid : string) (game : Game.t) : Prop :=
  isX s sid game ∨ isO s sid game.

Definition claimed_legal (s : State) (sid gameId : string) (index : Z) : Prop :=
  ∃ game,
    map_get gameId (games s) = Some game ∧
    Game.finished game = false ∧
    participant s sid game ∧
    Player.id (deref s (Game.players game (Game.turn game))) = sid ∧
    (0 ≤ index ≤ 8)%Z ∧
    Game.board game !! Z.to_nat index = Some Empty.

(** Ann and Bob are paired, Ann playing X. *)
Definition paired : State :=
  run [ OnJoin "ann-socket" (Some "Ann") (Resolved None) true;
        OnJoin "bob-socket" (Some "Bob") (Resolved None) true ].

(** Then Ann's connection sends [join] again. *)
Definition rejoined : State :=
  run [ OnJoin "ann-socket" (Some "Ann") (Resolved None) true;
        OnJoin "bob-socket" (Some "Bob") (Resolved None) true;
        OnJoin "ann-socket" (Some "Ann") (Resolved None) true ].

(** Two pairs whose identifiers share their first five characters: the
    second game gets the id of the first and replaces it in the registry. *)
Definition overwritten : State :=
  run [ OnJoin "abcde-1" (Some "Ann") (Resolved None) true;
        OnJoin "fghij-1" (Some "Bob") (Resolved None) true;
        OnJoin "abcde-2" (Some "Cid") (Resolved None) true;
        OnJoin "fghij-2" (Some "Dan") (Resolved None) true ].

(** Two players wait, nobody is paired yet. *)
Definition two_waiting : State :=
  ServerPlain.enqueue "bob-socket" (Some "Bob")
    (ServerPlain.enqueue "ann-socket" (Some "Ann") init).

(** The two seats of [g] are held by the identities [a] and [b]. *)
Definition pairs (s : State) (g : Game.t) (a b : string) : Prop :=
  (Player.id (deref s (Game.players_X g)) = a ∧
   Player.id (deref s (Game.players_O g)) = b) ∨
  (Player.id (deref s (Game.players_X g)) = b ∧
   Player.id (deref s (Game.players_O g)) = a).

(** The number of queue entries of an identity. *)
Definition entries_for (s : State) (sid : string) : nat :=
  length (filter (in_queue s sid) (waitingQueue s)).

(** After [rejoined], Cid joins and is paired with Ann's second player
    object: Ann's connection now holds a seat in two registered games. *)
Definition in_two_games : State :=
  foldl step rejoined
    [ OnJoin "cid-socket" (Some "Cid") (Resolved None) true ].

(** Ann and Bob are paired on the server without persistence, Ann
    playing X and Bob O. *)
Definition paired_plain : State :=
  run_plain [ OnJoin "ann-socket" (Some "Ann") (Resolved None) true;
              OnJoin "bob-socket" (Some "Bob") (Resolved None) true ].

(** Ann and Bob are paired and have played two moves each; Ann's next
    move can complete the top row. *)
Definition top_row_next : list Input :=
  [ OnJoin "ann-socket" (Some "Ann") (Resolved None) true;
    OnJoin "bob-socket" (Some "Bob") (Resolved None) true;
    OnMove "ann-socket" "g_ann-s_bob-s" 0; OnMove "bob-socket" "g_ann-s_bob-s" 3;
    OnMove "ann-socket" "g_ann-s_bob-s" 1; OnMove "bob-socket" "g_ann-s_bob-s" 4 ].

(** The match of Ann and Bob played to the end: X takes the top row. *)
Definition decided : State :=
  foldl step paired
    [ OnMove "ann-socket" "g_ann-s_bob-s" 0; OnMove "bob-socket" "g_ann-s_bob-s" 3;
      OnMove "ann-socket" "g_ann-s_bob-s" 1; OnMove "bob-socket" "g_ann-s_bob-s" 4;
      OnMove "ann-socket" "g_ann-s_bob-s" 2 ].

(** Both press "play again" on the same connections, Ann first. *)
Definition rematch : State :=
  foldl step decided
    [ OnJoin "ann-socket" (Some "Ann") (Resolved None) true;
      OnJoin "bob-socket" (Some "Bob") (Resolved None) true ].

(** ** The store behind the calls *)

(** What the store does with a call of the server: the table afterwards
    and the statements executed. *)
Definition run_call (c : DbCall) (t : gmap string Db.Row)
  : gmap string Db.Row * list Db.Stmt :=
  match c with
  | EnsurePlayerStats name => (Db.ensurePlayerStats name t).1
  | AddWin name => Db.addWin name t
  | AddLoss name => Db.addLoss name t
  | AddDraw name => Db.addDraw name t
  end.

(** A name of more than 64 characters whose cut ends in a blank. *)
Definition long_name : string :=
  String.concat "" (replicate 63 "x") +:+ " y".

(** [s] does not start with white space. *)
Definition no_blank_head (s : string) : Prop :=
  ∀ c rest, s = String c rest → is_white_space c = false.

(** A read returned a row with the counters [w], [l], [d], and with the
    generated columns [games] and [score] that go with them, both within
    [INT UNSIGNED]. *)
Definition reads (o : option Db.Stats) (w l d : N) : Prop :=
  ∃ st, o = Some st ∧
    Db.st_wins st = w ∧ Db.st_losses st = l ∧ Db.st_draws st = d ∧
    Db.st_games st = (w + l + d)%N ∧ Db.st_score st = (3 * w + d)%N ∧
    (Db.st_games st < 2 ^ 32)%N ∧ (Db.st_score st < 2 ^ 32)%N.

(** A table with three players, two of them level on points. *)
Definition three_rows : gmap string Db.Row :=
  <["ann" := {| Db.wins := 2; Db.losses := 0; Db.draws := 0 |}]>
  (<["bob" := {| Db.wins := 1; Db.losses := 1; Db.draws := 3 |}]>
  (<["cid" := {| Db.wins := 0; Db.losses := 2; Db.draws := 0 |}]> ∅)).

(** ** The instance identifier *)

Definition alphabet : string := "ABCDEFGHJKLMNPQRSTUVWXYZ23456789".

(** The body of the loop of [genInstanceId],
    [out += alphabet[bytes[i]! % alphabet.length]]; an index out of range
    would read [undefined], which [+=] appends as text. *)
Definition append_pick (out : string) (b : Byte.byte) : string :=
  match String.get (N.to_nat (Byte.to_N b) mod String.length alphabet) alphabet with
  | Some c => out +:+ String c ""
  | None => out +:+ "undefined"
  end.

(** [genInstanceId(len)]; [bytes] is what [crypto.randomBytes(len)]
    returned, [len] bytes. *)
Definition genInstanceId (bytes : list Byte.byte) : string :=
  foldl append_pick "" bytes.

Global Instance byte_eq_dec : EqDecision Byte.byte.
Proof.
  intros a b. destruct (decide (Byte.to_N a = Byte.to_N b)) as [H | H].
  - left. apply (f_equal Byte.of_N) in H. rewrite !Byte.of_to_N in H.
    by injection H.
  - right. by intros ->.
Defined.

(** The 256 values of a byte. *)
Definition all_bytes : list Byte.byte :=
  omap Byte.of_N (N.of_nat <$> seq 0 256).

(** The character that stands for the byte [b]. *)
Definition glyph (b : Byte.byte) : ascii :=
  default "?"%char
    (String.get (N.to_nat (Byte.to_N b) mod String.length alphabet) alphabet).

(** ** Positions in progress *)

(** The number of cells that carry the mark [m]. *)
Definition count_mark (m : Mark) (board : list Cell) : nat :=
  length (filter (λ c, c = Marked m) board).

(** A game that is being played: not finished, nine cells, as many X as
    O when it is X's turn and one more when it is O's, and no result. *)
Definition in_progress (g : Game.t) : Prop :=
  Game.finished g = false ∧
  length (Game.board g) = 9 ∧
  count_mark MX (Game.board g) =
    count_mark MO (Game.board g) + (if decide (Game.turn g = MO) then 1 else 0) ∧
  checkWinner (Game.board g) = None.

Definition sound_entry (e : string * Game.t) : Prop :=
  Game.id e.2 = e.1 ∧ in_progress e.2.

(** The registry holds one game per id, each under its own id and in
    progress. *)
Definition sound (s : State) : Prop :=
  NoDup (games s).*1 ∧ Forall sound_entry (games s).

Global Instance in_progress_dec g : Decision (in_progress g).
Proof. unfold in_progress. apply _. Defined.
Global Instance sound_entry_dec e : Decision (sound_entry e).
Proof. unfold sound_entry. apply _. Defined.
Global Instance sound_dec s : Decision (sound s).
Proof. unfold sound. apply _. Defined.

(** The store calls of a result, as [persistResultSafe] issues them for
    the game [game] in state [s]. *)
Definition result_calls (s : State) (game : Game.t) (res : Result) : list DbCall :=
  let nameX := Server.trimmed_or (Player.name (deref s (Game.players_X game))) "Jogador_X" in
  let nameO := Server.trimmed_or (Player.name (deref s (Game.players_O game))) "Jogador_O" in
  match res with
  | Draw => [AddDraw nameX; AddDraw nameO]
  | Won MX => [AddWin nameX; AddLoss nameO]
  | Won MO => [AddWin nameO; AddLoss nameX]
  end.

(** Ann and Bob are paired with their [join] events interleaved: both
    are called before either resumes, and Bob's resumes first. Ann plays
    X. *)
Definition both_called : list Async :=
  [ JoinCalled "ann-socket" (Some "Ann"); JoinCalled "bob-socket" (Some "Bob");
    JoinResumed "bob-socket" None true; JoinResumed "ann-socket" None false ].

(** Then Ann takes the centre. *)
Definition interleaved : list Async :=
  both_called ++ [ MoveSent "ann-socket" "g_bob-s_ann-s" 4 ].

(** Or two moves each, after which Ann can complete the top row. *)
Definition top_row_async : list Async :=
  both_called ++
  [ MoveSent "ann-socket" "g_bob-s_ann-s" 0; MoveSent "bob-socket" "g_bob-s_ann-s" 3;
    MoveSent "ann-socket" "g_bob-s_ann-s" 1; MoveSent "bob-socket" "g_bob-s_ann-s" 4 ].

(** The game of Ann and Bob at that point. *)
Definition top_row_game : Game.t :=
  {| Game.id := "g_bob-s_ann-s";
     Game.board := [ Marked MX; Marked MX; Empty; Marked MO; Marked MO; Empty;
                     Empty; Empty; Empty ];
     Game.players_X := 0; Game.players_O := 1;
     Game.turn := MX; Game.finished := false |}.

(** The two player objects of every registered game carry the id under
    which the game is registered. *)
Definition seated_entry (s : State) (e : string * Game.t) : Prop :=
  Player.gameId (deref s (Game.players_X e.2)) = Some e.1 ∧
  Player.gameId (deref s (Game.players_O e.2)) = Some e.1.

Definition seated (s : State) : Prop := Forall (seated_entry s) (games s).

(** What the handlers keep when none is interrupted. *)
Definition steady (s : State) : Prop := wf s ∧ sound s ∧ seated s.

Global Instance seated_entry_dec s e : Decision (seated_entry s e).
Proof. unfold seated_entry. apply _. Defined.
Global Instance seated_dec s : Decision (seated s).
Proof. unfold seated. apply _. Defined.
Global Instance steady_dec s : Decision (steady s).
Proof. unfold steady. apply _. Defined.

(** ** The client *)

(** The name the client sends with [join]: [name.trim() || undefined]. *)
Definition joinQueue_name (name : string) : option string :=
  if decide (trim name = "") then None else Some (trim name).

(** [v.replace(/\/+$/, "")]: the run of slashes at the end is removed. *)
Fixpoint drop_slashes (s : string) : string :=
  match s with
  | String c s' => if decide (c = "/"%char) then drop_slashes s' else s
  | EmptyString => EmptyString
  end.

Definition strip_trailing_slashes (s : string) : string :=
  String.rev (drop_slashes (String.rev s)).

(** [resolveServerUrl()]; [raw] is the configured [VITE_SERVER_URL], the
    empty string when it is absent. *)
Definition resolveServerUrl (raw : string) : string :=
  let v := trim raw in
  if decide (v = "") then "" else strip_trailing_slashes v.

(** [apiUrl(path, base)] *)
Definition apiUrl (path base : string) : string :=
  let p := if String.prefix "/" path then path else "/" +:+ path in
  if decide (base = "") then p else base +:+ p.

(** [s] does not end in a slash. *)
Definition no_slash_end (s : string) : Prop :=
  ∀ c rest, String.rev s = String c rest → c ≠ "/"%char.

(** One connection sends [join] twice before the store has answered the
    first. *)
Definition twice_called : list Async :=
  [ JoinCalled "ann-socket" (Some "Ann"); JoinCalled "ann-socket" (Some "Ann");
    JoinResumed "ann-socket" None true; JoinResumed "ann-socket" None true ].

(** ** What every state of the first server has *)

(** Every connection's variable and every queue entry is an allocated
    player object, and the object of a connection carries its id. *)
Definition linked (s : State) : Prop :=
  map_Forall (wf_conn s) (player s) ∧
  Forall (λ r, r < length (heap s)) (waitingQueue s).

(** The seats of the registered games are allocated player objects. *)
Definition allocated (s : State) : Prop :=
  Forall (λ e, Game.players_X e.2 < length (heap s) ∧
               Game.players_O e.2 < length (heap s)) (games s).

(** The part of [wf_entry] that does not depend on which objects were
    paired. *)
Definition tidy_entry (s : State) (e : string * Game.t) : Prop :=
  Game.id e.2 = e.1 ∧
  Game.finished e.2 = false ∧
  length (Game.board e.2) = 9 ∧
  Game.players_X e.2 < length (heap s) ∧
  Game.players_O e.2 < length (heap s).

Definition tidy (s : State) : Prop :=
  Forall (λ r, r < length (heap s)) (waitingQueue s) ∧
  NoDup (waitingQueue s) ∧
  NoDup (games s).*1 ∧
  Forall (tidy_entry s) (games s) ∧
  map_Forall (wf_conn s) (player s).

(** What the induction over the events carries. *)
Definition kept (s : State) : Prop :=
  sound s ∧ linked s ∧ allocated s ∧ (length (waitingQueue s) ≤ 1)%nat.

Global Instance linked_dec s : Decision (linked s).
Proof. unfold linked. apply _. Defined.
Global Instance allocated_dec s : Decision (allocated s).
Proof. unfold allocated. apply _. Defined.
Global Instance kept_dec s : Decision (kept s).
Proof. unfold kept. apply _. Defined.

(** ** The end of a match and what comes after *)

(** The event [a], handled in state [s], ends the match [gameId]: a move
    that is applied and decides the game, or the disconnect of one of its
    players. *)
Definition ends (s : State) (a : Async) (gameId : string) : Prop :=
  match a with
  | MoveSent sid gid index =>
      gid = gameId ∧
      ∃ game r, accepted s sid gid index game r ∧
        is_Some (checkWinner (Game.board (played game (Player.mark (deref s r)) index)))
  | Disconnected sid =>
      ∃ i k g, list_find (plays_in s sid) (games s) = Some (i, (k, g)) ∧
               Game.id g = gameId
  | JoinCalled _ _ | JoinResumed _ _ _ => False
  end.

(** The event [a], handled in state [s], starts a match under the id
    [gameId]: it is the resumption of a [join] whose push gives the queue
    a second entry, and the connection ids of the first two entries make
    up [gameId]. *)
Definition registers (s : State) (a : Async) (gameId : string) : Prop :=
  match a with
  | JoinResumed sid stats coin =>
      match waitingQueue (Server.enqueue sid stats s) with
      | p1 :: p2 :: _ =>
          new_gameId (Player.id (deref s p1)) (Player.id (deref s p2)) = gameId
      | _ => False
      end
  | _ => False
  end.

(** No event of [tr], handled one after the other from [s] on, starts a
    match under [gameId]. *)
Fixpoint never_registers (s : State) (tr : list Async) (gameId : string) : Prop :=
  match tr with
  | [] => True
  | a :: tr' => ¬ registers s a gameId ∧ never_registers (step_async s a) tr' gameId
  end.

Global Instance registers_dec s a gameId : Decision (registers s a gameId).
Proof.
  destruct a as [| sid stats coin | |]; simpl; try apply _.
  destruct (waitingQueue (Server.enqueue sid stats s)) as [| p1 [| p2 rest]];
    apply _.
Defined.

Global Instance never_registers_dec s tr gameId :
  Decision (never_registers s tr gameId).
Proof. revert s. induction tr as [| a tr IH]; intros s; simpl; apply _. Defined.

(** After Ann has completed the top row in [top_row_async]: Bob still
    moves, and two other connections join and are paired. *)
Definition after_the_end : list Async :=
  [ MoveSent "bob-socket" "g_bob-s_ann-s" 5;
    JoinCalled "cid-socket" (Some "Cid"); JoinCalled "dan-socket" (Some "Dan");
    JoinResumed "dan-socket" None true; JoinResumed "cid-socket" None true ].

(** ** Joins and the queue *)

Definition is_call (a : Async) : Prop :=
  match a with JoinCalled _ _ => True | _ => False end.

Global Instance is_call_dec a : Decision (is_call a).
Proof. destruct a; simpl; apply _. Defined.

(** The connection [sid] calls [join] in [tr]. *)
Definition called (tr : list Async) (sid : string) : Prop :=
  ∃ name, JoinCalled sid name ∈ tr.

(** Ann waits, and her connection has called [join] again: its player
    object is now the second one. *)
Definition ann_called_again : list Async :=
  [ JoinCalled "ann-socket" (Some "Ann"); JoinResumed "ann-socket" None true;
    JoinCalled "ann-socket" (Some "Ann") ].

(** Joins arrive in the order Ann, Bob, Cid, Dan. Bob and Cid send a name
    of blanks, for which the store answers without a query, so that their
    handlers resume at once; the store's answer for Ann arrives later. *)
Definition overtaken : list Async :=
  [ JoinCalled "ann-socket" (Some "Ann");
    JoinCalled "bob-socket" (Some "  "); JoinResumed "bob-socket" None true;
    JoinCalled "cid-socket" (Some "  "); JoinResumed "cid-socket" None true;
    JoinResumed "ann-socket" None true;
    JoinCalled "dan-socket" (Some "Dan"); JoinResumed "dan-socket" None true ].

(** * Properties *)

(** ** Board evaluation *)

Lemma line_mark_Some board l m :
  line_mark board l = Some m ↔ holds board m l.
Proof.
  destruct l as [[a b] c]. unfold line_mark, holds. simpl.
  destruct (board !! a) as [[|m']|] eqn:Ha.
  - split; [done | intros [? _]; done].
  - case_decide as Heq.
    + destruct Heq as [Hab Hbc]. split.
      * intros [= ->]. rewrite <- Hbc, <- Hab. done.
      * intros [[= ->] _]. done.
    + split; [done |]. intros ([= ->] & Hb & Hc).
      destruct Heq. by rewrite Hb, Hc.
  - split; [done | intros [? _]; done].
Qed.

Lemma line_mark_None board l :
  line_mark board l = None ↔ ∀ m, ¬ holds board m l.
Proof.
  split.
  - intros Hn m Hm. apply line_mark_Some in Hm. congruence.
  - intros Hn. destruct (line_mark board l) as [m|] eqn:E; [|done].
    apply line_mark_Some in E. by destruct (Hn m).
Qed.

Lemma first_line_Some board ls m :
  first_line board ls = Some m ↔
  ∃ before l after, ls = before ++ l :: after ∧ holds board m l ∧
    Forall (λ l', ∀ m', ¬ holds board m' l') before.
Proof.
  induction ls as [|l ls IH]; simpl.
  - split; [done |]. intros (before & ? & ? & Heq & _). by destruct before.
  - destruct (line_mark board l) as [m'|] eqn:E.
    + apply line_mark_Some in E. split.
      * intros [= ->]. exists [], l, ls. split_and!; [done | done | constructor].
      * intros ([|l0 before] & l1 & after & Heq & Hh & Hb); simplify_eq/=.
        -- apply line_mark_Some in E, Hh. congruence.
        -- apply Forall_cons in Hb as [Hb _]. by destruct (Hb m').
    + rewrite IH. pose proof (proj1 (line_mark_None board l) E) as Hn. split.
      * intros (before & l1 & after & -> & Hh & Hb).
        exists (l :: before), l1, after. split_and!; [done | done |].
        by apply Forall_cons.
      * intros ([|l0 before] & l1 & after & Heq & Hh & Hb); simplify_eq/=.
        -- by destruct (Hn m).
        -- apply Forall_cons in Hb as [_ Hb]. by exists before, l1, after.
Qed.

Lemma first_line_None board ls :
  first_line board ls = None ↔ Forall (λ l, ∀ m, ¬ holds board m l) ls.
Proof.
  induction ls as [|l ls IH]; simpl.
  - split; [constructor | done].
  - destruct (line_mark board l) as [m'|] eqn:E.
    + apply line_mark_Some in E. split; [done |].
      intros [Hl _]%Forall_cons. by destruct (Hl m').
    + rewrite IH, Forall_cons.
      pose proof (proj1 (line_mark_None board l) E) as Hn.
      split; [by split | by intros [_ ?]].
Qed.

Lemma full_forallb board :
  forallb (λ c, bool_decide (c ≠ Empty)) board = true ↔ full board.
Proof.
  unfold full. rewrite forallb_forall, Forall_forall.
  split; intros H c Hc.
  - apply list_elem_of_In, H in Hc. by apply bool_decide_eq_true in Hc.
  - apply bool_decide_eq_true, H. by apply list_elem_of_In.
Qed.

Lemma no_line_first_line board :
  (∀ m, ¬ completed board m) → first_line board lines = None.
Proof.
  intros Hn. apply first_line_None, Forall_forall. intros l Hl m Hm.
  apply (Hn m). apply Exists_exists. eauto.
Qed.

Lemma checkWinner_first board m :
  checkWinner board = Some (Won m) ↔ first_completed board m.
Proof.
  unfold checkWinner, first_completed. rewrite <- first_line_Some.
  destruct (first_line board lines) as [m'|]; [naive_solver |].
  by destruct (forallb _ board).
Qed.

(** Against C2 as stated, for every board and every mark: where both
    marks complete a line, the loop returns at the first completed line. *)
Lemma checkWinner_both_marks_counterexample :
  let board := [ Marked MX; Marked MX; Marked MX;
                 Marked MO; Marked MO; Marked MO;
                 Empty; Empty; Empty ] in
  length board = 9 ∧ completed board MO ∧
  checkWinner board = Some (Won MX) ∧ checkWinner board ≠ Some (Won MO).
Proof.
  simpl. split; [done |]. split.
  - apply Exists_exists. exists (3, 4, 5). split; [| by repeat split].
    unfold lines. set_solver.
  - by vm_compute.
Qed.

(** C2 (amended). For every board, [checkWinner] returns [Won m] exactly
    when [m] is the mark of the first completed line in the order rows,
    columns, diagonals; hence it returns [Won m] whenever some line holds
    [m] and no line holds the other mark, and some [Won] whenever any line
    is completed. It returns [Draw] when no line is completed and every
    cell is occupied, and nothing (the match goes on) when no line is
    completed and some cell is empty. In particular [X,X,X,_,_,_,_,_,_]
    gives [Won X], a full board without a completed line gives [Draw] and
    a board with an empty cell and no completed line gives nothing. *)
Theorem checkWinner_spec (board : list Cell) :
  (∀ m, checkWinner board = Some (Won m) ↔ first_completed board m) ∧
  (∀ m, completed board m → ¬ completed board (other m) →
        checkWinner board = Some (Won m)) ∧
  (∀ m, completed board m → ∃ m', checkWinner board = Some (Won m')) ∧
  ((∀ m, ¬ completed board m) → full board → checkWinner board = Some Draw) ∧
  ((∀ m, ¬ completed board m) → ¬ full board → checkWinner board = None) ∧
  ((∀ m, ¬ completed board m) → Empty ∈ board → checkWinner board = None) ∧
  checkWinner [ Marked MX; Marked MX; Marked MX;
                Empty; Empty; Empty; Empty; Empty; Empty ] = Some (Won MX).
Proof.
  assert (Hsome : ∀ m, completed board m →
                       ∃ m', first_line board lines = Some m').
  { intros m Hm. destruct (first_line board lines) as [m'|] eqn:E; [eauto |].
    exfalso. rewrite first_line_None, Forall_forall in E.
    apply Exists_exists in Hm as (l & Hl & Hh). by apply (E l Hl m). }
  assert (Hnone : (∀ m, ¬ completed board m) → ¬ full board →
                  checkWinner board = None).
  { intros Hn Hf. unfold checkWinner. rewrite (no_line_first_line _ Hn).
    destruct (forallb _ board) eqn:E; [| done].
    by apply full_forallb in E. }
  split_and!.
  - apply checkWinner_first.
  - intros m Hm Hother. destruct (Hsome m Hm) as [m' E].
    unfold checkWinner. rewrite E.
    destruct (decide (m' = m)) as [-> | Hne]; [done |].
    apply first_line_Some in E as (before & l & after & Heq & Hh & _).
    destruct Hother. replace (other m) with m' by (by destruct m, m').
    apply Exists_exists. exists l. split; [| done].
    rewrite Heq. set_solver.
  - intros m Hm. destruct (Hsome m Hm) as [m' E]. exists m'.
    unfold checkWinner. by rewrite E.
  - intros Hn Hf. unfold checkWinner. rewrite (no_line_first_line _ Hn).
    apply full_forallb in Hf. by rewrite Hf.
  - done.
  - intros Hn He. apply Hnone; [done |]. unfold full.
    rewrite Forall_forall. intros Hf. by apply (Hf Empty).
  - by vm_compute.
Qed.

(** ** The statistics store: blank names *)

Lemma slice0_empty n : slice0 n "" = "".
Proof. by destruct n. Qed.

Lemma normalizeName_blank name : trim name = "" → Db.normalizeName name = "".
Proof. intros H. unfold Db.normalizeName. rewrite H. apply slice0_empty. Qed.

(** C9. For a name whose trimmed form is empty, [addWin], [addLoss],
    [addDraw] and [ensurePlayerStats] execute no statement and leave the
    table as it is, [ensurePlayerStats] returning [null]; so the row under
    the empty key is neither created nor changed. *)
Theorem blank_name_is_dropped (name : string) (t : gmap string Db.Row) :
  trim name = "" →
  Db.addWin name t = (t, []) ∧
  Db.addLoss name t = (t, []) ∧
  Db.addDraw name t = (t, []) ∧
  Db.ensurePlayerStats name t = (t, [], None) ∧
  (Db.addWin name t).1 !! "" = t !! "" ∧
  (Db.addLoss name t).1 !! "" = t !! "" ∧
  (Db.addDraw name t).1 !! "" = t !! "" ∧
  (Db.ensurePlayerStats name t).1.1 !! "" = t !! "".
Proof.
  intros H%normalizeName_blank.
  unfold Db.addWin, Db.addLoss, Db.addDraw, Db.ensurePlayerStats.
  rewrite H. by rewrite !decide_True.
Qed.

Lemma blank_name_is_dropped_witness :
  let name := String "009" "  " in
  let t : gmap string Db.Row := {[ "Ann" := Db.zero ]} in
  trim name = "" ∧
  Db.addWin name t = (t, []) ∧
  Db.ensurePlayerStats name t = (t, [], None).
Proof.
  simpl. split; [reflexivity |].
  destruct (blank_name_is_dropped (String "009" "  ") {[ "Ann" := Db.zero ]})
    as (Hw & _ & _ & He & _); [reflexivity |].
  split; [exact Hw | exact He].
Defined.

(** Whatever the name, no operation writes under the empty key. *)
Lemma empty_key_untouched (name : string) (t : gmap string Db.Row) :
  (Db.addWin name t).1 !! "" = t !! "" ∧
  (Db.addLoss name t).1 !! "" = t !! "" ∧
  (Db.addDraw name t).1 !! "" = t !! "" ∧
  (Db.ensurePlayerStats name t).1.1 !! "" = t !! "".
Proof.
  unfold Db.addWin, Db.addLoss, Db.addDraw, Db.ensurePlayerStats.
  destruct (decide (Db.normalizeName name = "")) as [E | E]; [done |].
  simpl. unfold Db.upsert.
  destruct (t !! Db.normalizeName name); by rewrite !lookup_insert_ne.
Qed.

(** ** The [Map] of games *)

Section game_map.
Implicit Types (m : GameMap) (k : string) (g : Game.t).

Lemma map_get_set_eq k g m : map_get k (map_set k g m) = Some g.
Proof.
  induction m as [|[k' g'] m IH]; simpl.
  - by rewrite decide_True.
  - destruct (decide (k' = k)) as [-> | Hne]; simpl.
    + by rewrite decide_True.
    + by rewrite decide_False.
Qed.

Lemma map_get_set_ne k k' g m :
  k ≠ k' → map_get k' (map_set k g m) = map_get k' m.
Proof.
  intros Hne. induction m as [|[k0 g0] m IH]; simpl.
  - by rewrite decide_False.
  - destruct (decide (k0 = k)) as [-> | Hne0]; simpl.
    + by rewrite !decide_False.
    + by rewrite IH.
Qed.

Lemma map_get_Some k g m : map_get k m = Some g → (k, g) ∈ m.
Proof.
  induction m as [|[k' g'] m IH]; simpl; [done |].
  destruct (decide (k' = k)) as [-> | Hne].
  - intros [= ->]. left.
  - intros H. right. auto.
Qed.

Lemma map_get_None k m : map_get k m = None ↔ k ∉ m.*1.
Proof.
  induction m as [|[k' g'] m IH]; simpl.
  - split; [intros _; apply not_elem_of_nil | done].
  - rewrite not_elem_of_cons. destruct (decide (k' = k)) as [-> | Hne].
    + split; [done | by intros [? _]].
    + rewrite IH. split; [by split | by intros [_ ?]].
Qed.

Lemma map_get_lookup m i k g :
  NoDup m.*1 → m !! i = Some (k, g) → map_get k m = Some g.
Proof.
  revert i. induction m as [|[k' g'] m IH]; intros i Hnd Hi; [done |].
  simpl in *. apply NoDup_cons in Hnd as [Hk' Hnd].
  destruct i as [|i]; simpl in Hi.
  - injection Hi as -> ->. by rewrite decide_True.
  - destruct (decide (k' = k)) as [-> | Hne]; [| by eapply IH].
    destruct Hk'. apply list_elem_of_fmap. exists (k, g).
    split; [done |]. by eapply list_elem_of_lookup_2.
Qed.

Lemma map_set_keys k g m :
  (map_set k g m).*1 = if decide (k ∈ m.*1) then m.*1 else m.*1 ++ [k].
Proof.
  induction m as [|[k' g'] m IH].
  - destruct (decide (k ∈ ([] : GameMap).*1)) as [H | H]; [| done].
    by apply elem_of_nil in H.
  - cbn [map_set]. destruct (decide (k' = k)) as [-> | Hne].
    + rewrite decide_True; [done | left].
    + rewrite fmap_cons, IH. cbn [fst].
      destruct (decide (k ∈ m.*1)) as [Hin | Hin].
      * rewrite decide_True; [done | by right].
      * rewrite decide_False; [done |].
        rewrite fmap_cons, not_elem_of_cons. by split.
Qed.

Lemma map_set_NoDup k g m : NoDup m.*1 → NoDup (map_set k g m).*1.
Proof.
  intros Hnd. rewrite map_set_keys. case_decide; [done |].
  apply NoDup_app. split_and!; [done | | apply NoDup_singleton].
  intros x Hx ->%list_elem_of_singleton. done.
Qed.

Lemma map_set_elem k g m e : e ∈ map_set k g m → e = (k, g) ∨ e ∈ m.
Proof.
  induction m as [|[k' g'] m IH]; simpl.
  - intros ->%list_elem_of_singleton. by left.
  - destruct (decide (k' = k)) as [-> | Hne].
    + intros [-> | ?]%elem_of_cons; [by left | right; by right].
    + intros [-> | ?]%elem_of_cons; [right; by left |].
      destruct IH as [? | ?]; [done | by left | right; by right].
Qed.

Lemma map_delete_sublist k m : sublist (map_delete k m) m.
Proof.
  induction m as [|[k' g'] m IH]; simpl; [done |].
  destruct (decide (k' = k)); [by apply sublist_cons | by apply sublist_skip].
Qed.

Lemma map_delete_elem k m e : e ∈ map_delete k m → e ∈ m.
Proof. intros H. eapply elem_of_sublist; [done | apply map_delete_sublist]. Qed.

Lemma map_delete_NoDup k m : NoDup m.*1 → NoDup (map_delete k m).*1.
Proof.
  intros H. eapply sublist_NoDup; [done |].
  apply fmap_sublist, map_delete_sublist.
Qed.

Lemma map_get_delete_eq k m : NoDup m.*1 → map_get k (map_delete k m) = None.
Proof.
  induction m as [|[k' g'] m IH]; simpl; [done |].
  intros [Hk' Hnd]%NoDup_cons.
  destruct (decide (k' = k)) as [-> | Hne]; simpl.
  - by apply map_get_None.
  - rewrite decide_False by done. auto.
Qed.

Lemma map_get_delete_ne k k' m :
  k ≠ k' → map_get k' (map_delete k m) = map_get k' m.
Proof.
  intros Hne. induction m as [|[k0 g0] m IH]; simpl; [done |].
  destruct (decide (k0 = k)) as [-> | Hne0]; simpl.
  - by rewrite decide_False.
  - by rewrite IH.
Qed.

(** Deleting the key of the entry at position [i] removes that entry. *)
Lemma map_delete_lookup m i k g :
  NoDup m.*1 → m !! i = Some (k, g) → map_delete k m = delete i m.
Proof.
  revert i. induction m as [|[k' g'] m IH]; intros i Hnd Hi; [done |].
  simpl in *. apply NoDup_cons in Hnd as [Hk' Hnd].
  destruct i as [|i]; simpl in Hi.
  - injection Hi as -> ->. by rewrite decide_True.
  - destruct (decide (k' = k)) as [-> | Hne].
    + destruct Hk'. apply list_elem_of_fmap. exists (k, g).
      split; [done |]. by eapply list_elem_of_lookup_2.
    + simpl. f_equal. by eapply IH.
Qed.

Lemma map_delete_absent k m : k ∉ m.*1 → map_delete k m = m.
Proof.
  induction m as [|[k' g'] m IH]; simpl; [done |].
  intros [? ?]%not_elem_of_cons. rewrite decide_False by done.
  f_equal. auto.
Qed.

(** A game mutated in place and then deleted. *)
Lemma map_delete_set k g m : map_delete k (map_set k g m) = map_delete k m.
Proof.
  induction m as [|[k' g'] m IH]; simpl.
  - by rewrite decide_True.
  - destruct (decide (k' = k)) as [-> | Hne]; simpl.
    + by rewrite decide_True.
    + rewrite decide_False by done. by rewrite IH.
Qed.

Lemma map_set_set k g g' m : map_set k g (map_set k g' m) = map_set k g m.
Proof.
  induction m as [|[k0 g0] m IH]; simpl.
  - by rewrite decide_True.
  - destruct (decide (k0 = k)) as [-> | Hne]; simpl.
    + by rewrite decide_True.
    + rewrite decide_False by done. by rewrite IH.
Qed.
End game_map.

(** ** Well-formed states *)

Lemma wf_init : wf init.
Proof.
  unfold wf, init. simpl.
  split_and!; [constructor | constructor | constructor | constructor |].
  apply map_Forall_empty.
Qed.

(** *** Reading the heap after an assignment *)

Lemma deref_mutate (r r' : ref) (f : Player.t → Player.t) (s : State) :
  deref (mutate r f s) r' =
  if decide (r = r' ∧ r < length (heap s)) then f (deref s r') else deref s r'.
Proof.
  unfold deref, mutate. simpl. rewrite list_lookup_alter.
  destruct (decide (r = r')) as [<- | Hne].
  - destruct (heap s !! r) as [p |] eqn:E; simpl.
    + apply lookup_lt_Some in E. rewrite decide_True; [done | by split].
    + apply lookup_ge_None in E. rewrite decide_False; [done | lia].
  - rewrite decide_False; [done | by intros [? _]].
Qed.

Lemma length_heap_mutate r f s : length (heap (mutate r f s)) = length (heap s).
Proof. unfold mutate. simpl. apply length_alter. Qed.

Lemma set_mark_keeps m : keeps_identity (Player.set_mark m).
Proof. by intros p. Qed.
Lemma set_gameId_keeps g : keeps_identity (Player.set_gameId g).
Proof. by intros p. Qed.

Lemma deref_mutate_identity r r' f s :
  keeps_identity f →
  Player.id (deref (mutate r f s) r') = Player.id (deref s r') ∧
  Player.name (deref (mutate r f s) r') = Player.name (deref s r').
Proof.
  intros Hf. rewrite deref_mutate. case_decide; [apply Hf | done].
Qed.

(** *** The state after [startMatch] *)

Section startMatch.
Variables (coin : bool) (p1 p2 : ref) (s : State).

Let gid := new_gameId (Player.id (deref s p1)) (Player.id (deref s p2)).
Let X := if coin then p1 else p2.
Let O := if decide (X = p1) then p2 else p1.
Let s' := startMatch coin p1 p2 s.

Lemma startMatch_seats :
  (X = p1 ∧ O = p2 ∧ coin = true) ∨ (X = p2 ∧ O = p1 ∧ coin = false).
Proof.
  unfold O, X. destruct coin.
  - left. by rewrite decide_True.
  - right. destruct (decide (p2 = p1)) as [-> | ?]; done.
Qed.

Lemma startMatch_games :
  games s' = map_set gid (started_game coin p1 p2 s) (games s).
Proof. reflexivity. Qed.

Lemma startMatch_queue : waitingQueue s' = waitingQueue s.
Proof. reflexivity. Qed.

Lemma startMatch_player : player s' = player s.
Proof. reflexivity. Qed.

Lemma startMatch_persisted : persisted s' = persisted s.
Proof. reflexivity. Qed.

Lemma startMatch_length : length (heap s') = length (heap s).
Proof.
  unfold s', startMatch. cbn. by rewrite !length_alter.
Qed.

Lemma startMatch_heap :
  heap s' = heap (mutate O (Player.set_gameId gid)
             (mutate X (Player.set_gameId gid)
               (mutate O (Player.set_mark MO)
                 (mutate X (Player.set_mark MX) s)))).
Proof. reflexivity. Qed.

Lemma startMatch_deref r :
  deref s' r = deref (mutate O (Player.set_gameId gid)
                 (mutate X (Player.set_gameId gid)
                   (mutate O (Player.set_mark MO)
                     (mutate X (Player.set_mark MX) s)))) r.
Proof. reflexivity. Qed.

Lemma startMatch_identity r :
  Player.id (deref s' r) = Player.id (deref s r) ∧
  Player.name (deref s' r) = Player.name (deref s r).
Proof.
  rewrite startMatch_deref.
  split.
  - rewrite (proj1 (deref_mutate_identity O r _ _ (set_gameId_keeps gid))).
    rewrite (proj1 (deref_mutate_identity X r _ _ (set_gameId_keeps gid))).
    rewrite (proj1 (deref_mutate_identity O r _ _ (set_mark_keeps MO))).
    apply (deref_mutate_identity X r _ _ (set_mark_keeps MX)).
  - rewrite (proj2 (deref_mutate_identity O r _ _ (set_gameId_keeps gid))).
    rewrite (proj2 (deref_mutate_identity X r _ _ (set_gameId_keeps gid))).
    rewrite (proj2 (deref_mutate_identity O r _ _ (set_mark_keeps MO))).
    apply (deref_mutate_identity X r _ _ (set_mark_keeps MX)).
Qed.

Lemma startMatch_deref_other r : r ≠ p1 → r ≠ p2 → deref s' r = deref s r.
Proof.
  intros H1 H2. rewrite startMatch_deref.
  assert (X ≠ r ∧ O ≠ r) as [HX HO].
  { destruct startMatch_seats as [(-> & -> & _) | (-> & -> & _)]; done. }
  rewrite !deref_mutate.
  rewrite !decide_False; [done | by intros [? _] ..].
Qed.

Hypothesis distinct : p1 ≠ p2.
Hypothesis live1 : p1 < length (heap s).
Hypothesis live2 : p2 < length (heap s).

Lemma startMatch_X_O : X ≠ O ∧ X < length (heap s) ∧ O < length (heap s).
Proof. destruct startMatch_seats as [(-> & -> & _) | (-> & -> & _)]; done. Qed.

Lemma startMatch_deref_X :
  deref s' X = Player.set_gameId gid (Player.set_mark MX (deref s X)).
Proof.
  destruct startMatch_X_O as (Hne & HX & HO).
  rewrite startMatch_deref, !deref_mutate, !length_heap_mutate.
  rewrite (decide_False (P := O = X ∧ _)) by (by intros [? _]).
  rewrite (decide_True (P := X = X ∧ _)) by done.
  rewrite (decide_False (P := O = X ∧ _)) by (by intros [? _]).
  by rewrite (decide_True (P := X = X ∧ _)) by done.
Qed.

Lemma startMatch_deref_O :
  deref s' O = Player.set_gameId gid (Player.set_mark MO (deref s O)).
Proof.
  destruct startMatch_X_O as (Hne & HX & HO).
  rewrite startMatch_deref, !deref_mutate, !length_heap_mutate.
  rewrite (decide_True (P := O = O ∧ _)) by done.
  rewrite (decide_False (P := X = O ∧ _)) by (by intros [? _]).
  rewrite (decide_True (P := O = O ∧ _)) by done.
  by rewrite (decide_False (P := X = O ∧ _)) by (by intros [? _]).
Qed.
End startMatch.

(** ** The [move] handler: when a move is applied *)

Lemma place_eq s gameId game mark index :
  place gameId game mark index s =
  (played game mark index, placed s gameId game mark index).
Proof. unfold place, played, placed. by destruct mark. Qed.

Section move_facts.
Variable on_result : Game.t → Result → State → State.

(** [on_result] only talks to the statistics store. *)
Hypothesis on_result_frame : ∀ g res s,
  heap (on_result g res s) = heap s ∧
  player (on_result g res s) = player s ∧
  waitingQueue (on_result g res s) = waitingQueue s ∧
  games (on_result g res s) = games s ∧
  emitted (on_result g res s) = emitted s.

Lemma move_accepted s sid gameId index game r :
  accepted s sid gameId index game r →
  move on_result sid gameId index s =
  conclude on_result gameId (played game (Player.mark (deref s r)) index)
    (placed s gameId game (Player.mark (deref s r)) index).
Proof.
  intros (Hg & Hf & Hp & Hid & Ht & Hi & Hc).
  unfold move. rewrite Hg, Hf, Hp.
  rewrite decide_True by done. rewrite decide_True by done.
  rewrite decide_False by lia. rewrite decide_True by done.
  by rewrite place_eq.
Qed.

Lemma move_not_accepted s sid gameId index :
  ¬ accepts s sid gameId index →
  move on_result sid gameId index s = s ∨
  ∃ m, move on_result sid gameId index s = emit sid (EvError m) s.
Proof.
  intros Hn. unfold move.
  destruct (map_get gameId (games s)) as [game |] eqn:Hg; [| by left].
  destruct (Game.finished game) eqn:Hf; [by left |].
  destruct (player s !! sid) as [r |] eqn:Hp; [| by left].
  case_decide as Hid; [| by left].
  case_decide as Ht; [| right; by eexists].
  case_decide as Hi; [right; by eexists |].
  case_decide as Hc; [| right; by eexists].
  destruct Hn. exists game, r. unfold accepted. split_and!; try done; lia.
Qed.

(** What [conclude] leaves in the registry. *)
Lemma conclude_games gameId game s :
  Game.id game = gameId →
  games (conclude on_result gameId game s) =
  match checkWinner (Game.board game) with
  | Some _ => map_delete gameId (games s)
  | None => games s
  end.
Proof.
  intros Hid. unfold conclude.
  destruct (checkWinner (Game.board game)) as [res |]; [| done].
  cbn [games with_games].
  rewrite (proj1 (proj2 (proj2 (proj2 (on_result_frame _ _ _))))).
  cbn. rewrite Hid. apply map_delete_set.
Qed.

Lemma conclude_frame gameId game s :
  heap (conclude on_result gameId game s) = heap s ∧
  player (conclude on_result gameId game s) = player s ∧
  waitingQueue (conclude on_result gameId game s) = waitingQueue s.
Proof.
  unfold conclude.
  destruct (checkWinner (Game.board game)) as [res |]; [| done].
  cbn [heap player waitingQueue with_games].
  match goal with
  | |- context [on_result ?g ?r ?st] =>
      destruct (on_result_frame g r st) as (-> & -> & -> & _)
  end.
  done.
Qed.

Lemma move_frame s sid gameId index :
  heap (move on_result sid gameId index s) = heap s ∧
  player (move on_result sid gameId index s) = player s ∧
  waitingQueue (move on_result sid gameId index s) = waitingQueue s.
Proof.
  destruct (decide (accepts s sid gameId index)) as [(game & r & Ha) | Hn].
  - rewrite (move_accepted _ _ _ _ _ _ Ha).
    destruct (conclude_frame gameId (played game (Player.mark (deref s r)) index)
                (placed s gameId game (Player.mark (deref s r)) index))
      as (-> & -> & ->).
    done.
  - destruct (move_not_accepted _ _ _ _ Hn) as [-> | [m ->]]; done.
Qed.
End move_facts.

(** ** Every handler keeps the state well formed *)

Lemma deref_heap s s' r : heap s = heap s' → deref s r = deref s' r.
Proof. unfold deref. by intros ->. Qed.

Lemma deref_grow s s' l r :
  heap s' = heap s ++ l → r < length (heap s) → deref s' r = deref s r.
Proof. unfold deref. intros -> Hr. by rewrite lookup_app_l. Qed.

Lemma wf_startMatch coin p1 p2 rest s :
  wf s → waitingQueue s = p1 :: p2 :: rest →
  wf (startMatch coin p1 p2 (with_queue rest s)).
Proof.
  intros (Hq & Hnd & Hk & Hg & Hp) Hqueue.
  rewrite Hqueue in Hq, Hnd.
  apply Forall_cons in Hq as [Hl1 Hq]. apply Forall_cons in Hq as [Hl2 Hq].
  apply NoDup_cons in Hnd as [Hn1 Hnd]. apply NoDup_cons in Hnd as [Hn2 Hnd].
  assert (p1 ≠ p2) as Hne by (intros ->; apply Hn1; left).
  set (s0 := with_queue rest s).
  assert (Hrest : ∀ r, r ∈ rest → r ≠ p1 ∧ r ≠ p2).
  { intros r Hr. split; intros ->; [apply Hn1; by right | by apply Hn2]. }
  unfold wf.
  rewrite startMatch_length, startMatch_queue, startMatch_games, startMatch_player.
  split_and!; [exact Hq | exact Hnd | by apply map_set_NoDup | |].
  - apply Forall_forall. intros e [-> | He]%map_set_elem.
    + unfold wf_entry. cbn [fst snd started_game Game.id Game.finished
        Game.board Game.players_X Game.players_O].
      rewrite startMatch_length, startMatch_queue.
      rewrite (startMatch_deref_X coin p1 p2 s0 Hne Hl1 Hl2).
      rewrite (startMatch_deref_O coin p1 p2 s0 Hne Hl1 Hl2).
      destruct (startMatch_X_O coin p1 p2 s0 Hne Hl1 Hl2) as (HXO & HX & HO).
      split_and!; try done.
      * unfold not. intros Hin. apply Hrest in Hin as [H1 H2].
        by destruct coin.
      * unfold not. intros Hin. apply Hrest in Hin as [H1 H2].
        destruct coin; destruct (decide _); done.
    + rewrite Forall_forall in Hg.
      destruct (Hg e He) as (Hid & Hfin & Hlen & HX & HO & HXO & HmX & HmO & HqX & HqO).
      rewrite Hqueue in HqX, HqO.
      apply not_elem_of_cons in HqX as [HX1 HqX].
      apply not_elem_of_cons in HqX as [HX2 HqX].
      apply not_elem_of_cons in HqO as [HO1 HqO].
      apply not_elem_of_cons in HqO as [HO2 HqO].
      unfold wf_entry. rewrite startMatch_length, startMatch_queue.
      rewrite !(startMatch_deref_other coin p1 p2 s0) by done.
      by split_and!.
  - intros sid r Hr. destruct (Hp sid r Hr) as [Hlt Hid2].
    split; [by rewrite startMatch_length |].
    by rewrite (proj1 (startMatch_identity coin p1 p2 s0 r)).
Qed.

Lemma wf_pair_up coin s : wf s → wf (pair_up coin s).
Proof.
  intros Hwf. unfold pair_up.
  destruct (waitingQueue s) as [| p1 [| p2 rest]] eqn:Hq; [done | done |].
  by apply wf_startMatch.
Qed.

(** A fresh object is allocated, stored in the connection's variable and
    pushed. *)
Lemma wf_push sid name s :
  wf s →
  wf (with_queue (waitingQueue s ++ [length (heap s)]) (new_player sid name s)).
Proof.
  intros (Hq & Hnd & Hk & Hg & Hp).
  set (p := {| Player.id := sid; Player.name := name_or_id name sid;
               Player.mark := MX; Player.gameId := None |}).
  set (s' := with_queue _ _).
  assert (Hheap : heap s' = heap s ++ [p]) by done.
  assert (Hlen : length (heap s') = S (length (heap s))).
  { rewrite Hheap, length_app. simpl. lia. }
  assert (Hfresh : length (heap s) ∉ waitingQueue s).
  { intros Hin. rewrite Forall_forall in Hq. apply Hq in Hin. lia. }
  unfold wf. rewrite Hlen. split_and!.
  - apply Forall_app. split.
    + eapply Forall_impl; [exact Hq |]. simpl. lia.
    + apply Forall_singleton. lia.
  - apply NoDup_app. split_and!; [done | | apply NoDup_singleton].
    intros r Hr ->%list_elem_of_singleton. done.
  - exact Hk.
  - eapply Forall_impl; [exact Hg |]. intros e.
    intros (Hid & Hfin & Hb & HX & HO & HXO & HmX & HmO & HqX & HqO).
    unfold wf_entry. rewrite Hlen.
    rewrite !(deref_grow s s' [p]) by done.
    split_and!; try done; try lia.
    + cbn. rewrite elem_of_app, list_elem_of_singleton. intros [? | ?]; [done | lia].
    + cbn. rewrite elem_of_app, list_elem_of_singleton. intros [? | ?]; [done | lia].
  - cbn [player s' with_queue new_player with_player].
    apply map_Forall_insert_2.
    + split; [lia |]. unfold deref. rewrite Hheap.
      rewrite lookup_app_r by lia. by rewrite Nat.sub_diag.
    + intros sid' r Hr. destruct (Hp sid' r Hr) as [Hlt Hid].
      split; [lia |]. by rewrite (deref_grow s s' [p]).
Qed.

Lemma new_player_lookup sid name s :
  player (new_player sid name s) !! sid = Some (length (heap s)).
Proof. unfold new_player. cbn. apply lookup_insert_eq. Qed.

Lemma wf_new_player sid name s : wf s → wf (new_player sid name s).
Proof.
  intros (Hq & Hnd & Hk & Hg & Hp).
  set (p := {| Player.id := sid; Player.name := name_or_id name sid;
               Player.mark := MX; Player.gameId := None |}).
  set (s' := new_player sid name s).
  assert (Hheap : heap s' = heap s ++ [p]) by done.
  assert (Hlen : length (heap s') = S (length (heap s))).
  { rewrite Hheap, length_app. simpl. lia. }
  unfold wf. rewrite Hlen. split_and!.
  - eapply Forall_impl; [exact Hq |]. simpl. lia.
  - exact Hnd.
  - exact Hk.
  - eapply Forall_impl; [exact Hg |]. intros e.
    intros (Hid & Hfin & Hb & HX & HO & HXO & HmX & HmO & HqX & HqO).
    unfold wf_entry. rewrite Hlen.
    rewrite !(deref_grow s s' [p]) by done.
    split_and!; try done; lia.
  - cbn [player s' new_player with_player].
    apply map_Forall_insert_2.
    + split; [lia |]. unfold deref. rewrite Hheap.
      rewrite lookup_app_r by lia. by rewrite Nat.sub_diag.
    + intros sid' r Hr. destruct (Hp sid' r Hr) as [Hlt Hid].
      split; [lia |]. by rewrite (deref_grow s s' [p]).
Qed.

Lemma Server_enqueue_announce sid name stats s :
  ∃ s', Server.enqueue sid stats (Server.announce sid name s) = s' ∧
    heap s' = heap s ++ [ {| Player.id := sid; Player.name := name_or_id name sid;
                             Player.mark := MX; Player.gameId := None |} ] ∧
    player s' = <[sid := length (heap s)]> (player s) ∧
    waitingQueue s' = waitingQueue s ++ [length (heap s)] ∧
    games s' = games s ∧
    persisted s' = persisted s ++ [EnsurePlayerStats (name_or_id name sid)] ∧
    emitted s' = emitted s ++
      [ (sid, EvProfile (name_or_id name sid) (bool_decide (is_Some stats)) stats);
        (sid, EvWaiting) ].
Proof.
  eexists. split; [reflexivity |].
  unfold Server.enqueue, Server.announce.
  cbn [player persist]. rewrite new_player_lookup. cbn.
  split_and!; try done.
  - unfold deref. cbn. rewrite lookup_app_r by lia.
    rewrite Nat.sub_diag. cbn. by rewrite <- app_assoc.
Qed.

(** Well-formedness only reads the heap, the connections' variables, the
    queue and the registry. *)
Lemma wf_core s s' :
  heap s = heap s' → player s = player s' →
  waitingQueue s = waitingQueue s' → games s = games s' →
  wf s → wf s'.
Proof.
  destruct s, s'. simpl. intros -> -> -> ->. exact id.
Qed.

Lemma wf_entry_core s s' e :
  heap s = heap s' → waitingQueue s = waitingQueue s' →
  wf_entry s e → wf_entry s' e.
Proof.
  unfold wf_entry, deref. by intros -> ->.
Qed.

Lemma wf_Server_join sid name reply coin s :
  wf s → wf (Server.join sid name reply coin s).
Proof.
  intros Hwf. unfold Server.join. destruct reply as [stats |].
  - apply wf_pair_up.
    destruct (Server_enqueue_announce sid name stats s)
      as (s' & -> & Hh & Hp & Hq & Hg & _).
    eapply wf_core; [.. | exact (wf_push sid name s Hwf)]; by symmetry.
  - eapply wf_core; [.. | exact (wf_new_player sid name s Hwf)]; done.
Qed.

Lemma ServerPlain_enqueue sid name s :
  ServerPlain.enqueue sid name s =
  emit sid EvWaiting
    (with_queue (waitingQueue s ++ [length (heap s)]) (new_player sid name s)).
Proof. unfold ServerPlain.enqueue. by rewrite new_player_lookup. Qed.

Lemma wf_ServerPlain_join sid name coin s :
  wf s → wf (ServerPlain.join sid name coin s).
Proof.
  intros Hwf. unfold ServerPlain.join. apply wf_pair_up.
  rewrite ServerPlain_enqueue.
  eapply wf_core; [.. | exact (wf_push sid name s Hwf)]; done.
Qed.

Lemma wf_sub s s' :
  heap s' = heap s → player s' = player s →
  sublist (waitingQueue s') (waitingQueue s) →
  sublist (games s') (games s) →
  wf s → wf s'.
Proof.
  intros Hh Hp Hq Hg (Hql & Hnd & Hk & Hgs & Hpl). unfold wf.
  rewrite Hh, Hp. split_and!.
  - rewrite Forall_forall in *. intros r Hr. apply Hql.
    by eapply elem_of_sublist.
  - by eapply sublist_NoDup.
  - eapply sublist_NoDup; [done |]. by apply fmap_sublist.
  - rewrite Forall_forall in *. intros e He.
    destruct (Hgs e) as (? & ? & ? & ? & ? & ? & ? & ? & HqX & HqO);
      [by eapply elem_of_sublist |].
    unfold wf_entry. rewrite Hh. rewrite !(deref_heap s' s) by done.
    split_and!; try done.
    + intros Hin. apply HqX. by eapply elem_of_sublist.
    + intros Hin. apply HqO. by eapply elem_of_sublist.
  - intros sid r Hr. destruct (Hpl sid r Hr) as [? ?].
    unfold wf_conn. rewrite Hh. split; [done |]. by rewrite (deref_heap s' s).
Qed.

Section wf_move.
Variable on_result : Game.t → Result → State → State.
Hypothesis on_result_frame : ∀ g res s,
  heap (on_result g res s) = heap s ∧
  player (on_result g res s) = player s ∧
  waitingQueue (on_result g res s) = waitingQueue s ∧
  games (on_result g res s) = games s ∧
  emitted (on_result g res s) = emitted s.

(** The registry after a move that was applied. *)
Lemma move_accepted_games s sid gameId index game r :
  wf s → accepted s sid gameId index game r →
  Game.id game = gameId ∧
  games (move on_result sid gameId index s) =
  let game' := played game (Player.mark (deref s r)) index in
  match checkWinner (Game.board game') with
  | Some _ => map_delete gameId (games s)
  | None => map_set gameId game' (games s)
  end.
Proof.
  intros (_ & _ & Hk & Hg & _) Ha.
  assert (Hid : Game.id game = gameId).
  { destruct Ha as (Hget & _). apply map_get_Some in Hget.
    rewrite Forall_forall in Hg. by destruct (Hg _ Hget) as (? & _). }
  split; [done |].
  rewrite (move_accepted on_result _ _ _ _ _ _ Ha).
  rewrite (conclude_games on_result on_result_frame) by done.
  cbn zeta. destruct (checkWinner _); [| done].
  unfold placed. cbn [games emit with_games]. apply map_delete_set.
Qed.

Lemma wf_move sid gameId index s :
  wf s → wf (move on_result sid gameId index s).
Proof.
  intros Hwf.
  destruct (move_frame on_result on_result_frame s sid gameId index)
    as (Hh & Hp & Hq).
  destruct (decide (accepts s sid gameId index)) as [(game & r & Ha) | Hn].
  - destruct (move_accepted_games s sid gameId index game r Hwf Ha)
      as [Hid Hgames].
    cbn zeta in Hgames.
    destruct (checkWinner _) eqn:Hres.
    + eapply wf_sub; [done | done | by rewrite Hq | | done].
      rewrite Hgames. apply map_delete_sublist.
    + destruct Hwf as (Hql & Hnd & Hk & Hgs & Hpl). unfold wf.
      rewrite Hh, Hp, Hq, Hgames. split_and!; [done | done | | |].
      * by apply map_set_NoDup.
      * apply Forall_forall. intros e [-> | He]%map_set_elem.
        -- destruct Ha as (Hget & Hfin & _ & _ & _ & _ & _).
           apply map_get_Some in Hget. rewrite Forall_forall in Hgs.
           destruct (Hgs _ Hget)
             as (? & ? & Hlen & ? & ? & ? & HmX & HmO & ? & ?).
           unfold wf_entry. rewrite Hh, Hq.
           cbn [fst snd played Game.id Game.finished Game.board
                Game.players_X Game.players_O Game.set_turn Game.set_board].
           rewrite length_insert.
           rewrite !(deref_heap (move on_result sid gameId index s) s) by done.
           cbn in HmX, HmO. by split_and!.
        -- rewrite Forall_forall in Hgs.
           eapply wf_entry_core; [| | by apply Hgs]; done.
      * intros sid' r' Hr. destruct (Hpl sid' r' Hr) as [? ?].
        unfold wf_conn. rewrite Hh. split; [done |].
        by rewrite (deref_heap (move on_result sid gameId index s) s).
  - destruct (move_not_accepted on_result _ _ _ _ Hn) as [-> | [m ->]]; done.
Qed.
End wf_move.

Lemma persistResultSafe_frame g res s :
  heap (Server.persistResultSafe g res s) = heap s ∧
  player (Server.persistResultSafe g res s) = player s ∧
  waitingQueue (Server.persistResultSafe g res s) = waitingQueue s ∧
  games (Server.persistResultSafe g res s) = games s ∧
  emitted (Server.persistResultSafe g res s) = emitted s.
Proof. unfold Server.persistResultSafe. by destruct res as [[|]|]. Qed.

Lemma no_persist_frame (g : Game.t) (res : Result) (s : State) :
  heap s = heap s ∧ player s = player s ∧ waitingQueue s = waitingQueue s ∧
  games s = games s ∧ emitted s = emitted s.
Proof. done. Qed.

Lemma wf_Server_move sid gameId index s :
  wf s → wf (Server.move sid gameId index s).
Proof. apply wf_move, persistResultSafe_frame. Qed.

Lemma wf_ServerPlain_move sid gameId index s :
  wf s → wf (ServerPlain.move sid gameId index s).
Proof. apply (wf_move (λ _ _ s, s)), no_persist_frame. Qed.

(** ** The [disconnect] handler *)

Lemma list_find_split {A} (P : A → Prop) `{!∀ x, Decision (P x)}
    (l : list A) (i : nat) (x : A) :
  list_find P l = Some (i, x) →
  ∃ l1 l2, l = l1 ++ x :: l2 ∧ length l1 = i ∧
    Forall (λ y, ¬ P y) l1 ∧ P x ∧ delete i l = l1 ++ l2.
Proof.
  intros (Hi & HP & Hbefore)%list_find_Some.
  exists (take i l), (drop (S i) l).
  pose proof (lookup_lt_Some _ _ _ Hi) as Hlt.
  split_and!.
  - by rewrite take_drop_middle.
  - rewrite length_take. lia.
  - apply Forall_lookup. intros j y Hj.
    apply lookup_take_Some in Hj as [Hj Hji]. by eapply Hbefore.
  - done.
  - apply delete_take_drop.
Qed.

Lemma delete_alter {A} (f : A → A) (i : nat) (l : list A) :
  delete i (alter f i l) = delete i l.
Proof.
  revert i. induction l as [| x l IH]; intros [| i]; simpl; [done .. |].
  f_equal. apply IH.
Qed.

(** At most the first entry of the disconnecting identity leaves the queue. *)
Lemma leave_queue_cases sid s :
  (Forall (λ r, ¬ in_queue s sid r) (waitingQueue s) ∧ leave_queue sid s = s) ∨
  (∃ l1 r l2,
      waitingQueue s = l1 ++ r :: l2 ∧
      Forall (λ r', ¬ in_queue s sid r') l1 ∧ in_queue s sid r ∧
      leave_queue sid s = with_queue (l1 ++ l2) s).
Proof.
  unfold leave_queue.
  destruct (list_find (in_queue s sid) (waitingQueue s)) as [[idx r] |] eqn:E.
  - right. apply list_find_split in E as (l1 & l2 & Hq & _ & Hb & Hr & Hd).
    exists l1, r, l2. by rewrite Hd.
  - left. by apply list_find_None in E.
Qed.

Lemma leave_queue_frame sid s :
  heap (leave_queue sid s) = heap s ∧ player (leave_queue sid s) = player s ∧
  games (leave_queue sid s) = games s ∧
  emitted (leave_queue sid s) = emitted s ∧
  persisted (leave_queue sid s) = persisted s ∧
  sublist (waitingQueue (leave_queue sid s)) (waitingQueue s).
Proof.
  unfold leave_queue.
  destruct (list_find _ _) as [[idx r] |]; [| done].
  split_and!; try done. apply sublist_delete.
Qed.

Lemma wf_leave_queue sid s : wf s → wf (leave_queue sid s).
Proof.
  destruct (leave_queue_frame sid s) as (Hh & Hp & Hg & _ & _ & Hq).
  apply wf_sub; try done. by rewrite Hg.
Qed.

Lemma plays_in_core s s' sid e :
  heap s = heap s' → plays_in s sid e ↔ plays_in s' sid e.
Proof. unfold plays_in, isX, isO, deref. by intros ->. Qed.

(** Setting [finished] on the entry at [i] and deleting its key removes
    exactly that entry. *)
Lemma finish_delete (m : GameMap) (i : nat) (k : string) (g : Game.t) :
  NoDup m.*1 → m !! i = Some (k, g) → Game.id g = k →
  map_delete (Game.id g) (alter (λ e, (e.1, Game.set_finished e.2)) i m) =
  delete i m.
Proof.
  intros Hnd Hi Hid.
  set (f := λ e : string * Game.t, (e.1, Game.set_finished e.2)).
  assert (Hkeys : (alter f i m).*1 = m.*1).
  { clear. revert i. induction m as [| x l IH]; intros [| i];
      simpl; [done .. |]. f_equal. apply IH. }
  rewrite Hid.
  rewrite (map_delete_lookup (alter f i m) i k (Game.set_finished g)).
  - apply delete_alter.
  - by rewrite Hkeys.
  - rewrite list_lookup_alter_eq, Hi. done.
Qed.

Section forfeit.
Variables (sid : string) (s : State) (i : nat) (k : string) (g : Game.t).
Hypothesis Hwf : wf s.
Hypothesis Hi : games s !! i = Some (k, g).

Lemma registered_entry : wf_entry s (k, g).
Proof.
  destruct Hwf as (_ & _ & _ & Hg & _). rewrite Forall_forall in Hg.
  apply Hg. by eapply list_elem_of_lookup_2.
Qed.

Lemma Server_forfeit_games : games (Server.forfeit sid i g s) = delete i (games s).
Proof.
  pose proof registered_entry as (Hid & _).
  destruct Hwf as (_ & _ & Hk & _).
  unfold Server.forfeit. cbn zeta.
  destruct (decide (isX (finish_at i s) sid g)); cbn;
    by apply (finish_delete _ i k g).
Qed.

Lemma ServerPlain_forfeit_games :
  games (ServerPlain.forfeit sid i g s) = delete i (games s).
Proof.
  pose proof registered_entry as (Hid & _).
  destruct Hwf as (_ & _ & Hk & _).
  unfold ServerPlain.forfeit. cbn.
  by apply (finish_delete _ i k g).
Qed.

Lemma Server_forfeit_frame :
  heap (Server.forfeit sid i g s) = heap s ∧
  player (Server.forfeit sid i g s) = player s ∧
  waitingQueue (Server.forfeit sid i g s) = waitingQueue s.
Proof.
  unfold Server.forfeit. cbn zeta.
  by destruct (decide (isX (finish_at i s) sid g)).
Qed.

Lemma ServerPlain_forfeit_frame :
  heap (ServerPlain.forfeit sid i g s) = heap s ∧
  player (ServerPlain.forfeit sid i g s) = player s ∧
  waitingQueue (ServerPlain.forfeit sid i g s) = waitingQueue s.
Proof. done. Qed.
End forfeit.

Lemma wf_Server_disconnect sid s : wf s → wf (Server.disconnect sid s).
Proof.
  intros Hwf%(wf_leave_queue sid). unfold Server.disconnect.
  set (s1 := leave_queue sid s) in *.
  destruct (list_find _ _) as [[i [k g]] |] eqn:E; [| done].
  apply list_find_Some in E as (Hi & _).
  destruct (Server_forfeit_frame sid s1 i g) as (Hh & Hp & Hq).
  apply (wf_sub s1); [done | done | by rewrite Hq | | done].
  rewrite (Server_forfeit_games sid s1 i k g Hwf Hi). apply sublist_delete.
Qed.

Lemma wf_ServerPlain_disconnect sid s : wf s → wf (ServerPlain.disconnect sid s).
Proof.
  intros Hwf%(wf_leave_queue sid). unfold ServerPlain.disconnect.
  set (s1 := leave_queue sid s) in *.
  destruct (list_find _ _) as [[i [k g]] |] eqn:E; [| done].
  apply list_find_Some in E as (Hi & _).
  apply (wf_sub s1); [done | done | done | | done].
  rewrite (ServerPlain_forfeit_games sid s1 i k g Hwf Hi). apply sublist_delete.
Qed.

(** Every state the server reaches is well formed. *)
Lemma wf_step s e : wf s → wf (step s e).
Proof.
  destruct e; simpl.
  - apply wf_Server_join.
  - apply wf_Server_move.
  - apply wf_Server_disconnect.
Qed.

Lemma wf_step_plain s e : wf s → wf (step_plain s e).
Proof.
  destruct e; simpl.
  - apply wf_ServerPlain_join.
  - apply wf_ServerPlain_move.
  - apply wf_ServerPlain_disconnect.
Qed.

Lemma wf_run_plain es : wf (run_plain es).
Proof.
  unfold run_plain. generalize wf_init. generalize init.
  induction es as [| e es IH]; intros s Hwf; [done |].
  simpl. apply IH, wf_step_plain, Hwf.
Qed.

(** * The event handlers *)

(** ** C1: when a move is applied *)

(** Against C1 as stated: after joining again, Ann is still the X player
    of the registered game, it is X's turn and cell 0 is empty, yet her
    move is dropped without any event: the handler looks at the object of
    her latest [join], which carries no game id. *)
Lemma move_after_rejoin_counterexample :
  claimed_legal rejoined "ann-socket" "g_ann-s_bob-s" 0 ∧
  Server.move "ann-socket" "g_ann-s_bob-s" 0 rejoined = rejoined.
Proof.
  split; [| by vm_compute].
  eexists. split; [by vm_compute |].
  split_and!; [done | left; by vm_compute | by vm_compute | lia | lia | done].
Qed.

(** The other direction of C1: in [overwritten] a player of the first
    pair, who holds no seat in the registered game, moves on its board. *)
Lemma move_by_outsider_example :
  (claimed_legal overwritten "abcde-1" "g_abcde_fghij" 0 → False) ∧
  ∃ game,
    map_get "g_abcde_fghij"
      (games (Server.move "abcde-1" "g_abcde_fghij" 0 overwritten)) = Some game ∧
    Game.board game !! 0 = Some (Marked MX) ∧
    Player.id (deref overwritten (Game.players_X game)) = "abcde-2" ∧
    Player.id (deref overwritten (Game.players_O game)) = "fghij-2".
Proof.
  split.
  - intros (game & Hget & _ & Hpart & _).
    vm_compute in Hget. injection Hget as <-.
    destruct Hpart as [H | H]; vm_compute in H; done.
  - eexists. split; [by vm_compute |]. by vm_compute.
Qed.

Lemma played_board game mark index :
  Game.board game !! Z.to_nat index = Some Empty →
  Game.board (played game mark index) !! Z.to_nat index = Some (Marked mark) ∧
  (∀ j, j ≠ Z.to_nat index →
        Game.board (played game mark index) !! j = Game.board game !! j) ∧
  length (Game.board (played game mark index)) = length (Game.board game).
Proof.
  intros Hc. cbn. split_and!.
  - apply list_lookup_insert_eq. by eapply lookup_lt_Some.
  - intros j Hj. by apply list_lookup_insert_ne.
  - apply length_insert.
Qed.

(** C1 (amended). A move is applied exactly when the game is registered
    and not finished, the player object of the sender's latest [join]
    carries this game's id, the turn is that object's mark, the index is in
    [0,8] and the cell is empty. Then the mark is written at the index,
    nothing else on the board changes, [turn] flips, the registry holds the
    new game and both players are sent the new state, before the result is
    evaluated. In every other case the registry (so every board and
    [turn]), the heap, the queue and the store calls are unchanged and at
    most one [error] event goes to the sender. *)
Theorem move_applied_iff_accepted (s : State) (sid gameId : string) (index : Z) :
  (∀ game r, accepted s sid gameId index game r →
     let mark := Player.mark (deref s r) in
     let game' := played game mark index in
     let s1 := placed s gameId game mark index in
     Server.move sid gameId index s =
       conclude Server.persistResultSafe gameId game' s1 ∧
     Game.board game' !! Z.to_nat index = Some (Marked mark) ∧
     (∀ j, j ≠ Z.to_nat index → Game.board game' !! j = Game.board game !! j) ∧
     Game.turn game' = other (Game.turn game) ∧
     map_get gameId (games s1) = Some game' ∧
     emitted s1 = emitted s ++
       [ (Player.id (deref s (Game.players_X game)),
          EvState (Game.id game) (Game.board game') (Game.turn game'));
         (Player.id (deref s (Game.players_O game)),
          EvState (Game.id game) (Game.board game') (Game.turn game')) ] ∧
     (wf s →
      games (Server.move sid gameId index s) =
      match checkWinner (Game.board game') with
      | Some _ => map_delete gameId (games s)
      | None => map_set gameId game' (games s)
      end)) ∧
  (¬ accepts s sid gameId index →
     games (Server.move sid gameId index s) = games s ∧
     heap (Server.move sid gameId index s) = heap s ∧
     player (Server.move sid gameId index s) = player s ∧
     waitingQueue (Server.move sid gameId index s) = waitingQueue s ∧
     persisted (Server.move sid gameId index s) = persisted s ∧
     (emitted (Server.move sid gameId index s) = emitted s ∨
      ∃ m, emitted (Server.move sid gameId index s) =
           emitted s ++ [(sid, EvError m)])) ∧
  (games (Server.move sid gameId index s) ≠ games s → accepts s sid gameId index).
Proof.
  assert (Hrej : ¬ accepts s sid gameId index →
     games (Server.move sid gameId index s) = games s ∧
     heap (Server.move sid gameId index s) = heap s ∧
     player (Server.move sid gameId index s) = player s ∧
     waitingQueue (Server.move sid gameId index s) = waitingQueue s ∧
     persisted (Server.move sid gameId index s) = persisted s ∧
     (emitted (Server.move sid gameId index s) = emitted s ∨
      ∃ m, emitted (Server.move sid gameId index s) =
           emitted s ++ [(sid, EvError m)])).
  { intros Hn. unfold Server.move.
    destruct (move_not_accepted Server.persistResultSafe _ _ _ _ Hn)
      as [-> | [m ->]].
    - split_and!; try done. by left.
    - split_and!; try done. right. by exists m. }
  split_and!; [| exact Hrej |].
  - intros game r Ha mark game' s1.
    pose proof Ha as (Hget & Hfin & Hp & Hgid & Hturn & Hidx & Hcell).
    destruct (played_board game mark index Hcell) as (Hw & Hothers & _).
    split_and!; try done.
    + by apply (move_accepted Server.persistResultSafe).
    + cbn. by rewrite Hturn.
    + unfold s1, placed. cbn. apply map_get_set_eq.
    + unfold s1, placed. cbn. by rewrite <- app_assoc.
    + intros Hwf.
      by destruct (move_accepted_games Server.persistResultSafe
                     persistResultSafe_frame s sid gameId index game r Hwf Ha).
  - intros Hchg. destruct (decide (accepts s sid gameId index)); [done |].
    by destruct Hrej as (? & _).
Qed.

(** The theorem at the first move of a game: Ann and Bob are paired and
    Ann, who plays X, takes the centre. *)
Lemma move_applied_iff_accepted_witness :
  ∃ game,
    map_get "g_ann-s_bob-s" (games paired) = Some game ∧
    accepted paired "ann-socket" "g_ann-s_bob-s" 4 game 0 ∧
    Game.board (played game MX 4) !! 4 = Some (Marked MX) ∧
    Game.turn (played game MX 4) = MO.
Proof.
  eexists. split; [by vm_compute |].
  assert (Ha : accepted paired "ann-socket" "g_ann-s_bob-s" 4
    {| Game.id := "g_ann-s_bob-s"; Game.board := replicate 9 Empty;
       Game.players_X := 0; Game.players_O := 1;
       Game.turn := MX; Game.finished := false |} 0).
  { unfold accepted. split_and!; by vm_compute. }
  split; [exact Ha |].
  destruct (move_applied_iff_accepted paired "ann-socket" "g_ann-s_bob-s" 4)
    as [Happ _].
  destruct (Happ _ _ Ha) as (_ & Hw & _ & Ht & _).
  split; [exact Hw | exact Ht].
Defined.

(** ** C7: match creation *)

(** C7. [startMatch] gives the first-moving mark X to [p1] when the random
    draw is below 0.5 and to [p2] otherwise, one participant for each
    outcome of the draw, and O to the other one; it registers under the
    new id a game whose [turn] is X, whose board is nine empty cells and
    which is not finished, and sets the [gameId] of both players to that
    id. *)
Theorem startMatch_creates (coin : bool) (p1 p2 : ref) (s : State) :
  p1 ≠ p2 → p1 < length (heap s) → p2 < length (heap s) →
  let s' := startMatch coin p1 p2 s in
  let gid := new_gameId (Player.id (deref s p1)) (Player.id (deref s p2)) in
  let first := if coin then p1 else p2 in
  let second := if coin then p2 else p1 in
  map_get gid (games s') =
    Some {| Game.id := gid; Game.board := replicate 9 Empty;
            Game.players_X := first; Game.players_O := second;
            Game.turn := MX; Game.finished := false |} ∧
  length (replicate 9 Empty) = 9 ∧
  Player.mark (deref s' first) = MX ∧
  Player.mark (deref s' second) = MO ∧
  Player.gameId (deref s' p1) = Some gid ∧
  Player.gameId (deref s' p2) = Some gid.
Proof.
  intros Hne H1 H2 s' gid first second.
  pose proof (startMatch_deref_X coin p1 p2 s Hne H1 H2) as HX.
  pose proof (startMatch_deref_O coin p1 p2 s Hne H1 H2) as HO.
  assert (Hsecond : (if decide ((if coin then p1 else p2) = p1) then p2 else p1)
                    = second).
  { unfold second. destruct coin; [by rewrite decide_True |].
    by rewrite decide_False. }
  rewrite Hsecond in HO. fold first in HX. fold s' in HX, HO.
  split_and!.
  - unfold s'. rewrite startMatch_games. unfold started_game.
    rewrite Hsecond. apply map_get_set_eq.
  - done.
  - by rewrite HX.
  - by rewrite HO.
  - unfold first, second in *. destruct coin; [by rewrite HX | by rewrite HO].
  - unfold first, second in *. destruct coin; [by rewrite HO | by rewrite HX].
Qed.

Lemma startMatch_creates_witness :
  let s' := startMatch false 0 1 two_waiting in
  map_get "g_ann-s_bob-s" (games s') =
    Some {| Game.id := "g_ann-s_bob-s"; Game.board := replicate 9 Empty;
            Game.players_X := 1; Game.players_O := 0;
            Game.turn := MX; Game.finished := false |} ∧
  Player.mark (deref s' 1) = MX ∧ Player.mark (deref s' 0) = MO.
Proof.
  cbv zeta.
  destruct (startMatch_creates false 0 1 two_waiting)
    as (Hg & _ & HX & HO & _).
  - vm_compute. discriminate.
  - vm_compute. lia.
  - vm_compute. lia.
  - split; [exact Hg | split; [exact HX | exact HO]].
Defined.

(** The pairing step only ever calls [startMatch] on two distinct
    allocated objects, as the theorem asks. *)
Lemma pair_up_calls_well (s : State) (p1 p2 : ref) (rest : list ref) :
  wf s → waitingQueue s = p1 :: p2 :: rest →
  p1 ≠ p2 ∧ p1 < length (heap s) ∧ p2 < length (heap s).
Proof.
  intros (Hq & Hnd & _) Hqueue. rewrite Hqueue in Hq, Hnd.
  apply Forall_cons in Hq as [H1 Hq]. apply Forall_cons in Hq as [H2 _].
  apply NoDup_cons in Hnd as [Hn _].
  split_and!; [| done | done]. intros ->. apply Hn. left.
Qed.

(** ** C8: the display name *)

(** Against C8 as stated: a name with blanks around it is kept as sent, a
    name of blanks is kept too and does not fall back to the connection
    id, and a name of seventy characters keeps its seventy characters;
    trimming and the bound of 64 belong to the key of the statistics
    store. *)
Lemma join_keeps_name_counterexample :
  let bob := run [ OnJoin "bob-socket" (Some "  Bob  ") (Resolved None) true ] in
  let blank := run [ OnJoin "bob-socket" (Some "   ") (Resolved None) true ] in
  let long := String.concat "" (replicate 70 "x") in
  let seventy := run [ OnJoin "bob-socket" (Some long) (Resolved None) true ] in
  Player.name (deref bob 0) = "  Bob  " ∧
  Db.normalizeName "  Bob  " = "Bob" ∧
  Player.name (deref blank 0) = "   " ∧
  trim "   " = "" ∧
  String.length (Player.name (deref seventy 0)) = 70 ∧
  String.length (Db.normalizeName long) = 64.
Proof. cbv zeta. split_and!; by vm_compute. Qed.

Lemma slice0_length n s : (String.length (slice0 n s) ≤ n)%nat.
Proof.
  revert s. induction n as [| n IH]; intros [| c s]; simpl; try lia.
  specialize (IH s). unfold slice0 in IH. lia.
Qed.

(** C8 (amended). The player object that [join] creates carries the
    connection id and, as its name, the requested name exactly as it was
    sent, neither trimmed nor truncated; the name is the connection id
    when no name or the empty string was sent. That name is what the store
    is asked about; the store files it under its trimmed form cut to 64
    characters. *)
Theorem join_display_name (s : State) (sid : string) (name : option string)
    (reply : StoreReply) (coin : bool) :
  let s' := Server.join sid name reply coin s in
  let r := length (heap s) in
  player s' !! sid = Some r ∧
  Player.id (deref s' r) = sid ∧
  Player.name (deref s' r) = name_or_id name sid ∧
  (∀ n, name = Some n → n ≠ "" → Player.name (deref s' r) = n) ∧
  (name = None ∨ name = Some "" → Player.name (deref s' r) = sid) ∧
  EnsurePlayerStats (name_or_id name sid) ∈ persisted s' ∧
  Db.normalizeName (name_or_id name sid) = slice0 64 (trim (name_or_id name sid)) ∧
  (String.length (Db.normalizeName (name_or_id name sid)) ≤ 64)%nat.
Proof.
  intros s' r.
  assert (Hcore : player s' !! sid = Some r ∧
                  Player.id (deref s' r) = sid ∧
                  Player.name (deref s' r) = name_or_id name sid ∧
                  EnsurePlayerStats (name_or_id name sid) ∈ persisted s').
  { unfold s', Server.join. destruct reply as [stats |].
    - destruct (Server_enqueue_announce sid name stats s)
        as (s1 & -> & Hh & Hp & Hq & Hg & Hper & _).
      assert (Hd : deref s1 r =
        {| Player.id := sid; Player.name := name_or_id name sid;
           Player.mark := MX; Player.gameId := None |}).
      { unfold deref. rewrite Hh, lookup_app_r by (unfold r; lia).
        unfold r. by rewrite Nat.sub_diag. }
      unfold pair_up.
      destruct (waitingQueue s1) as [| p1 [| p2 rest]].
      + rewrite Hp, Hd, Hper. split_and!; try done.
        * apply lookup_insert_eq.
        * set_solver.
      + rewrite Hp, Hd, Hper. split_and!; try done.
        * apply lookup_insert_eq.
        * set_solver.
      + rewrite startMatch_player, startMatch_persisted.
        destruct (startMatch_identity coin p1 p2 (with_queue rest s1) r)
          as [-> ->].
        change (deref (with_queue rest s1) r) with (deref s1 r).
        cbn [player persisted with_queue]. rewrite Hp, Hd, Hper.
        split_and!; try done.
        * apply lookup_insert_eq.
        * set_solver.
    - unfold Server.announce. cbn. split_and!.
      + apply lookup_insert_eq.
      + unfold deref. cbn. rewrite lookup_app_r by (unfold r; lia).
        unfold r. by rewrite Nat.sub_diag.
      + unfold deref. cbn. rewrite lookup_app_r by (unfold r; lia).
        unfold r. by rewrite Nat.sub_diag.
      + set_solver. }
  destruct Hcore as (Hp & Hid & Hname & Hens).
  split_and!; try done.
  - intros n -> Hn. rewrite Hname. unfold name_or_id. by rewrite decide_False.
  - intros [-> | ->]; by rewrite Hname.
  - apply slice0_length.
Qed.

(** ** C3 and C10: disconnection *)

Lemma map_get_delete_lookup (m : GameMap) (i : nat) (k : string) (g : Game.t) :
  NoDup m.*1 → m !! i = Some (k, g) → map_get k (delete i m) = None.
Proof.
  intros Hnd Hi. rewrite <- (map_delete_lookup m i k g) by done.
  by apply map_get_delete_eq.
Qed.

(** The game the loop of [disconnect] stops at, read in the state before
    the event: leaving the queue changes neither the registry nor the
    heap. *)
Lemma Server_disconnect_found s sid i k g :
  list_find (plays_in s sid) (games s) = Some (i, (k, g)) →
  Server.disconnect sid s = Server.forfeit sid i g (leave_queue sid s).
Proof.
  intros Hfind. unfold Server.disconnect, leave_queue.
  destruct (list_find (in_queue s sid) (waitingQueue s)) as [[idx r] |].
  - change (list_find (plays_in (with_queue (delete idx (waitingQueue s)) s) sid)
              (games (with_queue (delete idx (waitingQueue s)) s)))
      with (list_find (plays_in s sid) (games s)).
    by rewrite Hfind.
  - by rewrite Hfind.
Qed.

Lemma Server_disconnect_not_found s sid :
  list_find (plays_in s sid) (games s) = None →
  Server.disconnect sid s = leave_queue sid s.
Proof.
  intros Hfind. unfold Server.disconnect, leave_queue.
  destruct (list_find (in_queue s sid) (waitingQueue s)) as [[idx r] |].
  - change (list_find (plays_in (with_queue (delete idx (waitingQueue s)) s) sid)
              (games (with_queue (delete idx (waitingQueue s)) s)))
      with (list_find (plays_in s sid) (games s)).
    by rewrite Hfind.
  - by rewrite Hfind.
Qed.

Lemma ServerPlain_disconnect_found s sid i k g :
  list_find (plays_in s sid) (games s) = Some (i, (k, g)) →
  ServerPlain.disconnect sid s = ServerPlain.forfeit sid i g (leave_queue sid s).
Proof.
  intros Hfind. unfold ServerPlain.disconnect, leave_queue.
  destruct (list_find (in_queue s sid) (waitingQueue s)) as [[idx r] |].
  - change (list_find (plays_in (with_queue (delete idx (waitingQueue s)) s) sid)
              (games (with_queue (delete idx (waitingQueue s)) s)))
      with (list_find (plays_in s sid) (games s)).
    by rewrite Hfind.
  - by rewrite Hfind.
Qed.

(** What a forfeit emits and asks of the store, by the seat of the
    identity that left. *)
Lemma Server_forfeit_out sid i g s :
  (isX s sid g →
   emitted (Server.forfeit sid i g s) =
     emitted s ++ [(Player.id (deref s (Game.players_O g)),
                    EvGameOver (Game.id g) (Won MO))] ∧
   persisted (Server.forfeit sid i g s) =
     persisted s ++ [AddWin (Player.name (deref s (Game.players_O g)));
                     AddLoss (Player.name (deref s (Game.players_X g)))]) ∧
  (¬ isX s sid g →
   emitted (Server.forfeit sid i g s) =
     emitted s ++ [(Player.id (deref s (Game.players_X g)),
                    EvGameOver (Game.id g) (Won MX))] ∧
   persisted (Server.forfeit sid i g s) =
     persisted s ++ [AddWin (Player.name (deref s (Game.players_X g)));
                     AddLoss (Player.name (deref s (Game.players_O g)))]).
Proof.
  unfold Server.forfeit. cbn zeta.
  change (isX (finish_at i s) sid g) with (isX s sid g).
  split; intros H.
  - repeat case_decide; try done; try (by exfalso; auto).
    cbn. by rewrite <- app_assoc.
  - repeat case_decide; try done; try (by exfalso; auto).
    cbn. by rewrite <- app_assoc.
Qed.

Lemma ServerPlain_forfeit_out sid i g s :
  (isX s sid g →
   emitted (ServerPlain.forfeit sid i g s) =
     emitted s ++ [(Player.id (deref s (Game.players_O g)),
                    EvGameOver (Game.id g) Draw)] ∧
   persisted (ServerPlain.forfeit sid i g s) = persisted s) ∧
  (¬ isX s sid g →
   emitted (ServerPlain.forfeit sid i g s) =
     emitted s ++ [(Player.id (deref s (Game.players_X g)),
                    EvGameOver (Game.id g) Draw)] ∧
   persisted (ServerPlain.forfeit sid i g s) = persisted s).
Proof.
  unfold ServerPlain.forfeit. cbn zeta.
  change (isX (finish_at i s) sid g) with (isX s sid g).
  split; intros H.
  - repeat case_decide; try done; by exfalso; auto.
  - repeat case_decide; try done; by exfalso; auto.
Qed.

(** Against C3 as stated: Ann disconnects, and the second server file
    tells Bob, who plays O, that the game is a draw; nothing reaches the
    statistics store. *)
Lemma disconnect_plain_counterexample :
  let s' := ServerPlain.disconnect "ann-socket" paired_plain in
  Player.mark (deref paired_plain 1) = MO ∧
  Player.id (deref paired_plain 1) = "bob-socket" ∧
  emitted s' = emitted paired_plain ++
               [("bob-socket", EvGameOver "g_ann-s_bob-s" Draw)] ∧
  persisted s' = [] ∧
  games s' = [].
Proof. cbv zeta. split_and!; by vm_compute. Qed.

(** Only the first game of the identity is forfeited: when Ann, who
    holds a seat in two games, disconnects, Bob is told and the second
    game stays registered, Cid hearing nothing. *)
Lemma disconnect_second_game_example :
  let s' := Server.disconnect "ann-socket" in_two_games in
  (games in_two_games).*1 = ["g_ann-s_bob-s"; "g_ann-s_cid-s"] ∧
  (games s').*1 = ["g_ann-s_cid-s"] ∧
  emitted s' = emitted in_two_games ++
               [("bob-socket", EvGameOver "g_ann-s_bob-s" (Won MO))].
Proof. cbv zeta. split_and!; by vm_compute. Qed.

(** C3 (amended). A disconnect forfeits the first registered game, in
    registration order, in which the identity holds a seat. When the other
    seat [m] belongs to another identity, the server with persistence
    emits exactly one event, a [gameOver] for that game whose result is
    [m], the mark of the player who stays, addressed to that player only;
    it removes the game from the registry and asks the store for a win
    under the name of the player who stays and a loss under the name of
    the one who left. The server file without persistence emits exactly
    one [gameOver] to the player who stays as well, but its result is a
    draw, and it has no store to notify. *)
Theorem disconnect_forfeits (s : State) (sid : string) (i : nat) (k : string)
    (g : Game.t) (m : Mark) :
  wf s →
  list_find (plays_in s sid) (games s) = Some (i, (k, g)) →
  Player.id (deref s (Game.players g (other m))) = sid →
  Player.id (deref s (Game.players g m)) ≠ sid →
  let stay := deref s (Game.players g m) in
  let gone := deref s (Game.players g (other m)) in
  (emitted (Server.disconnect sid s) =
     emitted s ++ [(Player.id stay, EvGameOver (Game.id g) (Won m))] ∧
   Player.mark stay = m ∧
   map_get (Game.id g) (games (Server.disconnect sid s)) = None ∧
   persisted (Server.disconnect sid s) =
     persisted s ++ [AddWin (Player.name stay); AddLoss (Player.name gone)]) ∧
  (emitted (ServerPlain.disconnect sid s) =
     emitted s ++ [(Player.id stay, EvGameOver (Game.id g) Draw)] ∧
   map_get (Game.id g) (games (ServerPlain.disconnect sid s)) = None ∧
   persisted (ServerPlain.disconnect sid s) = persisted s).
Proof.
  intros Hwf Hfind Hgone Hstay stay gone.
  pose proof (wf_leave_queue sid s Hwf) as Hwf1.
  destruct (leave_queue_frame sid s) as (Hh & _ & Hg & He & Hp & _).
  pose proof Hfind as (Hi & _)%list_find_Some.
  assert (Hi1 : games (leave_queue sid s) !! i = Some (k, g)) by (by rewrite Hg).
  pose proof (registered_entry s i k g Hwf Hi)
    as (Hid & _ & _ & _ & _ & _ & HmX & HmO & _).
  cbn [fst snd] in Hid, HmX, HmO.
  assert (Hgone' : ∀ r, deref (leave_queue sid s) r = deref s r).
  { intros r. by apply deref_heap. }
  assert (Habsent : map_get (Game.id g) (delete i (games s)) = None).
  { rewrite Hid. destruct Hwf as (_ & _ & Hk & _).
    by apply (map_get_delete_lookup _ _ _ g). }
  rewrite (Server_disconnect_found s sid i k g Hfind).
  rewrite (ServerPlain_disconnect_found s sid i k g Hfind).
  rewrite (Server_forfeit_games sid _ i k g Hwf1 Hi1).
  rewrite (ServerPlain_forfeit_games sid _ i k g Hwf1 Hi1).
  rewrite Hg.
  destruct (Server_forfeit_out sid i g (leave_queue sid s)) as [HoutX HoutO].
  destruct (ServerPlain_forfeit_out sid i g (leave_queue sid s))
    as [HplainX HplainO].
  unfold isX in HoutX, HoutO, HplainX, HplainO.
  rewrite !Hgone', He, Hp in HoutX, HoutO.
  rewrite !Hgone', He, Hp in HplainX, HplainO.
  destruct m; cbn [other Game.players] in *.
  - destruct (HoutO Hstay) as [-> ->]. destruct (HplainO Hstay) as [-> ->].
    rewrite ?Hgone'. by split_and!.
  - destruct (HoutX Hgone) as [-> ->]. destruct (HplainX Hgone) as [-> ->].
    rewrite ?Hgone'. by split_and!.
Qed.

(** Ann, who plays X, disconnects from the server with persistence. *)
Lemma disconnect_forfeits_witness :
  let s' := Server.disconnect "ann-socket" paired in
  emitted s' = emitted paired ++ [("bob-socket", EvGameOver "g_ann-s_bob-s" (Won MO))] ∧
  games s' = [] ∧
  persisted s' = persisted paired ++ [AddWin "Bob"; AddLoss "Ann"].
Proof.
  cbv zeta.
  destruct (disconnect_forfeits paired "ann-socket" 0 "g_ann-s_bob-s"
              {| Game.id := "g_ann-s_bob-s"; Game.board := replicate 9 Empty;
                 Game.players_X := 0; Game.players_O := 1;
                 Game.turn := MX; Game.finished := false |} MO)
    as [(He & _ & _ & Hp) _].
  - apply (bool_decide_unpack _). by vm_compute.
  - by vm_compute.
  - by vm_compute.
  - by vm_compute.
  - split; [exact He | split; [by vm_compute | exact Hp]].
Defined.

(** C10. One disconnect takes out of the queue at most one entry, the
    first one of the disconnecting identity, and out of the registry at
    most one game, the first one in which the identity holds a seat: the
    entries before and after it, further entries of the same identity
    among them, and all the other games stay as they were, in their order;
    no player object and no connection variable changes. *)
Theorem disconnect_frame (s : State) (sid : string) :
  wf s →
  let s' := Server.disconnect sid s in
  heap s' = heap s ∧ player s' = player s ∧
  ((Forall (λ r, ¬ in_queue s sid r) (waitingQueue s) ∧
    waitingQueue s' = waitingQueue s) ∨
   (∃ l1 r l2,
      waitingQueue s = l1 ++ r :: l2 ∧
      Forall (λ r', ¬ in_queue s sid r') l1 ∧ in_queue s sid r ∧
      waitingQueue s' = l1 ++ l2)) ∧
  ((Forall (λ e, ¬ plays_in s sid e) (games s) ∧ games s' = games s) ∨
   (∃ g1 e g2,
      games s = g1 ++ e :: g2 ∧
      Forall (λ e', ¬ plays_in s sid e') g1 ∧ plays_in s sid e ∧
      games s' = g1 ++ g2)).
Proof.
  intros Hwf s'.
  pose proof (wf_leave_queue sid s Hwf) as Hwf1.
  destruct (leave_queue_frame sid s) as (Hh & Hp & Hg & _).
  assert (Hqueue :
    (Forall (λ r, ¬ in_queue s sid r) (waitingQueue s) ∧
     waitingQueue (leave_queue sid s) = waitingQueue s) ∨
    (∃ l1 r l2,
       waitingQueue s = l1 ++ r :: l2 ∧
       Forall (λ r', ¬ in_queue s sid r') l1 ∧ in_queue s sid r ∧
       waitingQueue (leave_queue sid s) = l1 ++ l2)).
  { destruct (leave_queue_cases sid s) as [[Hno ->] | (l1 & r & l2 & ? & ? & ? & ->)].
    - by left.
    - right. by exists l1, r, l2. }
  unfold s'.
  destruct (list_find (plays_in s sid) (games s)) as [[i [k g]] |] eqn:Hfind.
  - rewrite (Server_disconnect_found s sid i k g Hfind).
    pose proof Hfind as (Hi & _)%list_find_Some.
    assert (Hi1 : games (leave_queue sid s) !! i = Some (k, g)) by (by rewrite Hg).
    destruct (Server_forfeit_frame sid (leave_queue sid s) i g) as (-> & -> & ->).
    rewrite (Server_forfeit_games sid _ i k g Hwf1 Hi1), Hg.
    split_and!; [done | done | done |].
    right. apply list_find_split in Hfind as (g1 & g2 & Hgs & _ & Hb & He & Hd).
    exists g1, (k, g), g2. by rewrite Hd.
  - rewrite (Server_disconnect_not_found s sid Hfind).
    split_and!; [done | done | done |].
    left. split; [| done]. by apply list_find_None in Hfind.
Qed.

(** Ann is the X player of a game and, after joining again, also waits in
    the queue: her disconnect empties both. *)
Lemma disconnect_frame_witness :
  waitingQueue rejoined = [2] ∧
  waitingQueue (Server.disconnect "ann-socket" rejoined) = [] ∧
  games (Server.disconnect "ann-socket" rejoined) = [] ∧
  heap (Server.disconnect "ann-socket" rejoined) = heap rejoined.
Proof.
  destruct (disconnect_frame rejoined "ann-socket") as (Hh & _ & _ & _).
  - apply (bool_decide_unpack _). by vm_compute.
  - split_and!; [by vm_compute | by vm_compute | by vm_compute | exact Hh].
Defined.

(** ** The boards that [move] evaluates *)

Lemma checkWinner_None_no_line board :
  checkWinner board = None → ∀ m, ¬ completed board m.
Proof.
  unfold checkWinner. intros Hn m Hm.
  destruct (first_line board lines) as [m' |] eqn:E; [done |].
  rewrite first_line_None, Forall_forall in E.
  apply Exists_exists in Hm as (l & Hl & Hh). by apply (E l Hl m).
Qed.

(** A mark written on an empty cell of a board without a completed line
    can only complete lines of that mark. *)
Lemma one_more_mark board i mark m :
  (∀ m', ¬ completed board m') → board !! i = Some Empty →
  completed (<[i := Marked mark]> board) m → m = mark.
Proof.
  intros Hnone Hi Hm. destruct (decide (m = mark)) as [| Hne]; [done |].
  exfalso. apply (Hnone m).
  apply Exists_exists in Hm as (l & Hl & Ha & Hb & Hc).
  apply Exists_exists. exists l. split; [done |].
  pose proof (lookup_lt_Some _ _ _ Hi) as Hlt.
  assert (Hold : ∀ j, <[i := Marked mark]> board !! j = Some (Marked m) →
                      board !! j = Some (Marked m)).
  { intros j Hj. destruct (decide (i = j)) as [<- | Hij].
    - rewrite list_lookup_insert_eq in Hj by done. congruence.
    - by rewrite list_lookup_insert_ne in Hj. }
  split_and!; by apply Hold.
Qed.

Lemma completed_wins board m :
  completed board m → (∀ m', completed board m' → m' = m) →
  checkWinner board = Some (Won m).
Proof.
  intros Hm Honly. unfold checkWinner.
  destruct (first_line board lines) as [m' |] eqn:E.
  - apply first_line_Some in E as (before & l & after & Heq & Hh & _).
    rewrite (Honly m'); [done |].
    apply Exists_exists. exists l. split; [| done]. rewrite Heq. set_solver.
  - exfalso. rewrite first_line_None, Forall_forall in E.
    apply Exists_exists in Hm as (l & Hl & Hh). by apply (E l Hl m).
Qed.

(** * The rest of the code *)

(** ** Strings: [trim] and [slice] *)

Lemma append_cons (a : ascii) (s1 s2 : string) :
  String a s1 +:+ s2 = String a (s1 +:+ s2).
Proof. reflexivity. Qed.

Lemma append_nil_r (s : string) : s +:+ "" = s.
Proof. induction s as [| a s IH]; [done |]. by rewrite append_cons, IH. Qed.

Lemma append_assoc (s1 s2 s3 : string) :
  (s1 +:+ s2) +:+ s3 = s1 +:+ (s2 +:+ s3).
Proof. induction s1 as [| a s1 IH]; [done |]. by rewrite !append_cons, IH. Qed.

Lemma rev_app_eq (s1 s2 : string) :
  String.rev_app s1 s2 = String.rev s1 +:+ s2.
Proof.
  revert s2. induction s1 as [| a s1 IH]; intros s2; [done |].
  unfold String.rev. simpl. rewrite (IH (String a s2)), (IH (String a "")).
  by rewrite append_assoc.
Qed.

Lemma rev_cons (a : ascii) (s : string) :
  String.rev (String a s) = String.rev s +:+ String a "".
Proof. unfold String.rev at 1. simpl. apply rev_app_eq. Qed.

Lemma rev_append (s1 s2 : string) :
  String.rev (s1 +:+ s2) = String.rev s2 +:+ String.rev s1.
Proof.
  induction s1 as [| a s1 IH]; [by rewrite append_nil_r |].
  by rewrite append_cons, !rev_cons, IH, append_assoc.
Qed.

Lemma rev_involutive (s : string) : String.rev (String.rev s) = s.
Proof.
  induction s as [| a s IH]; [done |].
  by rewrite rev_cons, rev_append, IH.
Qed.

Lemma trimStart_head s : no_blank_head (trimStart s).
Proof.
  induction s as [| a s IH]; [done |]. simpl.
  destruct (is_white_space a) eqn:E; [done |]. by intros c rest [= <- _].
Qed.

Lemma trimStart_id s : no_blank_head s → trimStart s = s.
Proof.
  destruct s as [| a s]; [done |]. intros H. simpl.
  by rewrite (H a s eq_refl).
Qed.

Lemma trimStart_last s c :
  is_white_space c = false →
  trimStart (s +:+ String c "") = trimStart s +:+ String c "".
Proof.
  intros Hc. induction s as [| a s IH]; simpl.
  - by rewrite Hc.
  - by destruct (is_white_space a).
Qed.

Lemma trimEnd_head c rest :
  is_white_space c = false →
  ∃ rest', trimEnd (String c rest) = String c rest'.
Proof.
  intros Hc. unfold trimEnd. rewrite rev_cons, trimStart_last by done.
  rewrite rev_append. by eexists.
Qed.

Lemma trim_head s : no_blank_head (trim s).
Proof.
  unfold trim. pose proof (trimStart_head s) as H.
  destruct (trimStart s) as [| c0 r0]; [done |].
  destruct (trimEnd_head c0 r0 (H c0 r0 eq_refl)) as [rest' ->].
  intros c rest [= <- _]. by apply (H c0 r0).
Qed.

Lemma trim_last s : no_blank_head (String.rev (trim s)).
Proof.
  unfold trim, trimEnd. rewrite rev_involutive. apply trimStart_head.
Qed.

Lemma trim_clean s :
  no_blank_head s → no_blank_head (String.rev s) → trim s = s.
Proof.
  intros H1 H2. unfold trim, trimEnd.
  by rewrite (trimStart_id s), (trimStart_id (String.rev s)), rev_involutive.
Qed.

Lemma trim_idempotent s : trim (trim s) = trim s.
Proof. apply trim_clean; [apply trim_head | apply trim_last]. Qed.

Lemma slice0_short n s : (String.length s ≤ n)%nat → slice0 n s = s.
Proof.
  revert s. induction n as [| n IH]; intros [| c s] Hlen; simpl in *;
    try done; try lia.
  change (String c (slice0 n s) = String c s). f_equal. apply IH. lia.
Qed.

Lemma slice0_cons n c s : slice0 (S n) (String c s) = String c (slice0 n s).
Proof. reflexivity. Qed.

(** X4. [normalizeName] returns at most 64 characters and never starts
    with white space; its result is empty exactly for the names whose
    trimmed form is empty; and when the trimmed name has at most 64
    characters it is that trimmed name, which a second normalisation
    leaves as it is. *)
Theorem normalizeName_fits (name : string) :
  (String.length (Db.normalizeName name) ≤ 64)%nat ∧
  no_blank_head (Db.normalizeName name) ∧
  (Db.normalizeName name = "" ↔ trim name = "") ∧
  ((String.length (trim name) ≤ 64)%nat →
   Db.normalizeName name = trim name ∧
   Db.normalizeName (Db.normalizeName name) = Db.normalizeName name).
Proof.
  unfold Db.normalizeName. split_and!.
  - apply slice0_length.
  - pose proof (trim_head name) as H.
    destruct (trim name) as [| c0 r0]; [done |].
    rewrite slice0_cons. intros c rest [= <- _]. by apply (H c0 r0).
  - split; [| by intros ->].
    by destruct (trim name).
  - intros Hlen. rewrite (slice0_short 64 (trim name)) by done.
    split; [done |]. rewrite trim_idempotent. by apply slice0_short.
Qed.

(** ** The store *)

Lemma normalizeName_stable name :
  (String.length (trim name) ≤ 64)%nat →
  Db.normalizeName (Db.normalizeName name) = Db.normalizeName name.
Proof.
  intros Hlen. unfold Db.normalizeName.
  rewrite (slice0_short 64 (trim name)) by done.
  rewrite trim_idempotent. by apply slice0_short.
Qed.

Lemma getPlayerStats_lookup name t :
  Db.normalizeName name ≠ "" →
  Db.getPlayerStats name t =
  Db.stats_of (Db.normalizeName name) <$> t !! Db.normalizeName name.
Proof. intros H. unfold Db.getPlayerStats. cbv zeta. by rewrite decide_False. Qed.

Lemma lookup_upsert fresh bump n k (t : gmap string Db.Row) :
  Db.upsert fresh bump n t !! k =
  if decide (k = n) then Some (from_option bump fresh (t !! n)) else t !! k.
Proof.
  unfold Db.upsert. destruct (decide (k = n)) as [-> | Hne].
  - destruct (t !! n); by rewrite lookup_insert_eq.
  - destruct (t !! n); by rewrite lookup_insert_ne.
Qed.

Lemma upsert_comm f1 b1 f2 b2 n1 n2 (t : gmap string Db.Row) :
  (∀ r, b1 (b2 r) = b2 (b1 r)) → b1 f2 = b2 f1 →
  Db.upsert f1 b1 n1 (Db.upsert f2 b2 n2 t) =
  Db.upsert f2 b2 n2 (Db.upsert f1 b1 n1 t).
Proof.
  intros Hb Hf. apply map_eq. intros k. rewrite !lookup_upsert.
  repeat case_decide; simplify_eq; try done.
  match goal with |- context [t !! ?n] => destruct (t !! n) end;
    simpl; by rewrite ?Hb, ?Hf.
Qed.

Lemma execute_comm q1 q2 t :
  Db.execute q1 (Db.execute q2 t) = Db.execute q2 (Db.execute q1 t).
Proof.
  destruct q1, q2; simpl; apply upsert_comm; try reflexivity; by intros [].
Qed.

Lemma run_call_table c :
  (∀ t, (run_call c t).1 = t) ∨ (∃ q, ∀ t, (run_call c t).1 = Db.execute q t).
Proof.
  destruct c as [name | name | name | name]; simpl;
    unfold Db.ensurePlayerStats, Db.addWin, Db.addLoss, Db.addDraw; cbv zeta;
    (destruct (decide (Db.normalizeName name = "")); [by left | right]);
    by eexists.
Qed.

Lemma in_range_lookup t n r :
  Db.in_range t → t !! n = Some r →
  (3 * Db.wins r + Db.draws r + 6 < 2 ^ 32)%N ∧
  (Db.wins r + Db.losses r + Db.draws r + 2 < 2 ^ 32)%N.
Proof. intros Ht Hn. exact (Ht n r Hn). Qed.

(** X5. The store counts a result under the name it was given: when a
    read of [name] reports the counters [w], [l], [d] (all zero when it
    reports no row), then after [addWin name] the same read reports a row
    with [w + 1] wins, after [addLoss name] one with [l + 1] losses and
    after [addDraw name] one with [d + 1] draws, the other counters as
    before, [games] their sum and [score] three points a win and one a
    draw.  The name must not normalise to the empty string, and the rows
    must have room in their [INT UNSIGNED] columns. *)
Theorem results_are_counted (name : string) (t : gmap string Db.Row) (w l d : N) :
  Db.normalizeName name ≠ "" →
  Db.in_range t →
  Db.counters (Db.getPlayerStats name t) = (w, l, d) →
  reads (Db.getPlayerStats name (Db.addWin name t).1) (w + 1) l d ∧
  reads (Db.getPlayerStats name (Db.addLoss name t).1) w (l + 1) d ∧
  reads (Db.getPlayerStats name (Db.addDraw name t).1) w l (d + 1).
Proof.
  intros Hn Ht Hc.
  unfold Db.addWin, Db.addLoss, Db.addDraw. cbv zeta.
  rewrite !decide_False by done. cbn [fst Db.execute].
  rewrite !getPlayerStats_lookup, !lookup_upsert, !decide_True by done.
  rewrite getPlayerStats_lookup in Hc by done.
  destruct (t !! Db.normalizeName name) as [r |] eqn:Hr; simpl in Hc.
  - destruct (in_range_lookup _ _ _ Ht Hr) as [H1 H2].
    injection Hc as <- <- <-.
    split_and!; eexists; (split; [reflexivity |]); simpl; split_and!; lia.
  - injection Hc as <- <- <-.
    split_and!; eexists; (split; [reflexivity |]); simpl; split_and!; lia.
Qed.

Lemma results_are_counted_witness :
  reads (Db.getPlayerStats " bob " (Db.addWin " bob " three_rows).1) (1 + 1) 1 3 ∧
  reads (Db.getPlayerStats " bob " (Db.addLoss " bob " three_rows).1) 1 (1 + 1) 3 ∧
  reads (Db.getPlayerStats " bob " (Db.addDraw " bob " three_rows).1) 1 1 (3 + 1).
Proof.
  apply (results_are_counted " bob " three_rows 1 1 3).
  - by vm_compute.
  - apply (bool_decide_unpack _). by vm_compute.
  - by vm_compute.
Defined.

(** X6. [ensurePlayerStats] gets or creates: for a name that does not
    normalise to the empty string, a read of that name reports a row
    afterwards; no read of any name reports other counters than before
    (a read that reported no row reports none or a row of zeros); a
    second call leaves the table as the first one left it; and when the
    trimmed name has at most 64 characters the value returned is what a
    read of the name reports afterwards. *)
Theorem ensurePlayerStats_get_or_create (name : string) (t : gmap string Db.Row) :
  Db.normalizeName name ≠ "" →
  is_Some (Db.getPlayerStats name (Db.ensurePlayerStats name t).1.1) ∧
  (∀ m, Db.counters (Db.getPlayerStats m (Db.ensurePlayerStats name t).1.1) =
        Db.counters (Db.getPlayerStats m t)) ∧
  (Db.ensurePlayerStats name (Db.ensurePlayerStats name t).1.1).1.1 =
  (Db.ensurePlayerStats name t).1.1 ∧
  ((String.length (trim name) ≤ 64)%nat →
   (Db.ensurePlayerStats name t).2 =
   Db.getPlayerStats name (Db.ensurePlayerStats name t).1.1).
Proof.
  intros Hn. unfold Db.ensurePlayerStats. cbv zeta.
  rewrite !decide_False by done. cbn [fst snd Db.execute].
  split_and!.
  - rewrite getPlayerStats_lookup, lookup_upsert, decide_True by done. by eexists.
  - intros m. unfold Db.getPlayerStats. cbv zeta.
    destruct (decide (Db.normalizeName m = "")); [done |].
    rewrite lookup_upsert. case_decide as Hm; [| done]. rewrite Hm.
    by destruct (t !! Db.normalizeName name).
  - apply map_eq. intros k. rewrite !lookup_upsert.
    case_decide; [| done]. rewrite decide_True by done.
    by destruct (t !! Db.normalizeName name).
  - intros Hlen. unfold Db.getPlayerStats at 1. cbv zeta.
    rewrite normalizeName_stable by done.
    by rewrite getPlayerStats_lookup, decide_False.
Qed.

Lemma ensurePlayerStats_get_or_create_witness :
  is_Some (Db.getPlayerStats " dan " (Db.ensurePlayerStats " dan " three_rows).1.1) ∧
  (∀ m, Db.counters (Db.getPlayerStats m (Db.ensurePlayerStats " dan " three_rows).1.1) =
        Db.counters (Db.getPlayerStats m three_rows)) ∧
  (Db.ensurePlayerStats " dan " (Db.ensurePlayerStats " dan " three_rows).1.1).1.1 =
  (Db.ensurePlayerStats " dan " three_rows).1.1 ∧
  ((String.length (trim " dan ") ≤ 64)%nat →
   (Db.ensurePlayerStats " dan " three_rows).2 =
   Db.getPlayerStats " dan " (Db.ensurePlayerStats " dan " three_rows).1.1).
Proof. apply (ensurePlayerStats_get_or_create " dan " three_rows). by vm_compute. Defined.

(** X7. [ensurePlayerStats] returns [null] for a row it has just
    created when the 64-character cut of the name is not itself a
    normalised name (it ends in white space): the row is inserted under
    the cut name, and the read that follows looks for the cut name
    normalised once more, which no row has. *)
Theorem ensurePlayerStats_cut_name (name : string) (t : gmap string Db.Row) :
  Db.normalizeName name ≠ "" →
  Db.normalizeName (Db.normalizeName name) ≠ Db.normalizeName name →
  Db.getPlayerStats (Db.normalizeName name) t = None →
  (Db.ensurePlayerStats name t).2 = None ∧
  is_Some ((Db.ensurePlayerStats name t).1.1 !! Db.normalizeName name).
Proof.
  intros Hn Hcut Hnone. unfold Db.ensurePlayerStats. cbv zeta.
  rewrite !decide_False by done. cbn [fst snd Db.execute].
  split.
  - revert Hnone. unfold Db.getPlayerStats. cbv zeta.
    destruct (decide (Db.normalizeName (Db.normalizeName name) = "")); [done |].
    by rewrite lookup_upsert, decide_False.
  - rewrite lookup_upsert, decide_True by done. by eexists.
Qed.

Lemma ensurePlayerStats_cut_name_witness :
  (Db.ensurePlayerStats long_name three_rows).2 = None ∧
  is_Some ((Db.ensurePlayerStats long_name three_rows).1.1 !! Db.normalizeName long_name).
Proof.
  apply (ensurePlayerStats_cut_name long_name three_rows); by vm_compute.
Defined.

(** X8. The order in which two calls reach the store does not show in
    any read: the server sends the two calls of a result together
    ([Promise.all]), and the reads report the same counters whichever of
    them the store executes first. *)
Theorem store_calls_commute (c1 c2 : DbCall) (t : gmap string Db.Row) (m : string) :
  Db.in_range t →
  Db.counters (Db.getPlayerStats m (run_call c1 (run_call c2 t).1).1) =
  Db.counters (Db.getPlayerStats m (run_call c2 (run_call c1 t).1).1).
Proof.
  intros _.
  destruct (run_call_table c1) as [H1 | [q1 H1]],
           (run_call_table c2) as [H2 | [q2 H2]];
    rewrite ?H1, ?H2, ?H1; try done.
  by rewrite execute_comm.
Qed.

Lemma store_calls_commute_witness :
  Db.counters (Db.getPlayerStats "bob"
    (run_call (AddWin "bob") (run_call (AddLoss " bob") three_rows).1).1) =
  Db.counters (Db.getPlayerStats "bob"
    (run_call (AddLoss " bob") (run_call (AddWin "bob") three_rows).1).1).
Proof.
  apply (store_calls_commute (AddWin "bob") (AddLoss " bob") three_rows "bob").
  apply (bool_decide_unpack _). by vm_compute.
Defined.

(** ** The leaderboard *)

Lemma stats_of_inj n1 r1 n2 r2 :
  Db.stats_of n1 r1 = Db.stats_of n2 r2 → n1 = n2 ∧ r1 = r2.
Proof. destruct r1, r2. unfold Db.stats_of. simpl. by intros [= -> -> -> ->]. Qed.

Lemma rows_NoDup t : NoDup (Db.rows t).
Proof.
  unfold Db.rows. apply NoDup_fmap_2_strong; [| apply NoDup_map_to_list].
  intros [n1 r1] [n2 r2] _ _ H. simpl in H.
  by destruct (stats_of_inj _ _ _ _ H) as [-> ->].
Qed.

Lemma elem_of_rows t st :
  st ∈ Db.rows t ↔ ∃ n r, t !! n = Some r ∧ st = Db.stats_of n r.
Proof.
  unfold Db.rows. rewrite list_elem_of_fmap. split.
  - intros ([n r] & -> & Hin). exists n, r. by apply elem_of_map_to_list in Hin.
  - intros (n & r & Hin & ->). exists (n, r). by rewrite elem_of_map_to_list.
Qed.

Section leaderboard_properties.
Context (name_le : relation string) `{!RelDecision name_le}.
Context `{!Total name_le} `{!Transitive name_le}.

Local Instance ranks_before_total : Total (Db.ranks_before name_le).
Proof.
  intros a b. unfold Db.ranks_before.
  destruct (total name_le (Db.st_name a) (Db.st_name b)) as [Hn | Hn];
    destruct (N.lt_trichotomy (Db.st_score a) (Db.st_score b)) as [? | [Hs | ?]];
    destruct (N.lt_trichotomy (Db.st_wins a) (Db.st_wins b)) as [? | [Hw | ?]];
    destruct (N.lt_trichotomy (Db.st_draws a) (Db.st_draws b)) as [? | [Hd | ?]];
    destruct (N.lt_trichotomy (Db.st_losses a) (Db.st_losses b)) as [? | [Hl | ?]];
    try rewrite Hs; try rewrite Hw; try rewrite Hd; try rewrite Hl;
    intuition lia.
Qed.

Local Instance ranks_before_trans : Transitive (Db.ranks_before name_le).
Proof.
  intros a b c. unfold Db.ranks_before. intros Hab Hbc.
  pose proof (transitivity (R := name_le) (x := Db.st_name a)
                (y := Db.st_name b) (z := Db.st_name c)) as Hn.
  destruct (N.lt_trichotomy (Db.st_score a) (Db.st_score c)) as [? | [Hs | ?]];
    destruct (N.lt_trichotomy (Db.st_wins a) (Db.st_wins c)) as [? | [Hw | ?]];
    destruct (N.lt_trichotomy (Db.st_draws a) (Db.st_draws c)) as [? | [Hd | ?]];
    destruct (N.lt_trichotomy (Db.st_losses a) (Db.st_losses c)) as [? | [Hl | ?]];
    intuition lia.
Qed.

(** X9. [getLeaderboard] returns the ten best rows, best first: as many
    entries as the table has rows, up to ten; every entry is a row of the
    table and no row is listed twice; every entry ranks before all the
    entries after it (higher score, then more wins, then more draws, then
    fewer losses, then the name in the order of the column); and a row
    that is left out has ten entries before it, each of which ranks
    before it. *)
Theorem getLeaderboard_top_ten (t : gmap string Db.Row) :
  length (Db.getLeaderboard name_le t) = min 10 (size t) ∧
  StronglySorted (Db.ranks_before name_le) (Db.getLeaderboard name_le t) ∧
  NoDup (Db.getLeaderboard name_le t) ∧
  (∀ st, st ∈ Db.getLeaderboard name_le t →
     ∃ n r, t !! n = Some r ∧ st = Db.stats_of n r) ∧
  (∀ n r, t !! n = Some r →
     Db.stats_of n r ∉ Db.getLeaderboard name_le t →
     length (Db.getLeaderboard name_le t) = 10%nat ∧
     ∀ st, st ∈ Db.getLeaderboard name_le t →
       Db.ranks_before name_le st (Db.stats_of n r)).
Proof.
  unfold Db.getLeaderboard.
  pose proof (merge_sort_Permutation (Db.ranks_before name_le) (Db.rows t)) as Hperm.
  pose proof (StronglySorted_merge_sort (Db.ranks_before name_le) (Db.rows t)) as Hsort.
  set (L := merge_sort (Db.ranks_before name_le) (Db.rows t)) in *.
  assert (length L = size t) as Hlen.
  { rewrite Hperm. unfold Db.rows. by rewrite length_fmap, length_map_to_list. }
  rewrite <- (take_drop 10 L) in Hsort.
  split_and!.
  - by rewrite length_take, Hlen.
  - by apply StronglySorted_app_1_l in Hsort.
  - apply (sublist_NoDup (take 10 L) L); [| apply sublist_take].
    rewrite Hperm. apply rows_NoDup.
  - intros st Hin. apply elem_of_rows. rewrite <- Hperm.
    apply (elem_of_sublist _ _ _ Hin), sublist_take.
  - intros n r Hn Hout.
    assert (Db.stats_of n r ∈ drop 10 L) as Hdrop.
    { assert (Db.stats_of n r ∈ take 10 L ++ drop 10 L) as Hin.
      { rewrite take_drop, Hperm. apply elem_of_rows. by eauto. }
      apply elem_of_app in Hin as [? | ?]; done. }
    split.
    + apply length_take_le.
      destruct (drop 10 L) as [| x rest] eqn:Hd; [by apply elem_of_nil in Hdrop |].
      pose proof (length_drop L 10) as Hl. rewrite Hd in Hl. simpl in Hl. lia.
    + intros st Hin. by apply (StronglySorted_app_1_elem_of _ _ _ _ _ Hsort).
Qed.

End leaderboard_properties.

Lemma getLeaderboard_top_ten_witness :
  length (Db.getLeaderboard String.le three_rows) = min 10 (size three_rows) ∧
  StronglySorted (Db.ranks_before String.le) (Db.getLeaderboard String.le three_rows) ∧
  NoDup (Db.getLeaderboard String.le three_rows) ∧
  (∀ st, st ∈ Db.getLeaderboard String.le three_rows →
     ∃ n r, three_rows !! n = Some r ∧ st = Db.stats_of n r) ∧
  (∀ n r, three_rows !! n = Some r →
     Db.stats_of n r ∉ Db.getLeaderboard String.le three_rows →
     length (Db.getLeaderboard String.le three_rows) = 10%nat ∧
     ∀ st, st ∈ Db.getLeaderboard String.le three_rows →
       Db.ranks_before String.le st (Db.stats_of n r)).
Proof. apply (getLeaderboard_top_ten String.le three_rows). Defined.

(** ** The instance identifier *)

Lemma all_bytes_complete b : b ∈ all_bytes.
Proof.
  unfold all_bytes. apply list_elem_of_omap. exists (Byte.to_N b).
  split; [| apply Byte.of_to_N].
  apply list_elem_of_fmap. exists (N.to_nat (Byte.to_N b)).
  split; [by rewrite N2Nat.id |].
  apply elem_of_seq. pose proof (Byte.to_N_bounded b). lia.
Qed.

Lemma every_byte (P : Byte.byte → Prop) `{!∀ b, Decision (P b)} :
  bool_decide (Forall P all_bytes) = true → ∀ b, P b.
Proof.
  intros Hall%bool_decide_eq_true b. rewrite Forall_forall in Hall.
  apply Hall, all_bytes_complete.
Qed.

Lemma append_pick_glyph out b : append_pick out b = out +:+ String (glyph b) "".
Proof.
  unfold append_pick.
  assert (String.get (N.to_nat (Byte.to_N b) mod String.length alphabet) alphabet
          = Some (glyph b)) as ->; [| done].
  revert b.
  apply (every_byte (λ b,
    String.get (N.to_nat (Byte.to_N b) mod String.length alphabet) alphabet
    = Some (glyph b))).
  by vm_compute.
Qed.

Lemma glyph_in_alphabet b :
  glyph b ∈ list_ascii_of_string alphabet ∧
  glyph b ∉ list_ascii_of_string "0O1I".
Proof.
  revert b.
  apply (every_byte (λ b, glyph b ∈ list_ascii_of_string alphabet ∧
                          glyph b ∉ list_ascii_of_string "0O1I")).
  by vm_compute.
Qed.

Lemma list_ascii_of_string_app s1 s2 :
  list_ascii_of_string (s1 +:+ s2) =
  list_ascii_of_string s1 ++ list_ascii_of_string s2.
Proof. induction s1 as [| c s1 IH]; [done |]. simpl. by rewrite IH. Qed.

Lemma genInstanceId_glyphs out bytes :
  list_ascii_of_string (foldl append_pick out bytes) =
  list_ascii_of_string out ++ (glyph <$> bytes).
Proof.
  revert out. induction bytes as [| b bytes IH]; intros out; simpl.
  - by rewrite app_nil_r.
  - rewrite IH, append_pick_glyph, list_ascii_of_string_app. simpl.
    by rewrite <- app_assoc.
Qed.

(** X10. [genInstanceId] writes one character for each random byte, the
    character depending on that byte only; every character is one of the
    32 of the alphabet and none is 0, O, 1 or I; and each character of the
    alphabet stands for exactly 8 of the 256 values of a byte, so that
    uniform bytes give uniform characters. *)
Theorem genInstanceId_readable (bytes : list Byte.byte) :
  list_ascii_of_string (genInstanceId bytes) = glyph <$> bytes ∧
  (∀ b, glyph b ∈ list_ascii_of_string alphabet ∧
        glyph b ∉ list_ascii_of_string "0O1I") ∧
  (∀ c, c ∈ list_ascii_of_string alphabet →
        ∃ bs, NoDup bs ∧ length bs = 8%nat ∧ ∀ b, glyph b = c ↔ b ∈ bs).
Proof.
  split_and!.
  - unfold genInstanceId. by rewrite genInstanceId_glyphs.
  - apply glyph_in_alphabet.
  - intros c Hc. exists (filter (λ b, glyph b = c) all_bytes). split_and!.
    + apply NoDup_filter, (bool_decide_unpack _). by vm_compute.
    + revert c Hc. apply Forall_forall. apply (bool_decide_unpack _).
      by vm_compute.
    + intros b. rewrite list_elem_of_filter. split; [| by intros [? _]].
      intros Hb. split; [done | apply all_bytes_complete].
Qed.

(** ** Registered games are positions in progress *)

Lemma run_halves es : run es = run_async (es ≫= halves).
Proof.
  unfold run, run_async. generalize init.
  induction es as [| e es IH]; intros s; [done |].
  change ((e :: es) ≫= halves) with (halves e ++ (es ≫= halves)).
  rewrite foldl_app. simpl. rewrite IH. f_equal.
  by destruct e as [sid name [stats |] coin | |].
Qed.

Lemma count_mark_insert m mark board i :
  board !! i = Some Empty →
  count_mark m (<[i := Marked mark]> board) =
  count_mark m board + (if decide (m = mark) then 1 else 0).
Proof.
  unfold count_mark. revert i.
  induction board as [| c board IH]; intros [| i] Hi; simplify_eq/=.
  - rewrite !filter_cons.
    rewrite (decide_False (P := Empty = Marked m)) by done.
    destruct (decide (m = mark)) as [-> | Hne].
    + rewrite decide_True by done. simpl. lia.
    + rewrite decide_False by congruence. lia.
  - rewrite !filter_cons. destruct (decide (c = Marked m)); simpl;
      rewrite (IH i Hi); lia.
Qed.

Lemma in_progress_started coin p1 p2 s : in_progress (started_game coin p1 p2 s).
Proof. unfold in_progress, started_game. cbn. by split_and!. Qed.

Lemma in_progress_played game mark index :
  in_progress game → Game.turn game = mark →
  Game.board game !! Z.to_nat index = Some Empty →
  checkWinner (Game.board (played game mark index)) = None →
  in_progress (played game mark index).
Proof.
  intros (Hfin & Hlen & Hbal & _) Hturn Hcell Hres.
  unfold in_progress. split_and!; [done | | | done].
  - cbn. by rewrite length_insert.
  - cbn [played Game.board Game.turn Game.set_turn Game.set_board].
    rewrite !count_mark_insert by done. rewrite Hbal, Hturn.
    destruct mark; simpl; repeat case_decide; try done; lia.
Qed.

Lemma in_progress_empty_cell g :
  in_progress g → ∃ i, i < 9 ∧ Game.board g !! i = Some Empty.
Proof.
  intros (_ & Hlen & _ & Hres). unfold checkWinner in Hres.
  destruct (first_line (Game.board g) lines); [done |].
  destruct (forallb _ _) eqn:Hall; [done |].
  assert (¬ Forall (λ c, c ≠ Empty) (Game.board g)) as Hnot.
  { intros HF. apply full_forallb in HF. congruence. }
  apply not_Forall_Exists in Hnot; [| apply _].
  apply Exists_exists in Hnot as (c & Hc & Hempty).
  apply dec_stable in Hempty. subst c.
  apply list_elem_of_lookup_1 in Hc as [i Hi]. exists i. split; [| done].
  apply lookup_lt_Some in Hi. lia.
Qed.

Lemma sound_init : sound init.
Proof. split; constructor. Qed.

Lemma sound_same s s' : games s' = games s → sound s → sound s'.
Proof. unfold sound. by intros ->. Qed.

Lemma sound_sublist s s' : sublist (games s') (games s) → sound s → sound s'.
Proof.
  intros Hsub [Hnd Hall]. split.
  - eapply sublist_NoDup; [done |]. by apply fmap_sublist.
  - rewrite Forall_forall in *. intros e He. apply Hall.
    by eapply elem_of_sublist.
Qed.

Lemma sound_set s s' k g :
  games s' = map_set k g (games s) → sound_entry (k, g) → sound s → sound s'.
Proof.
  intros Hg He [Hnd Hall]. unfold sound. rewrite Hg. split.
  - by apply map_set_NoDup.
  - apply Forall_forall. intros e [-> | Hin]%map_set_elem; [done |].
    rewrite Forall_forall in Hall. by apply Hall.
Qed.

Lemma sound_registered s k g :
  sound s → map_get k (games s) = Some g → Game.id g = k ∧ in_progress g.
Proof.
  intros [_ Hall] Hget%map_get_Some. rewrite Forall_forall in Hall.
  apply (Hall (k, g) Hget).
Qed.

Lemma sound_pair_up coin s : sound s → sound (pair_up coin s).
Proof.
  intros Hs. unfold pair_up.
  destruct (waitingQueue s) as [| p1 [| p2 rest]]; [done | done |].
  apply (sound_set (with_queue rest s) _ _ _ (startMatch_games coin p1 p2 _)).
  - split; [done | apply in_progress_started].
  - done.
Qed.

Lemma Server_enqueue_games sid stats s : games (Server.enqueue sid stats s) = games s.
Proof. unfold Server.enqueue. by destruct (player s !! sid). Qed.

Lemma ServerPlain_enqueue_games sid name s :
  games (ServerPlain.enqueue sid name s) = games s.
Proof. by rewrite ServerPlain_enqueue. Qed.

Section sound_move.
Variable on_result : Game.t → Result → State → State.
Hypothesis on_result_frame : ∀ g res s,
  heap (on_result g res s) = heap s ∧
  player (on_result g res s) = player s ∧
  waitingQueue (on_result g res s) = waitingQueue s ∧
  games (on_result g res s) = games s ∧
  emitted (on_result g res s) = emitted s.

(** The registry after a move, for a registry that stores every game
    under its own id. *)
Lemma move_games s sid gameId index :
  sound s →
  (¬ accepts s sid gameId index ∧
   games (move on_result sid gameId index s) = games s) ∨
  (∃ game r, accepted s sid gameId index game r ∧
     games (move on_result sid gameId index s) =
     match checkWinner (Game.board (played game (Player.mark (deref s r)) index)) with
     | Some _ => map_delete gameId (games s)
     | None => map_set gameId (played game (Player.mark (deref s r)) index) (games s)
     end).
Proof.
  intros Hs.
  destruct (decide (accepts s sid gameId index)) as [(game & r & Ha) | Hn].
  - right. exists game, r. split; [done |].
    pose proof Ha as (Hget & _).
    destruct (sound_registered s gameId game Hs Hget) as [Hid _].
    rewrite (move_accepted on_result _ _ _ _ _ _ Ha).
    rewrite (conclude_games on_result on_result_frame) by done.
    destruct (checkWinner _); [| done].
    unfold placed. cbn [games emit with_games]. apply map_delete_set.
  - left. split; [done |].
    by destruct (move_not_accepted on_result _ _ _ _ Hn) as [-> | [m ->]].
Qed.

Lemma sound_move sid gameId index s :
  sound s → sound (move on_result sid gameId index s).
Proof.
  intros Hs.
  destruct (move_games s sid gameId index Hs)
    as [[_ Hg] | (game & r & Ha & Hg)].
  - by apply (sound_same s).
  - pose proof Ha as (Hget & _ & _ & _ & Hturn & _ & Hcell).
    destruct (sound_registered s gameId game Hs Hget) as [Hid Hprog].
    destruct (checkWinner _) eqn:Hres.
    + apply (sound_sublist s); [| done]. rewrite Hg. apply map_delete_sublist.
    + apply (sound_set s _ _ _ Hg); [| done].
      split; [done |]. by apply in_progress_played.
Qed.

Lemma move_other_games sid gameId index s k :
  sound s → k ≠ gameId →
  map_get k (games (move on_result sid gameId index s)) = map_get k (games s).
Proof.
  intros Hs Hk.
  destruct (move_games s sid gameId index Hs)
    as [[_ ->] | (game & r & Ha & ->)]; [done |].
  destruct (checkWinner _).
  - by apply map_get_delete_ne.
  - by apply map_get_set_ne.
Qed.
End sound_move.

Lemma forfeit_sublist (m : GameMap) (i : nat) (k : string) (g : Game.t) :
  NoDup m.*1 → Forall sound_entry m → m !! i = Some (k, g) →
  sublist (map_delete (Game.id g) (alter (λ e, (e.1, Game.set_finished e.2)) i m)) m.
Proof.
  intros Hnd Hall Hi.
  rewrite (finish_delete m i k g); [apply sublist_delete | done | done |].
  rewrite Forall_forall in Hall.
  by destruct (Hall (k, g) (list_elem_of_lookup_2 _ _ _ Hi)).
Qed.

Lemma Server_forfeit_registry sid i g s :
  games (Server.forfeit sid i g s) =
  map_delete (Game.id g) (alter (λ e, (e.1, Game.set_finished e.2)) i (games s)).
Proof. unfold Server.forfeit. cbn zeta. by destruct (decide (isX _ sid g)). Qed.

Lemma ServerPlain_forfeit_registry sid i g s :
  games (ServerPlain.forfeit sid i g s) =
  map_delete (Game.id g) (alter (λ e, (e.1, Game.set_finished e.2)) i (games s)).
Proof. reflexivity. Qed.

Lemma sound_Server_disconnect sid s : sound s → sound (Server.disconnect sid s).
Proof.
  intros Hs. apply (sound_sublist s); [| done].
  destruct (leave_queue_frame sid s) as (_ & _ & Hg & _).
  destruct (list_find (plays_in s sid) (games s)) as [[i [k g]] |] eqn:Hfind.
  - rewrite (Server_disconnect_found s sid i k g Hfind).
    pose proof Hfind as (Hi & _)%list_find_Some.
    destruct Hs as [Hnd Hall].
    rewrite Server_forfeit_registry, Hg. by apply (forfeit_sublist _ i k g).
  - rewrite (Server_disconnect_not_found s sid Hfind). by rewrite Hg.
Qed.

Lemma sound_ServerPlain_disconnect sid s :
  sound s → sound (ServerPlain.disconnect sid s).
Proof.
  intros Hs. apply (sound_sublist s); [| done].
  destruct (leave_queue_frame sid s) as (_ & _ & Hg & _).
  destruct (list_find (plays_in s sid) (games s)) as [[i [k g]] |] eqn:Hfind.
  - rewrite (ServerPlain_disconnect_found s sid i k g Hfind).
    pose proof Hfind as (Hi & _)%list_find_Some.
    destruct Hs as [Hnd Hall].
    rewrite ServerPlain_forfeit_registry, Hg. by apply (forfeit_sublist _ i k g).
  - unfold ServerPlain.disconnect.
    assert (list_find (plays_in (leave_queue sid s) sid) (games (leave_queue sid s))
            = None) as ->; [| by rewrite Hg].
    rewrite Hg. rewrite <- Hfind. apply list_find_ext.
    intros e. apply plays_in_core.
    by destruct (leave_queue_frame sid s) as (-> & _).
Qed.

Lemma sound_step_async s a : sound s → sound (step_async s a).
Proof.
  intros Hs. destruct a as [sid name | sid stats coin | sid gid index | sid]; simpl.
  - by apply (sound_same s).
  - apply sound_pair_up, (sound_same s); [apply Server_enqueue_games | done].
  - by apply (sound_move _ persistResultSafe_frame).
  - by apply sound_Server_disconnect.
Qed.

Lemma sound_run_async tr : sound (run_async tr).
Proof.
  unfold run_async. generalize sound_init. generalize init.
  induction tr as [| a tr IH]; intros s Hs; [done |].
  simpl. by apply IH, sound_step_async.
Qed.

Lemma sound_step_plain s e : sound s → sound (step_plain s e).
Proof.
  intros Hs. destruct e as [sid name reply coin | sid gid index | sid]; simpl.
  - apply sound_pair_up, (sound_same s); [apply ServerPlain_enqueue_games | done].
  - by apply (sound_move (λ _ _ s, s) no_persist_frame).
  - by apply sound_ServerPlain_disconnect.
Qed.

Lemma sound_run_plain es : sound (run_plain es).
Proof.
  unfold run_plain. generalize sound_init. generalize init.
  induction es as [| e es IH]; intros s Hs; [done |].
  simpl. by apply IH, sound_step_plain.
Qed.

(** X11. Whatever the order in which the server with persistence calls
    the store, resumes its [join] handlers and handles moves and
    disconnections, every game in its registry is a position in progress:
    it is stored under its own id and is not finished; its board has nine
    cells, as many X as O when it is X's turn and one X more when it is
    O's; no line is complete, and a cell is still empty. *)
Theorem registry_in_progress (tr : list Async) (k : string) (g : Game.t) :
  map_get k (games (run_async tr)) = Some g →
  Game.id g = k ∧ in_progress g ∧
  (∀ m, ¬ completed (Game.board g) m) ∧
  ∃ i, i < 9 ∧ Game.board g !! i = Some Empty.
Proof.
  intros Hget.
  destruct (sound_registered _ k g (sound_run_async tr) Hget) as [Hid Hprog].
  split_and!; [done | done | | by apply in_progress_empty_cell].
  apply checkWinner_None_no_line. by destruct Hprog as (_ & _ & _ & ?).
Qed.

(** X12. The same on the server without persistence, whose [join] is not
    suspended: every game in the registry is a position in progress. *)
Theorem registry_in_progress_plain (es : list Input) (k : string) (g : Game.t) :
  map_get k (games (run_plain es)) = Some g →
  Game.id g = k ∧ in_progress g ∧
  (∀ m, ¬ completed (Game.board g) m) ∧
  ∃ i, i < 9 ∧ Game.board g !! i = Some Empty.
Proof.
  intros Hget.
  destruct (sound_registered _ k g (sound_run_plain es) Hget) as [Hid Hprog].
  split_and!; [done | done | | by apply in_progress_empty_cell].
  apply checkWinner_None_no_line. by destruct Hprog as (_ & _ & _ & ?).
Qed.

Lemma registry_in_progress_witness :
  ∃ g, map_get "g_bob-s_ann-s" (games (run_async interleaved)) = Some g ∧
    Game.id g = "g_bob-s_ann-s" ∧ in_progress g ∧
    (∀ m, ¬ completed (Game.board g) m) ∧
    ∃ i, i < 9 ∧ Game.board g !! i = Some Empty.
Proof.
  eexists. split; [by vm_compute |].
  apply (registry_in_progress interleaved "g_bob-s_ann-s"). by vm_compute.
Defined.

Lemma registry_in_progress_plain_witness :
  ∃ g, map_get "g_ann-s_bob-s" (games paired_plain) = Some g ∧
    Game.id g = "g_ann-s_bob-s" ∧ in_progress g ∧
    (∀ m, ¬ completed (Game.board g) m) ∧
    ∃ i, i < 9 ∧ Game.board g !! i = Some Empty.
Proof.
  eexists. split; [by vm_compute |].
  apply (registry_in_progress_plain
           [ OnJoin "ann-socket" (Some "Ann") (Resolved None) true;
             OnJoin "bob-socket" (Some "Bob") (Resolved None) true ]
           "g_ann-s_bob-s").
  by vm_compute.
Defined.

(** ** What an applied move sends and records *)

Lemma checkWinner_Some_cases board res :
  checkWinner board = Some res →
  (∃ m, res = Won m ∧ completed board m) ∨ (res = Draw ∧ full board).
Proof.
  intros Hres. destruct res as [m |].
  - left. exists m. split; [done |].
    apply checkWinner_first in Hres as (before & l & after & Hl & Hh & _).
    apply Exists_exists. exists l. split; [| done]. rewrite Hl. set_solver.
  - right. split; [done |]. unfold checkWinner in Hres.
    destruct (first_line board lines); [done |].
    destruct (forallb _ board) eqn:Hall; [| done]. by apply full_forallb.
Qed.

Lemma conclude_output gameId game s :
  Game.id game = gameId →
  match checkWinner (Game.board game) with
  | Some res =>
      emitted (conclude Server.persistResultSafe gameId game s) =
        emitted s ++ [ (Player.id (deref s (Game.players_X game)), EvGameOver gameId res);
                       (Player.id (deref s (Game.players_O game)), EvGameOver gameId res) ] ∧
      persisted (conclude Server.persistResultSafe gameId game s) =
        persisted s ++ result_calls s game res
  | None => conclude Server.persistResultSafe gameId game s = s
  end.
Proof.
  intros <-. unfold conclude.
  destruct (checkWinner (Game.board game)) as [res |]; [| done].
  unfold Server.persistResultSafe, result_calls.
  destruct res as [[|] |]; cbn; by rewrite <- !app_assoc.
Qed.

(** X13. What a move that is applied sends and records, in any state the
    server with persistence reaches: both seats are sent the new board
    and turn; when the new board has no result nothing else happens and
    the game stays registered with that board; when it has one, the result
    is a win of the mark just written or a draw on a full board, both
    seats are sent it, the store is called twice, with a win for the name
    of the winning seat and a loss for the other or with a draw for both
    (the names trimmed, [Jogador_X] and [Jogador_O] standing in for blank
    ones), and the game leaves the registry. *)
Theorem applied_move_output (tr : list Async) (sid gameId : string) (index : Z)
    (game : Game.t) (r : ref) :
  accepted (run_async tr) sid gameId index game r →
  let s := run_async tr in
  let mark := Player.mark (deref s r) in
  let game' := played game mark index in
  let toX := Player.id (deref s (Game.players_X game)) in
  let toO := Player.id (deref s (Game.players_O game)) in
  let st := EvState gameId (Game.board game') (Game.turn game') in
  match checkWinner (Game.board game') with
  | None =>
      emitted (Server.move sid gameId index s) = emitted s ++ [(toX, st); (toO, st)] ∧
      persisted (Server.move sid gameId index s) = persisted s ∧
      map_get gameId (games (Server.move sid gameId index s)) = Some game'
  | Some res =>
      (res = Won mark ∨ res = Draw ∧ full (Game.board game')) ∧
      emitted (Server.move sid gameId index s) =
        emitted s ++ [ (toX, st); (toO, st);
                       (toX, EvGameOver gameId res); (toO, EvGameOver gameId res) ] ∧
      persisted (Server.move sid gameId index s) = persisted s ++ result_calls s game res ∧
      map_get gameId (games (Server.move sid gameId index s)) = None
  end.
Proof.
  intros Ha s mark game' toX toO st. unfold Server.move.
  pose proof (sound_run_async tr) as Hs. fold s in Hs, Ha.
  pose proof Ha as (Hget & _ & _ & _ & _ & _ & Hcell).
  destruct (sound_registered s gameId game Hs Hget) as [Hid Hprog].
  assert (Hmove : move Server.persistResultSafe sid gameId index s =
            conclude Server.persistResultSafe gameId game'
              (placed s gameId game mark index)).
  { by apply (move_accepted Server.persistResultSafe). }
  assert (Hplaced : emitted (placed s gameId game mark index) =
                    emitted s ++ [(toX, st); (toO, st)]).
  { unfold placed, st, toX, toO. cbn. by rewrite Hid, <- app_assoc. }
  pose proof (conclude_output gameId game' (placed s gameId game mark index) Hid)
    as Hout.
  destruct (move_games Server.persistResultSafe persistResultSafe_frame
              s sid gameId index Hs) as [[Hn _] | (game0 & r0 & Ha0 & Hg)].
  { destruct Hn. by exists game, r. }
  assert (game0 = game ∧ r0 = r) as [-> ->].
  { destruct Ha0 as (Hget0 & _ & Hp0 & _), Ha as (_ & _ & Hp & _).
    split; congruence. }
  fold mark game' in Hg.
  destruct (checkWinner (Game.board game')) as [res |] eqn:Hres.
  - destruct Hout as [Hem Hpe]. split_and!.
    + destruct (checkWinner_Some_cases _ _ Hres) as [(m & -> & Hm) | [-> Hfull]];
        [left | by right].
      f_equal. apply (one_more_mark (Game.board game) (Z.to_nat index)); [| done..].
      apply checkWinner_None_no_line. by destruct Hprog as (_ & _ & _ & ?).
    + rewrite Hmove, Hem, Hplaced. by rewrite <- app_assoc.
    + by rewrite Hmove, Hpe.
    + rewrite Hg. apply map_get_delete_eq. by destruct Hs.
  - rewrite Hmove, Hout. split_and!; [done | done |].
    rewrite <- Hout, <- Hmove, Hg. apply map_get_set_eq.
Qed.

(** Ann completes the top row: she is credited with the win, Bob with the
    loss, and the game leaves the registry. *)
Lemma applied_move_output_witness :
  accepted (run_async top_row_async) "ann-socket" "g_bob-s_ann-s" 2 top_row_game 0 ∧
  checkWinner (Game.board (played top_row_game MX 2)) = Some (Won MX) ∧
  result_calls (run_async top_row_async) top_row_game (Won MX) =
    [AddWin "Ann"; AddLoss "Bob"] ∧
  let s := run_async top_row_async in
  let mark := Player.mark (deref s 0) in
  let game' := played top_row_game mark 2 in
  let toX := Player.id (deref s (Game.players_X top_row_game)) in
  let toO := Player.id (deref s (Game.players_O top_row_game)) in
  let st := EvState "g_bob-s_ann-s" (Game.board game') (Game.turn game') in
  match checkWinner (Game.board game') with
  | None =>
      emitted (Server.move "ann-socket" "g_bob-s_ann-s" 2 s) =
        emitted s ++ [(toX, st); (toO, st)] ∧
      persisted (Server.move "ann-socket" "g_bob-s_ann-s" 2 s) = persisted s ∧
      map_get "g_bob-s_ann-s" (games (Server.move "ann-socket" "g_bob-s_ann-s" 2 s)) =
        Some game'
  | Some res =>
      (res = Won mark ∨ res = Draw ∧ full (Game.board game')) ∧
      emitted (Server.move "ann-socket" "g_bob-s_ann-s" 2 s) =
        emitted s ++ [ (toX, st); (toO, st);
                       (toX, EvGameOver "g_bob-s_ann-s" res);
                       (toO, EvGameOver "g_bob-s_ann-s" res) ] ∧
      persisted (Server.move "ann-socket" "g_bob-s_ann-s" 2 s) =
        persisted s ++ result_calls s top_row_game res ∧
      map_get "g_bob-s_ann-s" (games (Server.move "ann-socket" "g_bob-s_ann-s" 2 s)) =
        None
  end.
Proof.
  assert (Ha : accepted (run_async top_row_async) "ann-socket" "g_bob-s_ann-s" 2
                 top_row_game 0).
  { apply (bool_decide_unpack _). by vm_compute. }
  split; [exact Ha |]. split; [by vm_compute |]. split; [by vm_compute |].
  exact (applied_move_output top_row_async "ann-socket" "g_bob-s_ann-s" 2
           top_row_game 0 Ha).
Defined.

(** ** A move and the rest of the state *)

(** X14. A move touches one game: in a state whose registry holds one
    game per id, each under its own id and in progress (every state the
    servers reach), the handler of either server leaves the player
    objects, the connections' variables and the queue as they are, and
    every game registered under another id than the one named in the
    event. *)
Theorem move_touches_one_game (s : State) (sid gameId : string) (index : Z) :
  sound s →
  heap (Server.move sid gameId index s) = heap s ∧
  player (Server.move sid gameId index s) = player s ∧
  waitingQueue (Server.move sid gameId index s) = waitingQueue s ∧
  heap (ServerPlain.move sid gameId index s) = heap s ∧
  player (ServerPlain.move sid gameId index s) = player s ∧
  waitingQueue (ServerPlain.move sid gameId index s) = waitingQueue s ∧
  ∀ k, k ≠ gameId →
    map_get k (games (Server.move sid gameId index s)) = map_get k (games s) ∧
    map_get k (games (ServerPlain.move sid gameId index s)) = map_get k (games s).
Proof.
  intros Hs.
  destruct (move_frame Server.persistResultSafe persistResultSafe_frame
              s sid gameId index) as (H1 & H2 & H3).
  destruct (move_frame (λ _ _ s, s) no_persist_frame s sid gameId index)
    as (H4 & H5 & H6).
  split_and!; try done.
  intros k Hk. split.
  - by apply (move_other_games _ persistResultSafe_frame).
  - by apply (move_other_games (λ _ _ s, s) no_persist_frame).
Qed.

(** Ann holds a seat in two games; her move in the second leaves the
    first as it is. *)
Lemma move_touches_one_game_witness :
  map_get "g_ann-s_bob-s"
    (games (Server.move "ann-socket" "g_ann-s_cid-s" 4 in_two_games)) =
  map_get "g_ann-s_bob-s" (games in_two_games).
Proof.
  assert (Hs : sound in_two_games).
  { apply (bool_decide_unpack _). by vm_compute. }
  destruct (move_touches_one_game in_two_games "ann-socket" "g_ann-s_cid-s" 4 Hs)
    as (_ & _ & _ & _ & _ & _ & Hk).
  by destruct (Hk "g_ann-s_bob-s").
Defined.

(** ** Results by play are always recorded *)

Lemma normalizeName_nonblank name : trim name ≠ "" → Db.normalizeName name ≠ "".
Proof. unfold Db.normalizeName. by destruct (trim name). Qed.

Lemma trimmed_or_nonblank name fallback :
  trim fallback ≠ "" → Db.normalizeName (Server.trimmed_or name fallback) ≠ "".
Proof.
  intros Hf. apply normalizeName_nonblank. unfold Server.trimmed_or.
  case_decide; [done |]. by rewrite trim_idempotent.
Qed.

Lemma run_call_nonblank c t :
  match c with
  | EnsurePlayerStats n | AddWin n | AddLoss n | AddDraw n => Db.normalizeName n ≠ ""
  end →
  ∃ q, (run_call c t).2 = [q] ∧ (run_call c t).1 = Db.execute q t.
Proof.
  destruct c as [n | n | n | n]; intros Hn; simpl;
    unfold Db.ensurePlayerStats, Db.addWin, Db.addLoss, Db.addDraw; cbv zeta;
    rewrite decide_False by done; by eexists.
Qed.

(** X15. A result reached by play is always recorded: [persistResultSafe]
    issues the two calls of the result, and neither is dropped by the
    store for a blank name, since a name that trims to nothing is replaced
    by [Jogador_X] or [Jogador_O]: each call executes exactly one
    statement on the table. *)
Theorem result_is_recorded (game : Game.t) (res : Result) (s : State) :
  persisted (Server.persistResultSafe game res s) =
    persisted s ++ result_calls s game res ∧
  length (result_calls s game res) = 2%nat ∧
  ∀ c t, c ∈ result_calls s game res →
    ∃ q, (run_call c t).2 = [q] ∧ (run_call c t).1 = Db.execute q t.
Proof.
  split_and!.
  - unfold Server.persistResultSafe, result_calls.
    destruct res as [[|] |]; cbn; by rewrite <- app_assoc.
  - by destruct res as [[|] |].
  - intros c t Hc. apply run_call_nonblank.
    unfold result_calls in Hc. cbv zeta in Hc.
    destruct res as [[|] |];
      apply elem_of_cons in Hc as [-> | Hc];
      try (apply list_elem_of_singleton in Hc as ->);
      by apply trimmed_or_nonblank.
Qed.

(** ** A registered game can go on *)

Lemma seated_entry_heap s s' e :
  heap s' = heap s → seated_entry s e → seated_entry s' e.
Proof. intros Hh. unfold seated_entry. by rewrite !(deref_heap s' s). Qed.

Lemma seated_sub s s' :
  heap s' = heap s → sublist (games s') (games s) → seated s → seated s'.
Proof.
  intros Hh Hsub Hs. unfold seated in *. rewrite Forall_forall in *.
  intros e He. apply (seated_entry_heap s); [done |].
  apply Hs. by eapply elem_of_sublist.
Qed.

Lemma seated_grow s s' l :
  heap s' = heap s ++ l → games s' = games s → wf s → seated s → seated s'.
Proof.
  intros Hh Hg (_ & _ & _ & Hwf & _) Hs. unfold seated in *. rewrite Hg.
  rewrite Forall_forall in *. intros e He.
  destruct (Hwf e He) as (_ & _ & _ & HX & HO & _).
  destruct (Hs e He) as [H1 H2]. unfold seated_entry.
  by rewrite !(deref_grow s s' l).
Qed.

Lemma seated_pair_up coin s : wf s → seated s → seated (pair_up coin s).
Proof.
  intros Hwf Hs. unfold pair_up.
  destruct (waitingQueue s) as [| p1 [| p2 rest]] eqn:Hqueue; [done | done |].
  destruct Hwf as (Hq & Hnd & _ & Hg & _). rewrite Hqueue in Hq, Hnd.
  apply Forall_cons in Hq as [Hl1 Hq]. apply Forall_cons in Hq as [Hl2 _].
  apply NoDup_cons in Hnd as [Hn1 _].
  assert (p1 ≠ p2) as Hne by (intros ->; apply Hn1; left).
  set (s0 := with_queue rest s).
  unfold seated. rewrite startMatch_games. apply Forall_forall.
  intros e [-> | He]%map_set_elem.
  - split; cbn [fst snd started_game Game.players_X Game.players_O].
    + by rewrite (startMatch_deref_X coin p1 p2 s0 Hne Hl1 Hl2).
    + by rewrite (startMatch_deref_O coin p1 p2 s0 Hne Hl1 Hl2).
  - change (games s0) with (games s) in He.
    rewrite Forall_forall in Hg.
    destruct (Hg e He) as (_ & _ & _ & _ & _ & _ & _ & _ & HqX & HqO).
    rewrite Hqueue in HqX, HqO.
    unfold seated in Hs. rewrite Forall_forall in Hs.
    destruct (Hs e He) as [H1 H2]. unfold seated_entry.
    assert (∀ r, r ∉ p1 :: p2 :: rest →
                 deref (startMatch coin p1 p2 s0) r = deref s r) as Hd.
    { intros r Hr. rewrite startMatch_deref_other; [done | ..];
        intros ->; set_solver. }
    by rewrite !Hd.
Qed.

Section steady_move.
Variable on_result : Game.t → Result → State → State.
Hypothesis on_result_frame : ∀ g res s,
  heap (on_result g res s) = heap s ∧
  player (on_result g res s) = player s ∧
  waitingQueue (on_result g res s) = waitingQueue s ∧
  games (on_result g res s) = games s ∧
  emitted (on_result g res s) = emitted s.

Lemma seated_move sid gameId index s :
  sound s → seated s → seated (move on_result sid gameId index s).
Proof.
  intros Hsound Hs.
  destruct (move_frame on_result on_result_frame s sid gameId index) as (Hh & _).
  destruct (move_games on_result on_result_frame s sid gameId index Hsound)
    as [[_ Hg] | (game & r & Ha & Hg)].
  - apply (seated_sub s); [done | by rewrite Hg | done].
  - destruct (checkWinner _).
    + apply (seated_sub s); [done | | done]. rewrite Hg. apply map_delete_sublist.
    + unfold seated. rewrite Hg. apply Forall_forall.
      unfold seated in Hs. rewrite Forall_forall in Hs.
      intros e [-> | He]%map_set_elem.
      * destruct Ha as (Hget%map_get_Some & _).
        apply (seated_entry_heap s); [done |]. exact (Hs _ Hget).
      * apply (seated_entry_heap s); [done |]. by apply Hs.
Qed.

Lemma steady_move sid gameId index s :
  steady s → steady (move on_result sid gameId index s).
Proof.
  intros (Hwf & Hsound & Hs). split_and!.
  - by apply wf_move.
  - by apply sound_move.
  - by apply seated_move.
Qed.
End steady_move.

Lemma Server_disconnect_registry sid s :
  sound s →
  heap (Server.disconnect sid s) = heap s ∧
  sublist (games (Server.disconnect sid s)) (games s).
Proof.
  intros [Hnd Hall].
  destruct (leave_queue_frame sid s) as (Hh & _ & Hg & _).
  destruct (list_find (plays_in s sid) (games s)) as [[i [k g]] |] eqn:Hfind.
  - rewrite (Server_disconnect_found s sid i k g Hfind).
    pose proof Hfind as (Hi & _)%list_find_Some.
    destruct (Server_forfeit_frame sid (leave_queue sid s) i g) as (-> & _).
    split; [done |].
    rewrite Server_forfeit_registry, Hg. by apply (forfeit_sublist _ i k g).
  - rewrite (Server_disconnect_not_found s sid Hfind). by rewrite Hg.
Qed.

Lemma ServerPlain_disconnect_registry sid s :
  sound s →
  heap (ServerPlain.disconnect sid s) = heap s ∧
  sublist (games (ServerPlain.disconnect sid s)) (games s).
Proof.
  intros [Hnd Hall].
  destruct (leave_queue_frame sid s) as (Hh & _ & Hg & _).
  destruct (list_find (plays_in s sid) (games s)) as [[i [k g]] |] eqn:Hfind.
  - rewrite (ServerPlain_disconnect_found s sid i k g Hfind).
    pose proof Hfind as (Hi & _)%list_find_Some.
    split; [done |].
    rewrite ServerPlain_forfeit_registry, Hg. by apply (forfeit_sublist _ i k g).
  - unfold ServerPlain.disconnect.
    assert (list_find (plays_in (leave_queue sid s) sid) (games (leave_queue sid s))
            = None) as ->; [| by rewrite Hg].
    rewrite Hg. rewrite <- Hfind. apply list_find_ext.
    intros e. by apply plays_in_core.
Qed.

Lemma steady_init : steady init.
Proof. split_and!; [apply wf_init | apply sound_init | constructor]. Qed.

Lemma steady_step s e : steady s → steady (step s e).
Proof.
  intros (Hwf & Hsound & Hs).
  split; [by apply wf_step |]. split.
  { destruct e as [sid name [stats |] coin | sid gid index | sid].
    - apply (sound_step_async (Server.announce sid name s) (JoinResumed sid stats coin)).
      by apply (sound_same s).
    - by apply (sound_same s).
    - by apply (sound_step_async s (MoveSent sid gid index)).
    - by apply (sound_step_async s (Disconnected sid)). }
  destruct e as [sid name [stats |] coin | sid gid index | sid].
  - change (step s (OnJoin sid name (Resolved stats) coin))
      with (pair_up coin (Server.enqueue sid stats (Server.announce sid name s))).
    destruct (Server_enqueue_announce sid name stats s)
      as (s1 & Hs1 & Hh & Hp & Hq & Hg & _).
    rewrite Hs1. apply seated_pair_up.
    + eapply wf_core; [.. | exact (wf_push sid name s Hwf)]; by symmetry.
    + by apply (seated_grow s s1 _ Hh).
  - by apply (seated_grow s _ [ {| Player.id := sid; Player.name := name_or_id name sid;
                                  Player.mark := MX; Player.gameId := None |} ]).
  - by apply (seated_move _ persistResultSafe_frame).
  - destruct (Server_disconnect_registry sid s Hsound) as [Hh Hsub].
    by apply (seated_sub s).
Qed.

Lemma steady_step_plain s e : steady s → steady (step_plain s e).
Proof.
  intros (Hwf & Hsound & Hs).
  split; [by apply wf_step_plain |]. split; [by apply sound_step_plain |].
  destruct e as [sid name reply coin | sid gid index | sid].
  - change (step_plain s (OnJoin sid name reply coin))
      with (pair_up coin (ServerPlain.enqueue sid name s)).
    rewrite ServerPlain_enqueue. apply seated_pair_up.
    + eapply wf_core; [.. | exact (wf_push sid name s Hwf)]; done.
    + by apply (seated_grow s _ [ {| Player.id := sid; Player.name := name_or_id name sid;
                                    Player.mark := MX; Player.gameId := None |} ]).
  - by apply (seated_move (λ _ _ s, s) no_persist_frame).
  - destruct (ServerPlain_disconnect_registry sid s Hsound) as [Hh Hsub].
    by apply (seated_sub s).
Qed.

Lemma steady_run es : steady (run es).
Proof.
  unfold run. generalize steady_init. generalize init.
  induction es as [| e es IH]; intros s Hs; [done |].
  simpl. by apply IH, steady_step.
Qed.

Lemma steady_run_plain es : steady (run_plain es).
Proof.
  unfold run_plain. generalize steady_init. generalize init.
  induction es as [| e es IH]; intros s Hs; [done |].
  simpl. by apply IH, steady_step_plain.
Qed.

(** The seat whose turn it is can move on every empty cell. *)
Lemma steady_accepts s sid k g :
  steady s →
  map_get k (games s) = Some g →
  player s !! sid = Some (Game.players g (Game.turn g)) →
  (∃ i, i < 9 ∧ Game.board g !! i = Some Empty) ∧
  ∀ index, (0 ≤ index ≤ 8)%Z →
    Game.board g !! Z.to_nat index = Some Empty →
    accepted s sid k index g (Game.players g (Game.turn g)).
Proof.
  intros (Hwf & Hsound & Hs) Hget Hp.
  destruct (sound_registered s k g Hsound Hget) as [Hid Hprog].
  split; [by apply in_progress_empty_cell |].
  intros index Hidx Hcell.
  pose proof (map_get_Some _ _ _ Hget) as Hin.
  destruct Hwf as (_ & _ & _ & Hg & _). rewrite Forall_forall in Hg.
  destruct (Hg _ Hin) as (_ & Hfin & _ & _ & _ & _ & HmX & HmO & _).
  unfold seated in Hs. rewrite Forall_forall in Hs.
  destruct (Hs _ Hin) as [HsX HsO]. cbn [fst snd] in *.
  unfold accepted. split_and!; try done; try lia.
  - by destruct (Game.turn g).
  - by destruct (Game.turn g).
Qed.

(** X16. In the second server file a registered game can always go on:
    as long as the connection whose player object holds the seat of the
    turn has not sent [join] again, some cell is empty, and that
    connection's move on any empty cell in range passes every test of the
    handler. *)
Theorem game_can_go_on_plain (es : list Input) (sid k : string) (g : Game.t) :
  map_get k (games (run_plain es)) = Some g →
  player (run_plain es) !! sid = Some (Game.players g (Game.turn g)) →
  (∃ i, i < 9 ∧ Game.board g !! i = Some Empty) ∧
  ∀ index, (0 ≤ index ≤ 8)%Z →
    Game.board g !! Z.to_nat index = Some Empty →
    accepted (run_plain es) sid k index g (Game.players g (Game.turn g)).
Proof. apply steady_accepts, steady_run_plain. Qed.

Lemma game_can_go_on_plain_witness :
  ∃ g, map_get "g_ann-s_bob-s" (games paired_plain) = Some g ∧
    (∃ i, i < 9 ∧ Game.board g !! i = Some Empty) ∧
    ∀ index, (0 ≤ index ≤ 8)%Z →
      Game.board g !! Z.to_nat index = Some Empty →
      accepted paired_plain "ann-socket" "g_ann-s_bob-s" index g
        (Game.players g (Game.turn g)).
Proof.
  eexists. split; [by vm_compute |].
  apply (game_can_go_on_plain
           [ OnJoin "ann-socket" (Some "Ann") (Resolved None) true;
             OnJoin "bob-socket" (Some "Bob") (Resolved None) true ]
           "ann-socket" "g_ann-s_bob-s"); by vm_compute.
Defined.

(** X17. The same in the server with persistence, when no other event
    is handled while a [join] is suspended: the connection whose player
    object holds the seat of the turn can move on every empty cell, and
    there is one. *)
Theorem game_can_go_on (es : list Input) (sid k : string) (g : Game.t) :
  map_get k (games (run es)) = Some g →
  player (run es) !! sid = Some (Game.players g (Game.turn g)) →
  (∃ i, i < 9 ∧ Game.board g !! i = Some Empty) ∧
  ∀ index, (0 ≤ index ≤ 8)%Z →
    Game.board g !! Z.to_nat index = Some Empty →
    accepted (run es) sid k index g (Game.players g (Game.turn g)).
Proof. apply steady_accepts, steady_run. Qed.

Lemma game_can_go_on_witness :
  ∃ g, map_get "g_ann-s_bob-s" (games (run top_row_next)) = Some g ∧
    (∃ i, i < 9 ∧ Game.board g !! i = Some Empty) ∧
    ∀ index, (0 ≤ index ≤ 8)%Z →
      Game.board g !! Z.to_nat index = Some Empty →
      accepted (run top_row_next) "ann-socket" "g_ann-s_bob-s" index g
        (Game.players g (Game.turn g)).
Proof.
  eexists. split; [by vm_compute |].
  apply (game_can_go_on top_row_next "ann-socket" "g_ann-s_bob-s"); by vm_compute.
Defined.

(** ** The second server between two events *)

Lemma queue_short_step_plain s e :
  (length (waitingQueue s) ≤ 1)%nat →
  (length (waitingQueue (step_plain s e)) ≤ 1)%nat.
Proof.
  intros Hlen. destruct e as [sid name reply coin | sid gid index | sid].
  - change (step_plain s (OnJoin sid name reply coin))
      with (pair_up coin (ServerPlain.enqueue sid name s)).
    rewrite ServerPlain_enqueue.
    set (s1 := emit sid EvWaiting _).
    assert (Hq : waitingQueue s1 = waitingQueue s ++ [length (heap s)]) by done.
    clearbody s1. unfold pair_up.
    destruct (waitingQueue s) as [| r [| r' q]]; simpl in Hq, Hlen;
      [| | lia]; rewrite Hq.
    + rewrite Hq. simpl. lia.
    + rewrite startMatch_queue. simpl. lia.
  - change (step_plain s (OnMove sid gid index))
      with (ServerPlain.move sid gid index s).
    unfold ServerPlain.move.
    by destruct (move_frame (λ _ _ s, s) no_persist_frame s sid gid index)
      as (_ & _ & ->).
  - change (step_plain s (OnDisconnect sid)) with (ServerPlain.disconnect sid s).
    destruct (leave_queue_frame sid s) as (_ & _ & _ & _ & _ & Hsub).
    apply sublist_length in Hsub.
    unfold ServerPlain.disconnect.
    destruct (list_find _ _) as [[i [k g]] |]; [| lia].
    destruct (ServerPlain_forfeit_frame sid (leave_queue sid s) i g) as (_ & _ & ->).
    lia.
Qed.

(** X18. Every state the second server reaches by join, move and
    disconnect events is well formed (the queue holds distinct allocated
    player objects; the registry has one entry per id; each game has two
    distinct player objects that carry X and O and do not wait in the
    queue; each connection's player object carries the connection's id),
    the two player objects of every registered game carry the id of that
    game, and at most one player waits. *)
Theorem plain_server_steady (es : list Input) :
  wf (run_plain es) ∧ seated (run_plain es) ∧
  (length (waitingQueue (run_plain es)) ≤ 1)%nat.
Proof.
  destruct (steady_run_plain es) as (Hwf & _ & Hs). split_and!; [done | done |].
  clear Hwf Hs. unfold run_plain.
  assert (length (waitingQueue init) ≤ 1)%nat as H by (simpl; lia).
  revert H. generalize init.
  induction es as [| e es IH]; intros s Hlen; [done |].
  simpl. apply IH, queue_short_step_plain, Hlen.
Qed.

(** ** One row for each player *)

Lemma normalizeName_trim name : Db.normalizeName (trim name) = Db.normalizeName name.
Proof. unfold Db.normalizeName. by rewrite trim_idempotent. Qed.

(** X19. The three places that call the store for a player use the same
    row. For a player name with something other than white space in it,
    the call of [join] ([ensurePlayerStats] with the name), the calls of
    a result by play ([persistResultSafe], with the trimmed name) and the
    calls of a result by disconnection (with the name as it is) each
    execute one statement on the key [normalizeName name]. For a name of
    white space only, [join] and the disconnection calls execute nothing,
    and the result by play goes to the fallback name. *)
Theorem one_row_per_player (name fallback : string) (t : gmap string Db.Row) :
  (trim name ≠ "" →
   Db.normalizeName name ≠ "" ∧
   (run_call (EnsurePlayerStats name) t).2 = [Db.UpsertZero (Db.normalizeName name)] ∧
   (∀ call, call ∈ [AddWin; AddLoss; AddDraw] →
      run_call (call (Server.trimmed_or name fallback)) t = run_call (call name) t) ∧
   (run_call (AddWin name) t).2 = [Db.UpsertWin (Db.normalizeName name)] ∧
   (run_call (AddLoss name) t).2 = [Db.UpsertLoss (Db.normalizeName name)] ∧
   (run_call (AddDraw name) t).2 = [Db.UpsertDraw (Db.normalizeName name)]) ∧
  (trim name = "" →
   Server.trimmed_or name fallback = fallback ∧
   ∀ call, call ∈ [EnsurePlayerStats; AddWin; AddLoss; AddDraw] →
     run_call (call name) t = (t, [])).
Proof.
  split.
  - intros Hn. pose proof (normalizeName_nonblank name Hn) as Hk.
    assert (Server.trimmed_or name fallback = trim name) as ->.
    { unfold Server.trimmed_or. by rewrite decide_False. }
    split_and!; try done.
    + simpl. unfold Db.ensurePlayerStats. cbv zeta. by rewrite decide_False.
    + intros call Hc. simpl.
      unfold Db.addWin, Db.addLoss, Db.addDraw.
      repeat (apply elem_of_cons in Hc as [-> | Hc]);
        [| | | by apply elem_of_nil in Hc];
        simpl; unfold Db.addWin, Db.addLoss, Db.addDraw; cbv zeta;
        by rewrite normalizeName_trim.
    + simpl. unfold Db.addWin. cbv zeta. by rewrite decide_False.
    + simpl. unfold Db.addLoss. cbv zeta. by rewrite decide_False.
    + simpl. unfold Db.addDraw. cbv zeta. by rewrite decide_False.
  - intros Hn. pose proof (normalizeName_blank name Hn) as Hk. split.
    + unfold Server.trimmed_or. by rewrite decide_True.
    + intros call Hc.
      repeat (apply elem_of_cons in Hc as [-> | Hc]);
        [| | | | by apply elem_of_nil in Hc];
        simpl; unfold Db.ensurePlayerStats, Db.addWin, Db.addLoss, Db.addDraw;
        cbv zeta; by rewrite decide_True.
Qed.

(** ** The client *)

Lemma trim_nonblank_nonempty name : trim name ≠ "" → trim (trim name) ≠ "".
Proof. by rewrite trim_idempotent. Qed.

(** X20. The name a player gets when the client of this repository
    joins: the client sends the trimmed input, or nothing when the input
    is blank; the server then names the player by the trimmed input, or
    by the connection's id. A name that came from the input has no white
    space at either end, is not blank, and is what [persistResultSafe]
    passes to the store. *)
Theorem client_join_name (input sid : string) :
  name_or_id (joinQueue_name input) sid =
    (if decide (trim input = "") then sid else trim input) ∧
  (trim input ≠ "" →
   trim (name_or_id (joinQueue_name input) sid) = name_or_id (joinQueue_name input) sid ∧
   Db.normalizeName (name_or_id (joinQueue_name input) sid) = Db.normalizeName input ∧
   ∀ fallback,
     Server.trimmed_or (name_or_id (joinQueue_name input) sid) fallback =
     name_or_id (joinQueue_name input) sid).
Proof.
  unfold joinQueue_name. destruct (decide (trim input = "")) as [He | Hne].
  - split; [done | by intros ?].
  - assert (name_or_id (Some (trim input)) sid = trim input) as ->.
    { unfold name_or_id. by rewrite decide_False. }
    split; [done |]. intros _. split_and!.
    + apply trim_idempotent.
    + apply normalizeName_trim.
    + intros fallback. unfold Server.trimmed_or.
      by rewrite trim_idempotent, decide_False.
Qed.

Lemma drop_slashes_head s :
  ∀ c rest, drop_slashes s = String c rest → c ≠ "/"%char.
Proof.
  induction s as [| a s IH]; simpl; [done |].
  case_decide as Ha; [done |]. by intros c rest [= <- _].
Qed.

Lemma strip_trailing_slashes_end s : no_slash_end (strip_trailing_slashes s).
Proof.
  unfold no_slash_end, strip_trailing_slashes. rewrite rev_involutive.
  apply drop_slashes_head.
Qed.

Lemma prefix_slash path :
  String.prefix "/" path = true → ∃ rest, path = "/" +:+ rest.
Proof.
  destruct path as [| c rest]; [done |].
  change (String.prefix "/" (String c rest))
    with (if ascii_dec "/" c then String.prefix "" rest else false).
  destruct (ascii_dec "/" c) as [<- |]; [| done]. by exists rest.
Qed.

(** X21. The URLs the client builds: [resolveServerUrl] returns the
    empty string for a blank setting and never a string that ends in a
    slash; [apiUrl] puts the base in front of the path, which it makes
    start with a slash, and returns the path alone for the empty base.
    So a request goes to [base/path] with exactly the slashes of the path
    at the junction, or to the page's own origin. *)
Theorem client_urls (raw path : string) :
  (trim raw = "" → resolveServerUrl raw = "") ∧
  no_slash_end (resolveServerUrl raw) ∧
  (∃ rest, apiUrl path "" = "/" +:+ rest ∧
           (path = "/" +:+ rest ∨ (path = rest ∧ String.prefix "/" path = false))) ∧
  apiUrl path (resolveServerUrl raw) = resolveServerUrl raw +:+ apiUrl path "".
Proof.
  split_and!.
  - intros Hb. unfold resolveServerUrl. cbv zeta. by rewrite decide_True.
  - unfold resolveServerUrl. cbv zeta. case_decide; [done |].
    apply strip_trailing_slashes_end.
  - unfold apiUrl. cbv zeta. rewrite decide_True by done.
    destruct (String.prefix "/" path) eqn:Hp.
    + destruct (prefix_slash path Hp) as [rest ->]. exists rest. by split; [| left].
    + exists path. by split; [| right].
  - unfold apiUrl. cbv zeta. rewrite (decide_True (P := "" = "")) by done.
    by case_decide as Hb; [rewrite Hb |].
Qed.

(** ** The queue when [join] is suspended *)

(** Why the properties of interrupted handlers speak of the registry and
    the queue length only: both resumptions of [twice_called] push the
    player object of the second call, which is then paired with itself,
    so the state is not well formed. *)
Lemma twice_called_pairs_with_itself :
  ∃ g, map_get "g_ann-s_ann-s" (games (run_async twice_called)) = Some g ∧
    Game.players_X g = Game.players_O g ∧
    (wf (run_async twice_called) → False).
Proof.
  eexists. split; [by vm_compute |]. split; [done |].
  intros Hwf%(bool_decide_pack _). by vm_compute in Hwf.
Qed.

Lemma queue_short_step_async s a :
  (length (waitingQueue s) ≤ 1)%nat →
  (length (waitingQueue (step_async s a)) ≤ 1)%nat.
Proof.
  intros Hlen. destruct a as [sid name | sid stats coin | sid gid index | sid].
  - done.
  - change (step_async s (JoinResumed sid stats coin))
      with (pair_up coin (Server.enqueue sid stats s)).
    unfold Server.enqueue. destruct (player s !! sid) as [r |].
    + set (s1 := emit sid EvWaiting _).
      assert (Hq : waitingQueue s1 = waitingQueue s ++ [r]) by done.
      clearbody s1. unfold pair_up.
      destruct (waitingQueue s) as [| r0 [| r' q]]; simpl in Hq, Hlen;
        [| | lia]; rewrite Hq.
      * rewrite Hq. simpl. lia.
      * rewrite startMatch_queue. simpl. lia.
    + unfold pair_up. destruct (waitingQueue s) as [| r0 [| r' q]] eqn:Hq;
        simpl in Hlen; [rewrite Hq; simpl; lia .. | lia].
  - change (step_async s (MoveSent sid gid index)) with (Server.move sid gid index s).
    unfold Server.move.
    by destruct (move_frame Server.persistResultSafe persistResultSafe_frame
                   s sid gid index) as (_ & _ & ->).
  - change (step_async s (Disconnected sid)) with (Server.disconnect sid s).
    destruct (leave_queue_frame sid s) as (_ & _ & _ & _ & _ & Hsub).
    apply sublist_length in Hsub.
    unfold Server.disconnect.
    destruct (list_find _ _) as [[i [k g]] |]; [| lia].
    destruct (Server_forfeit_frame sid (leave_queue sid s) i g) as (_ & _ & ->).
    lia.
Qed.

(** X22. At most one player waits between two events of the server with
    persistence, also when other events are handled while [join] handlers
    are suspended: a resumption that pushes a second entry pairs the two
    at once. *)
Theorem one_waiting_player (tr : list Async) :
  (length (waitingQueue (run_async tr)) ≤ 1)%nat.
Proof.
  unfold run_async.
  assert (length (waitingQueue init) ≤ 1)%nat as H by (simpl; lia).
  revert H. generalize init.
  induction tr as [| a tr IH]; intros s Hs; [done |].
  simpl. apply IH, queue_short_step_async, Hs.
Qed.

(** ** The profile a joining player is shown *)

Lemma pair_up_emitted coin s : ∃ later, emitted (pair_up coin s) = emitted s ++ later.
Proof.
  unfold pair_up. destruct (waitingQueue s) as [| p1 [| p2 rest]];
    [exists []; by rewrite app_nil_r .. |].
  eexists. unfold startMatch. cbv zeta.
  cbn [emitted emit mutate with_heap with_games with_queue].
  rewrite <- !app_assoc. reflexivity.
Qed.

(** X23. What [join] shows the player when the store answers with what
    [ensurePlayerStats] returns: the handler sends [profile] with the
    player's name, the answer and whether there is one, then [waiting],
    before anything else. For a name of white space only the answer is
    [null]; for any other name whose trimmed form has at most 64
    characters the answer is the row of the player, with the counters the
    store had for that name before the call, or zeros. *)
Theorem join_profile (sid : string) (name : option string) (coin : bool)
    (s : State) (t : gmap string Db.Row) :
  let n := name_or_id name sid in
  let answer := (Db.ensurePlayerStats n t).2 in
  (∃ later,
     emitted (Server.join sid name (Resolved answer) coin s) =
     emitted s ++ [ (sid, EvProfile n (bool_decide (is_Some answer)) answer);
                    (sid, EvWaiting) ] ++ later) ∧
  (trim n = "" → answer = None) ∧
  (trim n ≠ "" → (String.length (trim n) ≤ 64)%nat →
   ∃ st, answer = Some st ∧
     Db.getPlayerStats n (Db.ensurePlayerStats n t).1.1 = Some st ∧
     Db.counters (Some st) = Db.counters (Db.getPlayerStats n t)).
Proof.
  intros n answer. split_and!.
  - unfold Server.join.
    destruct (Server_enqueue_announce sid name answer s)
      as (s1 & -> & _ & _ & _ & _ & _ & Hem).
    destruct (pair_up_emitted coin s1) as [later ->].
    exists later. by rewrite Hem, <- app_assoc.
  - intros Hb. unfold answer, Db.ensurePlayerStats. cbv zeta.
    by rewrite decide_True by by apply normalizeName_blank.
  - intros Hn Hlen. pose proof (normalizeName_nonblank n Hn) as Hk.
    unfold answer, Db.ensurePlayerStats. cbv zeta.
    rewrite !decide_False by done. cbn [fst snd Db.execute].
    unfold Db.getPlayerStats at 1. cbv zeta.
    rewrite normalizeName_stable by done. rewrite decide_False by done.
    rewrite !getPlayerStats_lookup, lookup_upsert, decide_True by done.
    eexists. split; [reflexivity |]. split; [reflexivity |].
    by destruct (t !! Db.normalizeName n).
Qed.

(** * The first server with its [join] handlers suspended *)

(** ** What every state has *)

Lemma linked_init : linked init.
Proof. split; [apply map_Forall_empty | constructor]. Qed.

Lemma wf_conn_ids s s' sid r :
  (length (heap s) ≤ length (heap s'))%nat →
  (r < length (heap s) → Player.id (deref s' r) = Player.id (deref s r)) →
  wf_conn s sid r → wf_conn s' sid r.
Proof.
  intros Hlen Hid [Hr Hsid]. split; [lia |]. by rewrite Hid.
Qed.

Lemma linked_call sid name s : linked s → linked (Server.announce sid name s).
Proof.
  intros [Hp Hq].
  set (p := {| Player.id := sid; Player.name := name_or_id name sid;
               Player.mark := MX; Player.gameId := None |}).
  set (s' := Server.announce sid name s).
  assert (Hheap : heap s' = heap s ++ [p]) by done.
  assert (Hlen : length (heap s') = S (length (heap s))).
  { rewrite Hheap, length_app. simpl. lia. }
  split.
  - change (player s') with (<[sid := length (heap s)]> (player s)).
    apply map_Forall_insert_2.
    + split; [lia |]. unfold deref. rewrite Hheap.
      rewrite lookup_app_r by lia. by rewrite Nat.sub_diag.
    + intros sid' r Hr. apply (wf_conn_ids s); [lia | | by apply Hp].
      intros Hlt. by rewrite (deref_grow s s' [p]).
  - change (waitingQueue s') with (waitingQueue s).
    eapply Forall_impl; [exact Hq |]. intros r Hr. cbv beta in Hr.
    rewrite Hlen. lia.
Qed.

Lemma Server_enqueue_cases sid stats s :
  (player s !! sid = None ∧ Server.enqueue sid stats s = s) ∨
  (∃ r, player s !! sid = Some r ∧
     heap (Server.enqueue sid stats s) = heap s ∧
     player (Server.enqueue sid stats s) = player s ∧
     games (Server.enqueue sid stats s) = games s ∧
     waitingQueue (Server.enqueue sid stats s) = waitingQueue s ++ [r]).
Proof.
  unfold Server.enqueue. destruct (player s !! sid) as [r |]; [right | by left].
  by exists r.
Qed.

Lemma linked_heap s s' :
  heap s' = heap s → player s' = player s →
  (∀ r, r ∈ waitingQueue s' → r ∈ waitingQueue s ∨ ∃ sid, player s !! sid = Some r) →
  linked s → linked s'.
Proof.
  intros Hh Hp Hq [Hconn Hqueue]. split.
  - rewrite Hp. intros sid r Hr. apply (wf_conn_ids s).
    + by rewrite Hh.
    + intros _. by rewrite (deref_heap s' s).
    + by apply Hconn.
  - apply Forall_forall. intros r Hr. rewrite Hh.
    destruct (Hq r Hr) as [Hin | [sid Hsid]].
    + rewrite Forall_forall in Hqueue. by apply Hqueue.
    + by destruct (Hconn sid r Hsid).
Qed.

Lemma linked_enqueue sid stats s : linked s → linked (Server.enqueue sid stats s).
Proof.
  intros Hl.
  destruct (Server_enqueue_cases sid stats s)
    as [[_ ->] | (r & Hr & Hh & Hp & _ & Hq)]; [done |].
  apply (linked_heap s); [done | done | | done].
  intros r'. rewrite Hq, elem_of_app, list_elem_of_singleton.
  intros [? | ->]; [by left | right; by exists sid].
Qed.

Lemma linked_pair_up coin s : linked s → linked (pair_up coin s).
Proof.
  intros [Hconn Hqueue]. unfold pair_up.
  destruct (waitingQueue s) as [| p1 [| p2 rest]] eqn:Hq;
    [by split; [| rewrite Hq] .. |].
  set (s0 := with_queue rest s).
  split.
  - rewrite startMatch_player. intros sid r Hr.
    apply (wf_conn_ids s); [| | by apply Hconn].
    + by rewrite startMatch_length.
    + intros _. apply (startMatch_identity coin p1 p2 s0 r).
  - rewrite startMatch_queue, startMatch_length.
    by do 2 apply Forall_cons in Hqueue as [_ Hqueue].
Qed.

Lemma allocated_grow s s' :
  (length (heap s) ≤ length (heap s'))%nat → games s' = games s →
  allocated s → allocated s'.
Proof.
  intros Hlen Hg Ha. unfold allocated. rewrite Hg.
  eapply Forall_impl; [exact Ha |]. simpl. lia.
Qed.

Lemma allocated_sub s s' :
  heap s' = heap s → sublist (games s') (games s) → allocated s → allocated s'.
Proof.
  intros Hh Hsub Ha. unfold allocated in *. rewrite Hh.
  rewrite Forall_forall in *. intros e He. apply Ha.
  by eapply elem_of_sublist.
Qed.

Lemma allocated_pair_up coin s : linked s → allocated s → allocated (pair_up coin s).
Proof.
  intros [_ Hqueue] Ha. unfold pair_up.
  destruct (waitingQueue s) as [| p1 [| p2 rest]] eqn:Hq; [done | done |].
  apply Forall_cons in Hqueue as [H1 Hqueue].
  apply Forall_cons in Hqueue as [H2 _].
  unfold allocated. rewrite startMatch_games, startMatch_length.
  apply Forall_forall. intros e [-> | He]%map_set_elem.
  - cbn [snd started_game Game.players_X Game.players_O with_queue heap].
    destruct coin; [rewrite decide_True by done | destruct (decide (p2 = p1))];
      done.
  - unfold allocated in Ha. rewrite Forall_forall in Ha. by apply Ha.
Qed.

Lemma allocated_Server_move sid gameId index s :
  sound s → allocated s → allocated (Server.move sid gameId index s).
Proof.
  intros Hsound Ha. unfold Server.move.
  destruct (move_frame Server.persistResultSafe persistResultSafe_frame
              s sid gameId index) as (Hh & _).
  destruct (move_games Server.persistResultSafe persistResultSafe_frame
              s sid gameId index Hsound) as [[_ Hg] | (game & r & Hacc & Hg)].
  - apply (allocated_sub s); [done | by rewrite Hg | done].
  - destruct (checkWinner _).
    + apply (allocated_sub s); [done | | done]. rewrite Hg.
      apply map_delete_sublist.
    + unfold allocated. rewrite Hg, Hh. apply Forall_forall.
      unfold allocated in Ha. rewrite Forall_forall in Ha.
      intros e [-> | He]%map_set_elem; [| by apply Ha].
      destruct Hacc as (Hget%map_get_Some & _). exact (Ha _ Hget).
Qed.

Lemma Server_disconnect_queue sid s :
  player (Server.disconnect sid s) = player s ∧
  sublist (waitingQueue (Server.disconnect sid s)) (waitingQueue s).
Proof.
  destruct (leave_queue_frame sid s) as (_ & Hp & _ & _ & _ & Hsub).
  unfold Server.disconnect.
  destruct (list_find _ _) as [[i [k g]] |]; [| done].
  by destruct (Server_forfeit_frame sid (leave_queue sid s) i g) as (_ & -> & ->).
Qed.

Lemma kept_init : kept init.
Proof.
  split_and!; [apply sound_init | apply linked_init | constructor | simpl; lia].
Qed.

Lemma kept_step_async s a : kept s → kept (step_async s a).
Proof.
  intros (Hsound & Hl & Ha & Hlen).
  split; [by apply sound_step_async |].
  split; [| split; [| by apply queue_short_step_async]].
  - destruct a as [sid name | sid stats coin | sid gid index | sid]; simpl.
    + by apply linked_call.
    + by apply linked_pair_up, linked_enqueue.
    + destruct (move_frame Server.persistResultSafe persistResultSafe_frame
                  s sid gid index) as (Hh & Hp & Hq).
      apply (linked_heap s); [done | done | | done].
      intros r. unfold Server.move. rewrite Hq. by left.
    + destruct (Server_disconnect_registry sid s Hsound) as [Hh _].
      destruct (Server_disconnect_queue sid s) as [Hp Hq].
      apply (linked_heap s); [done | done | | done].
      intros r Hr. left. by eapply elem_of_sublist.
  - destruct a as [sid name | sid stats coin | sid gid index | sid]; simpl.
    + apply (allocated_grow s); [| done | done].
      change (heap (Server.announce sid name s))
        with (heap s ++ [ {| Player.id := sid; Player.name := name_or_id name sid;
                             Player.mark := MX; Player.gameId := None |} ]).
      rewrite length_app. lia.
    + apply allocated_pair_up; [by apply linked_enqueue |].
      destruct (Server_enqueue_cases sid stats s)
        as [[_ ->] | (r & _ & Hh & _ & Hg & _)]; [done |].
      apply (allocated_grow s); [by rewrite Hh | done | done].
    + by apply allocated_Server_move.
    + destruct (Server_disconnect_registry sid s Hsound) as [Hh Hsub].
      by apply (allocated_sub s).
Qed.

Lemma kept_run_async tr : kept (run_async tr).
Proof.
  unfold run_async. generalize kept_init. generalize init.
  induction tr as [| a tr IH]; intros s Hs; [done |].
  simpl. by apply IH, kept_step_async.
Qed.

(** X1. Every state the server with persistence reaches is tidy, also
    when other events are handled while [join] handlers are suspended:
    the queue holds allocated player objects, none of them twice; the
    registry has one entry per id, and each game is stored under its own
    id, is not finished, has nine cells and two allocated player objects
    in its seats; each connection's player object is allocated and
    carries the connection's id. *)
Theorem tidy_run_async (tr : list Async) : tidy (run_async tr).
Proof.
  destruct (kept_run_async tr) as ([Hnd Hsound] & [Hconn Hqueue] & Ha & Hlen).
  split_and!; [done | | done | | done].
  - destruct (waitingQueue (run_async tr)) as [| r [| r' q]];
      [constructor | | simpl in Hlen; lia].
    apply NoDup_singleton.
  - unfold allocated in Ha. rewrite Forall_forall in *.
    intros e He. destruct (Hsound e He) as (Hid & Hfin & Hb & _).
    destruct (Ha e He) as [HX HO]. by split_and!.
Qed.

(** ** C6: moves after the end of a match *)

Lemma move_unregistered on_result sid gameId index s :
  map_get gameId (games s) = None → move on_result sid gameId index s = s.
Proof. intros H. unfold move. by rewrite H. Qed.

Lemma Server_enqueue_heap sid stats s : heap (Server.enqueue sid stats s) = heap s.
Proof. unfold Server.enqueue. by destruct (player s !! sid). Qed.

(** The event that ends a match removes it from the registry. *)
Lemma ends_removes s a gameId :
  sound s → ends s a gameId → map_get gameId (games (step_async s a)) = None.
Proof.
  intros Hsound Hend.
  destruct a as [| | sid gid index | sid]; [done | done | |].
  - destruct Hend as (-> & game & r & Ha & [res Hres]). simpl. unfold Server.move.
    destruct (move_games Server.persistResultSafe persistResultSafe_frame
                s sid gameId index Hsound) as [[Hn _] | (game0 & r0 & Ha0 & Hg)].
    { destruct Hn. by exists game, r. }
    assert (game0 = game ∧ r0 = r) as [-> ->].
    { destruct Ha0 as (Hget0 & _ & Hp0 & _), Ha as (Hget & _ & Hp & _).
      split; congruence. }
    rewrite Hg, Hres. apply map_get_delete_eq. by destruct Hsound.
  - destruct Hend as (i & k & g & Hfind & <-). simpl.
    destruct (leave_queue_frame sid s) as (_ & _ & Hg & _).
    pose proof Hfind as (Hi & _)%list_find_Some.
    rewrite (Server_disconnect_found s sid i k g Hfind).
    rewrite Server_forfeit_registry, Hg.
    destruct Hsound as [Hnd Hall].
    assert (Game.id g = k) as Hid.
    { rewrite Forall_forall in Hall.
      by destruct (Hall (k, g) (list_elem_of_lookup_2 _ _ _ Hi)). }
    rewrite (finish_delete _ i k g Hnd Hi Hid), Hid.
    by apply (map_get_delete_lookup _ _ _ g).
Qed.

(** An event that starts no match under [gameId] leaves the id
    unregistered. *)
Lemma absent_step_async s a gameId :
  sound s → ¬ registers s a gameId →
  map_get gameId (games s) = None →
  map_get gameId (games (step_async s a)) = None.
Proof.
  intros Hsound Hreg Habs.
  destruct a as [sid name | sid stats coin | sid gid index | sid]; simpl.
  - done.
  - simpl in Hreg. unfold pair_up.
    pose proof (Server_enqueue_games sid stats s) as Hg.
    pose proof (Server_enqueue_heap sid stats s) as Hh.
    destruct (waitingQueue (Server.enqueue sid stats s)) as [| p1 [| p2 rest]];
      [by rewrite Hg | by rewrite Hg |].
    rewrite startMatch_games.
    cbn [games with_queue]. rewrite Hg.
    rewrite map_get_set_ne; [done |].
    unfold deref. cbn [heap with_queue]. by rewrite Hh.
  - unfold Server.move.
    destruct (move_games Server.persistResultSafe persistResultSafe_frame
                s sid gid index Hsound) as [[_ ->] | (game & r & Ha & ->)];
      [done |].
    assert (gameId ≠ gid) as Hne.
    { intros ->. destruct Ha as (Hget & _). congruence. }
    destruct (checkWinner _).
    + by rewrite map_get_delete_ne.
    + by rewrite map_get_set_ne.
  - destruct (Server_disconnect_registry sid s Hsound) as [_ Hsub].
    apply map_get_None. apply map_get_None in Habs.
    intros Hin. apply Habs.
    eapply elem_of_sublist; [exact Hin |]. by apply fmap_sublist.
Qed.

Lemma absent_steps tr s gameId :
  sound s → never_registers s tr gameId →
  map_get gameId (games s) = None →
  map_get gameId (games (foldl step_async s tr)) = None.
Proof.
  revert s. induction tr as [| a tr IH]; intros s Hsound Hnev Habs; [done |].
  destruct Hnev as [Hreg Hnev]. simpl. apply IH; [| done |].
  - by apply sound_step_async.
  - by apply absent_step_async.
Qed.

(** Against C6 as stated: the finished match is gone from the registry,
    but the new match of the same two connections gets the same id, and a
    move that names the id is applied to it. *)
Lemma move_after_rematch_counterexample :
  map_get "g_ann-s_bob-s" (games decided) = None ∧
  emitted decided !! 18 = Some ("ann-socket", EvGameOver "g_ann-s_bob-s" (Won MX)) ∧
  ∃ game,
    map_get "g_ann-s_bob-s"
      (games (Server.move "ann-socket" "g_ann-s_bob-s" 4 rematch)) = Some game ∧
    Game.board game !! 4 = Some (Marked MX) ∧
    length (emitted (Server.move "ann-socket" "g_ann-s_bob-s" 4 rematch)) =
    length (emitted rematch) + 2.
Proof.
  split_and!; [by vm_compute | by vm_compute |].
  eexists. split_and!; by vm_compute.
Qed.

(** C6 (amended). The event that ends a match, a deciding move or the
    disconnect of one of its players, removes it from the registry; from
    then on, through any events (moves, disconnections, calls and
    resumptions of [join] in any order) none of which starts a match under
    the same id, the id stays unregistered and every move that names it is
    dropped: the state, the events sent so far included, is unchanged.
    This lasts until the resumption of a [join] starts a match under the
    same id, which the same two connections do when they are paired again
    in the same order. *)
Theorem finished_match_ignores_moves (tr0 : list Async) (a : Async)
    (gameId : string) (tr : list Async) (sid : string) (index : Z) :
  ends (run_async tr0) a gameId →
  never_registers (step_async (run_async tr0) a) tr gameId →
  let s' := foldl step_async (step_async (run_async tr0) a) tr in
  map_get gameId (games s') = None ∧
  Server.move sid gameId index s' = s'.
Proof.
  intros Hend Hnev s'.
  assert (Habs : map_get gameId (games s') = None).
  { apply absent_steps; [| done |].
    - apply sound_step_async, sound_run_async.
    - apply ends_removes; [apply sound_run_async | done]. }
  split; [done |]. by apply move_unregistered.
Qed.

(** Ann completes the top row; Bob's later moves that name the game are
    dropped, also after Cid and Dan have joined and been paired. *)
Lemma finished_match_ignores_moves_witness :
  let s' := foldl step_async
              (step_async (run_async top_row_async)
                 (MoveSent "ann-socket" "g_bob-s_ann-s" 2)) after_the_end in
  map_get "g_bob-s_ann-s" (games s') = None ∧
  Server.move "bob-socket" "g_bob-s_ann-s" 6 s' = s'.
Proof.
  apply (finished_match_ignores_moves top_row_async
           (MoveSent "ann-socket" "g_bob-s_ann-s" 2) "g_bob-s_ann-s"
           after_the_end "bob-socket" 6).
  - split; [done |]. exists top_row_game, 0. split.
    + apply (bool_decide_unpack _). by vm_compute.
    + exists (Won MX). by vm_compute.
  - apply (bool_decide_unpack _). by vm_compute.
Defined.

(** ** The resumption of [join] *)

Lemma pair_up_two coin s p1 p2 :
  waitingQueue s = [p1; p2] →
  waitingQueue (pair_up coin s) = [] ∧
  games (pair_up coin s) =
    map_set (new_gameId (Player.id (deref s p1)) (Player.id (deref s p2)))
            (started_game coin p1 p2 s) (games s) ∧
  player (pair_up coin s) = player s ∧
  length (heap (pair_up coin s)) = length (heap s) ∧
  (∀ r, Player.id (deref (pair_up coin s) r) = Player.id (deref s r)) ∧
  pairs (pair_up coin s) (started_game coin p1 p2 s)
        (Player.id (deref s p1)) (Player.id (deref s p2)).
Proof.
  intros Hq. unfold pair_up. rewrite Hq.
  set (s0 := with_queue [] s).
  assert (Hid : ∀ r, Player.id (deref (startMatch coin p1 p2 s0) r) =
                     Player.id (deref s r)).
  { intros r. apply (startMatch_identity coin p1 p2 s0 r). }
  split_and!; try done.
  - exact (startMatch_length coin p1 p2 s0).
  - unfold pairs. rewrite !Hid.
    cbn [started_game Game.players_X Game.players_O].
    destruct coin.
    + rewrite decide_True by done. by left.
    + destruct (decide (p2 = p1)) as [-> | Hne]; [by left | by right].
Qed.

(** The resumption pushes the connection's player object; alone in the
    queue it waits, behind another entry it is paired with it. *)
Lemma resume_waits sid stats coin s r :
  player s !! sid = Some r → waitingQueue s = [] →
  waitingQueue (step_async s (JoinResumed sid stats coin)) = [r] ∧
  games (step_async s (JoinResumed sid stats coin)) = games s ∧
  heap (step_async s (JoinResumed sid stats coin)) = heap s ∧
  player (step_async s (JoinResumed sid stats coin)) = player s.
Proof.
  intros Hr Hq. simpl.
  destruct (Server_enqueue_cases sid stats s)
    as [[Hn _] | (r' & Hr' & Hh & Hp & Hg & Hq1)]; [congruence |].
  assert (r' = r) as -> by congruence.
  rewrite Hq in Hq1. simpl in Hq1. unfold pair_up. by rewrite Hq1.
Qed.

Lemma resume_pairs sid stats coin s p r :
  player s !! sid = Some r → waitingQueue s = [p] →
  waitingQueue (step_async s (JoinResumed sid stats coin)) = [] ∧
  games (step_async s (JoinResumed sid stats coin)) =
    map_set (new_gameId (Player.id (deref s p)) (Player.id (deref s r)))
            (started_game coin p r s) (games s) ∧
  player (step_async s (JoinResumed sid stats coin)) = player s ∧
  length (heap (step_async s (JoinResumed sid stats coin))) = length (heap s) ∧
  (∀ r', Player.id (deref (step_async s (JoinResumed sid stats coin)) r') =
         Player.id (deref s r')) ∧
  pairs (step_async s (JoinResumed sid stats coin)) (started_game coin p r s)
        (Player.id (deref s p)) (Player.id (deref s r)).
Proof.
  intros Hr Hq. simpl.
  destruct (Server_enqueue_cases sid stats s)
    as [[Hn _] | (r' & Hr' & Hh & Hp & Hg & Hq1)]; [congruence |].
  assert (r' = r) as -> by congruence.
  rewrite Hq in Hq1. simpl in Hq1.
  destruct (pair_up_two coin (Server.enqueue sid stats s) p r Hq1)
    as (H1 & H2 & H3 & H4 & H5 & H6).
  assert (Hd : ∀ x, deref (Server.enqueue sid stats s) x = deref s x).
  { intros x. by apply deref_heap. }
  assert (Hst : started_game coin p r (Server.enqueue sid stats s) =
                started_game coin p r s).
  { unfold started_game. by rewrite !Hd. }
  rewrite Hst, !Hd, Hg in *. rewrite H3, H4, Hp, Hh.
  split_and!; try done. intros x. by rewrite H5, Hd.
Qed.

(** ** C4: joining twice *)

Lemma filter_ext_Forall {A} (P Q : A → Prop)
    `{!∀ x, Decision (P x)} `{!∀ x, Decision (Q x)} (l : list A) :
  Forall (λ x, P x ↔ Q x) l → filter P l = filter Q l.
Proof.
  induction 1 as [| x l Hx _ IH]; [done |].
  rewrite !filter_cons, IH.
  destruct (decide (P x)) as [HP | HP], (decide (Q x)) as [HQ | HQ];
    [done | by destruct HQ; apply Hx | by destruct HP; apply Hx | done].
Qed.

Lemma in_queue_ids s s' sid (l : list ref) :
  (∀ r, Player.id (deref s' r) = Player.id (deref s r)) →
  filter (in_queue s' sid) l = filter (in_queue s sid) l.
Proof.
  intros Hid. apply filter_ext_Forall, Forall_forall. intros r _.
  unfold in_queue. by rewrite Hid.
Qed.

(** Against C4 as stated: Ann waits and her connection sends [join] a
    second time. When that handler resumes, a second entry of the identity
    is pushed behind the first, and the pairing step then matches the
    identity against itself, so that no entry for it is left. *)
Lemma join_twice_counterexample :
  let waiting := run_async [ JoinCalled "ann-socket" (Some "Ann");
                             JoinResumed "ann-socket" None true ] in
  let pushed := Server.enqueue "ann-socket" None (run_async ann_called_again) in
  let joined := run_async (ann_called_again ++
                           [ JoinResumed "ann-socket" None true ]) in
  entries_for waiting "ann-socket" = 1 ∧
  entries_for pushed "ann-socket" = 2 ∧
  entries_for joined "ann-socket" = 0 ∧
  ∃ g, games joined = [("g_ann-s_ann-s", g)] ∧
       pairs joined g "ann-socket" "ann-socket".
Proof.
  cbv zeta. split_and!; [by vm_compute | by vm_compute | by vm_compute |].
  eexists. split; [by vm_compute |]. left. by vm_compute.
Qed.

(** C4 (amended). The call of [join] makes a new player object the
    connection's own and leaves the queue alone. The resumption, in every
    state the server reaches, pushes the object that is the connection's
    at that moment onto the tail of the queue without looking for the
    identity: the identity has one entry more than before, whether or not
    it was waiting already, and the other identities have as many as
    before. The pairing step follows; when the identity was waiting alone,
    its two entries are matched against each other and the queue is left
    empty. *)
Theorem enqueue_always_appends (tr : list Async) (sid : string)
    (stats : option Db.Stats) (r : ref) :
  player (run_async tr) !! sid = Some r →
  let s := run_async tr in
  let s1 := Server.enqueue sid stats s in
  (∀ name, player (step_async s (JoinCalled sid name)) !! sid = Some (length (heap s)) ∧
           waitingQueue (step_async s (JoinCalled sid name)) = waitingQueue s) ∧
  waitingQueue s1 = waitingQueue s ++ [r] ∧
  Player.id (deref s1 r) = sid ∧
  entries_for s1 sid = S (entries_for s sid) ∧
  (∀ sid', sid' ≠ sid → entries_for s1 sid' = entries_for s sid') ∧
  (∀ coin p, waitingQueue s = [p] → in_queue s sid p →
     let s2 := step_async s (JoinResumed sid stats coin) in
     waitingQueue s2 = [] ∧ entries_for s2 sid = 0 ∧
     ∃ g, map_get (new_gameId sid sid) (games s2) = Some g ∧
          pairs s2 g sid sid).
Proof.
  intros Hr s s1.
  destruct (kept_run_async tr) as (_ & [Hconn _] & _). fold s in Hconn, Hr.
  destruct (Hconn sid r Hr) as [Hlt Hid].
  destruct (Server_enqueue_cases sid stats s)
    as [[Hn _] | (r' & Hr' & Hh & Hp & Hg & Hq)]; [congruence |].
  assert (r' = r) as -> by congruence. fold s1 in Hh, Hp, Hg, Hq.
  assert (Hd : ∀ x, Player.id (deref s1 x) = Player.id (deref s x)).
  { intros x. by rewrite (deref_heap s1 s). }
  assert (Hcount : ∀ sid',
    entries_for s1 sid' =
    entries_for s sid' + (if decide (sid = sid') then 1 else 0)).
  { intros sid'. unfold entries_for. rewrite Hq, (in_queue_ids s s1) by done.
    rewrite filter_app, length_app. f_equal.
    rewrite (filter_singleton _ _ []).
    destruct (decide (in_queue s sid' r)) as [Hin | Hin],
             (decide (sid = sid')) as [He | He]; try done;
      unfold in_queue in Hin; rewrite Hid in Hin; done. }
  split_and!.
  - intros name. split; [apply new_player_lookup | done].
  - done.
  - by rewrite Hd.
  - rewrite Hcount, decide_True by done. lia.
  - intros sid' Hne. rewrite Hcount, decide_False by done. lia.
  - intros coin p Hqp Hp0 s2.
    destruct (resume_pairs sid stats coin s p r Hr Hqp)
      as (Hq2 & Hg2 & _ & _ & _ & Hpairs).
    fold s2 in Hq2, Hg2, Hpairs. unfold in_queue in Hp0.
    rewrite Hp0, Hid in Hg2, Hpairs.
    split_and!; [done | by unfold entries_for; rewrite Hq2 |].
    eexists. split; [rewrite Hg2; apply map_get_set_eq | done].
Qed.

Lemma enqueue_always_appends_witness :
  let s := run_async ann_called_again in
  let s1 := Server.enqueue "ann-socket" None s in
  waitingQueue s1 = waitingQueue s ++ [1] ∧
  entries_for s1 "ann-socket" = S (entries_for s "ann-socket").
Proof.
  cbv zeta.
  destruct (enqueue_always_appends ann_called_again "ann-socket" None 1)
    as (_ & Hq & _ & Hn & _).
  - by vm_compute.
  - split; [exact Hq | exact Hn].
Defined.

(** ** C5: pairing in the order of arrival in the queue *)

Lemma called_app l1 l2 sid : called (l1 ++ l2) sid ↔ called l1 sid ∨ called l2 sid.
Proof.
  unfold called. split.
  - intros [name [H | H]%elem_of_app]; [left | right]; by exists name.
  - intros [[name H] | [name H]]; exists name; apply elem_of_app; [by left | by right].
Qed.

(** Calls of [join] leave the queue and the registry alone and keep what
    was there; whoever has called has a player object afterwards. *)
Lemma calls_frame cs s :
  Forall is_call cs → linked s →
  linked (foldl step_async s cs) ∧
  waitingQueue (foldl step_async s cs) = waitingQueue s ∧
  games (foldl step_async s cs) = games s ∧
  (∀ r, r < length (heap s) →
        Player.id (deref (foldl step_async s cs) r) = Player.id (deref s r)) ∧
  (∀ sid, called cs sid ∨ is_Some (player s !! sid) →
          is_Some (player (foldl step_async s cs) !! sid)).
Proof.
  intros Hcs. revert s. induction Hcs as [| a cs Ha _ IH]; intros s Hl.
  - split_and!; try done. intros sid [[name Hin] | H]; [| done].
    by apply elem_of_nil in Hin.
  - destruct a as [sid0 name0 | | |]; try done. simpl.
    set (p := {| Player.id := sid0; Player.name := name_or_id name0 sid0;
                 Player.mark := MX; Player.gameId := None |}).
    set (s1 := Server.announce sid0 name0 s).
    assert (Hheap : heap s1 = heap s ++ [p]) by done.
    destruct (IH s1 (linked_call sid0 name0 s Hl)) as (H1 & H2 & H3 & H4 & H5).
    split_and!; [done | done | done | |].
    + intros r Hr. rewrite H4.
      * by rewrite (deref_grow s s1 [p]).
      * rewrite Hheap, length_app. lia.
    + intros sid Hsid. apply H5.
      destruct (decide (sid = sid0)) as [-> | Hne].
      * right. change (player s1) with (<[sid0 := length (heap s)]> (player s)).
        by rewrite lookup_insert_eq.
      * destruct Hsid as [[name Hin] | Hp].
        -- left. exists name. apply elem_of_cons in Hin as [[= -> _] | Hin]; done.
        -- right. change (player s1) with (<[sid0 := length (heap s)]> (player s)).
           by rewrite lookup_insert_ne.
Qed.

Lemma foldl_one s a : foldl step_async s [a] = step_async s a.
Proof. reflexivity. Qed.

(** Two resumptions, with calls only before and between them, on an empty
    queue: the first to resume waits and is paired with the second. *)
Lemma two_joins_pair c0 c1 a b sa sb ca cb s :
  Forall is_call c0 → Forall is_call c1 → linked s → waitingQueue s = [] →
  called c0 a ∨ is_Some (player s !! a) →
  called (c0 ++ c1) b ∨ is_Some (player s !! b) →
  ∃ g,
    linked (foldl step_async s
              (c0 ++ [JoinResumed a sa ca] ++ c1 ++ [JoinResumed b sb cb])) ∧
    waitingQueue (foldl step_async s
              (c0 ++ [JoinResumed a sa ca] ++ c1 ++ [JoinResumed b sb cb])) = [] ∧
    games (foldl step_async s
              (c0 ++ [JoinResumed a sa ca] ++ c1 ++ [JoinResumed b sb cb])) =
      map_set (new_gameId a b) g (games s) ∧
    pairs (foldl step_async s
              (c0 ++ [JoinResumed a sa ca] ++ c1 ++ [JoinResumed b sb cb])) g a b ∧
    (∀ sid, called (c0 ++ c1) sid ∨ is_Some (player s !! sid) →
       is_Some (player (foldl step_async s
              (c0 ++ [JoinResumed a sa ca] ++ c1 ++ [JoinResumed b sb cb])) !! sid)).
Proof.
  intros H0 H1 Hl Hq Ha Hb. rewrite !foldl_app, !foldl_one.
  destruct (calls_frame c0 s H0 Hl) as (HlA & HqA & HgA & _ & HpA).
  set (sA := foldl step_async s c0) in *.
  destruct (HpA a Ha) as [ra Hra].
  destruct (proj1 HlA a ra Hra) as [HltA HidA].
  rewrite Hq in HqA.
  destruct (resume_waits a sa ca sA ra Hra HqA) as (HqB & HgB & HhB & HpB).
  assert (HlB : linked (step_async sA (JoinResumed a sa ca))).
  { by apply linked_pair_up, linked_enqueue. }
  set (sB := step_async sA (JoinResumed a sa ca)) in *.
  destruct (calls_frame c1 sB H1 HlB) as (HlC & HqC & HgC & HidC & HpC).
  set (sC := foldl step_async sB c1) in *.
  assert (Hpres : ∀ sid, called (c0 ++ c1) sid ∨ is_Some (player s !! sid) →
                         is_Some (player sC !! sid)).
  { intros sid [[H | H]%called_app | H]; apply HpC.
    - right. rewrite HpB. apply HpA. by left.
    - by left.
    - right. rewrite HpB. apply HpA. by right. }
  destruct (Hpres b Hb) as [rb Hrb].
  destruct (proj1 HlC b rb Hrb) as [_ HidB].
  rewrite HqB in HqC.
  destruct (resume_pairs b sb cb sC ra rb Hrb HqC)
    as (HqD & HgD & HpD & _ & _ & Hpairs).
  assert (Hra_id : Player.id (deref sC ra) = a).
  { rewrite HidC by (by rewrite HhB). by rewrite (deref_heap sB sA). }
  rewrite Hra_id, HidB in HgD, Hpairs.
  exists (started_game cb ra rb sC). split_and!.
  - by apply linked_pair_up, linked_enqueue.
  - done.
  - by rewrite HgD, HgC, HgB, HgA.
  - done.
  - intros sid Hsid. rewrite HpD. by apply Hpres.
Qed.

(** Against C5 as stated: the joins arrive in the order Ann, Bob, Cid,
    Dan and nobody disconnects, yet the first match pairs Bob with Cid and
    the second Ann with Dan: Ann's handler is still waiting for the store
    when those of Bob and Cid push their players. *)
Lemma joins_overtaken_counterexample :
  filter is_call overtaken =
    [ JoinCalled "ann-socket" (Some "Ann"); JoinCalled "bob-socket" (Some "  ");
      JoinCalled "cid-socket" (Some "  "); JoinCalled "dan-socket" (Some "Dan") ] ∧
  Db.normalizeName "  " = "" ∧
  map_get "g_ann-s_bob-s" (games (run_async overtaken)) = None ∧
  ∃ g1 g2,
    games (run_async overtaken) = [("g_bob-s_cid-s", g1); ("g_ann-s_dan-s", g2)] ∧
    pairs (run_async overtaken) g1 "bob-socket" "cid-socket" ∧
    pairs (run_async overtaken) g2 "ann-socket" "dan-socket".
Proof.
  split_and!; [by vm_compute | by vm_compute | by vm_compute |].
  eexists _, _. split; [by vm_compute |]. split; left; by vm_compute.
Qed.

(** C5 (amended). Whenever the queue holds two or more entries, the
    pairing step removes its first two entries, the two that have waited
    longest, and starts a match between exactly these two, leaving the
    later entries in their order; a queue of fewer than two entries is
    left as it is. A player enters the queue when its [join] handler
    resumes with the store's answer: for joins that resume in the order A,
    B, C, D, whatever the order of their calls, the first match pairs A
    with B and the second pairs C with D, and nobody is left waiting. *)
Theorem pairing_is_fifo :
  (∀ coin s p1 p2 rest,
     waitingQueue s = p1 :: p2 :: rest →
     pair_up coin s = startMatch coin p1 p2 (with_queue rest s) ∧
     waitingQueue (pair_up coin s) = rest ∧
     ∃ g, map_get (new_gameId (Player.id (deref s p1)) (Player.id (deref s p2)))
            (games (pair_up coin s)) = Some g ∧
          ((Game.players_X g = p1 ∧ Game.players_O g = p2) ∨
           (Game.players_X g = p2 ∧ Game.players_O g = p1))) ∧
  (∀ coin s, length (waitingQueue s) < 2 → pair_up coin s = s) ∧
  (∀ c0 c1 c2 c3 a b c d sa sb sc sd ca cb cc cd,
     Forall is_call c0 → Forall is_call c1 →
     Forall is_call c2 → Forall is_call c3 →
     called c0 a → called (c0 ++ c1) b →
     called (c0 ++ c1 ++ c2) c → called (c0 ++ c1 ++ c2 ++ c3) d →
     let s2 := run_async (c0 ++ [JoinResumed a sa ca] ++
                          c1 ++ [JoinResumed b sb cb]) in
     let s4 := foldl step_async s2 (c2 ++ [JoinResumed c sc cc] ++
                                    c3 ++ [JoinResumed d sd cd]) in
     (∃ g1, games s2 = [(new_gameId a b, g1)] ∧ pairs s2 g1 a b ∧
            waitingQueue s2 = []) ∧
     (∃ g2, map_get (new_gameId c d) (games s4) = Some g2 ∧ pairs s4 g2 c d ∧
            waitingQueue s4 = [])).
Proof.
  split_and!.
  - intros coin s p1 p2 rest Hq. unfold pair_up. rewrite Hq.
    split_and!; [done | done |].
    eexists. split.
    + rewrite startMatch_games. apply map_get_set_eq.
    + unfold started_game. cbn. destruct coin.
      * left. by rewrite decide_True.
      * right. split; [done |]. by destruct (decide (p2 = p1)).
  - intros coin s Hlen. unfold pair_up.
    destruct (waitingQueue s) as [| p1 [| p2 rest]]; [done | done |].
    simpl in Hlen. lia.
  - intros c0 c1 c2 c3 a b c d sa sb sc sd ca cb cc cd H0 H1 H2 H3 Ha Hb Hc Hd
      s2 s4.
    destruct (two_joins_pair c0 c1 a b sa sb ca cb init H0 H1 linked_init eq_refl)
      as (g1 & Hl2 & Hq2 & Hg2 & Hp2 & Hpres); [by left | by left |].
    fold (run_async (c0 ++ [JoinResumed a sa ca] ++ c1 ++ [JoinResumed b sb cb]))
      in Hl2, Hq2, Hg2, Hp2, Hpres.
    fold s2 in Hl2, Hq2, Hg2, Hp2, Hpres.
    destruct (two_joins_pair c2 c3 c d sc sd cc cd s2 H2 H3 Hl2 Hq2)
      as (g2 & _ & Hq4 & Hg4 & Hp4 & _).
    { rewrite app_assoc in Hc. apply called_app in Hc as [Hc | Hc]; [| by left].
      right. apply Hpres. by left. }
    { rewrite app_assoc, called_app in Hd. destruct Hd as [Hd | Hd]; [| by left].
      right. apply Hpres. by left. }
    fold s4 in Hq4, Hg4, Hp4.
    split.
    + by exists g1.
    + exists g2. split; [rewrite Hg4; apply map_get_set_eq | done].
Qed.

(** ** The queue between two events *)

(** X2. Between two events of the server with persistence at most one
    player waits, also when other events are handled while [join]
    handlers are suspended: the resumption of a [join] on an empty queue
    leaves its player waiting, and on a queue of one it gives the queue a
    second entry and pairs the two within the same run of the handler,
    leaving the queue empty and a game registered for the waiting player
    and the one just pushed. *)
Theorem queue_at_most_one (tr : list Async) :
  (length (waitingQueue (run_async tr)) ≤ 1)%nat ∧
  ∀ sid stats coin r,
    player (run_async tr) !! sid = Some r →
    let s := run_async tr in
    let s' := step_async s (JoinResumed sid stats coin) in
    match waitingQueue s with
    | [] => waitingQueue s' = [r] ∧ games s' = games s
    | p :: _ =>
        waitingQueue s' = [] ∧
        ∃ g, games s' = map_set (new_gameId (Player.id (deref s p)) sid) g (games s) ∧
             ((Game.players_X g = p ∧ Game.players_O g = r) ∨
              (Game.players_X g = r ∧ Game.players_O g = p))
    end.
Proof.
  destruct (kept_run_async tr) as (_ & [Hconn _] & _ & Hlen).
  split; [done |]. intros sid stats coin r Hr s s'. fold s in Hconn, Hlen, Hr.
  destruct (Hconn sid r Hr) as [_ Hid].
  destruct (waitingQueue s) as [| p [| p' q]] eqn:Hq; [| | simpl in Hlen; lia].
  - by destruct (resume_waits sid stats coin s r Hr Hq) as (? & ? & _).
  - destruct (resume_pairs sid stats coin s p r Hr Hq) as (Hq' & Hg' & _).
    fold s' in Hq', Hg'. rewrite Hid in Hg'.
    split; [done |]. eexists. split; [exact Hg' |].
    unfold started_game. cbn [Game.players_X Game.players_O].
    destruct coin.
    + left. by rewrite decide_True.
    + right. split; [done |]. by destruct (decide (r = p)).
Qed.

(** ** The boards that [move] evaluates *)

(** X3. On every board that the [move] handler of the server with
    persistence passes to [checkWinner], in whatever state the server has
    reached ([join] suspensions included), at most one mark completes a
    line, the one just written, and the result is [Won m] for every mark
    [m] that completes a line. *)
Theorem evaluated_board_has_one_winner (tr : list Async) (sid gameId : string)
    (index : Z) (game : Game.t) (r : ref) (m : Mark) :
  accepted (run_async tr) sid gameId index game r →
  let mark := Player.mark (deref (run_async tr) r) in
  let board' := Game.board (played game mark index) in
  completed board' m →
  m = mark ∧ checkWinner board' = Some (Won m).
Proof.
  intros Ha mark board' Hm.
  pose proof Ha as (Hget & _ & _ & _ & _ & _ & Hcell).
  assert (Hnone : ∀ m', ¬ completed (Game.board game) m').
  { apply checkWinner_None_no_line.
    destruct (sound_registered _ gameId game (sound_run_async tr) Hget)
      as [_ (_ & _ & _ & Hres)].
    exact Hres. }
  assert (Honly : ∀ m', completed board' m' → m' = mark).
  { intros m'. by apply one_more_mark. }
  pose proof (Honly m Hm) as ->. split; [done |]. by apply completed_wins.
Qed.

(** Ann completes the top row. *)
Lemma evaluated_board_has_one_winner_witness :
  accepted (run_async top_row_async) "ann-socket" "g_bob-s_ann-s" 2 top_row_game 0 ∧
  let mark := Player.mark (deref (run_async top_row_async) 0) in
  let board' := Game.board (played top_row_game mark 2) in
  completed board' MX ∧ MX = mark ∧ checkWinner board' = Some (Won MX).
Proof.
  assert (Ha : accepted (run_async top_row_async) "ann-socket" "g_bob-s_ann-s" 2
                 top_row_game 0).
  { apply (bool_decide_unpack _). by vm_compute. }
  assert (Hc : completed (Game.board (played top_row_game
                 (Player.mark (deref (run_async top_row_async) 0)) 2)) MX).
  { apply (bool_decide_unpack _). by vm_compute. }
  split; [exact Ha |]. split; [exact Hc |].
  exact (evaluated_board_has_one_winner top_row_async "ann-socket" "g_bob-s_ann-s"
           2 top_row_game 0 MX Ha Hc).
Defined.
